(** * RivGraph skeleton walking ([rivgraph/walk.py])

    A shallow embedding of the branchpoint-resolution and skeleton-walking
    functions of [walk.py], and the properties of them that the
    specification states.

    Conventions of the embedding.
    - Pixel indices, link ids and image values are Python integers: [Z].
    - A Python list is a [list]; positions in a list ([list.index], the
      node positions kept in [links['conn']]) are [nat].
    - A Python [set] of integers is a [gset Z].
    - A Python exception is [None] in an [option]; a [while] loop or a
      recursion takes fuel, and [None] also stands for fuel that ran
      out. *)

From Stdlib Require Import ZArith List Lia.
From stdpp Require Import base option list numbers gmap sets.

(** ** Python list primitives *)

Section PyList.
Context {A : Type} `{EqDecision A}.

(** [l.index(x)]: the first position of [x]; [ValueError] when absent. *)
Fixpoint py_index (x : A) (l : list A) : option nat :=
  match l with
  | [] => None
  | y :: l' => if decide (x = y) then Some 0 else S <$> py_index x l'
  end.

(** [l.remove(x)]: drops the first occurrence; [ValueError] when absent. *)
Fixpoint py_remove (x : A) (l : list A) : option (list A) :=
  match l with
  | [] => None
  | y :: l' => if decide (x = y) then Some l' else cons y <$> py_remove x l'
  end.

(** [l.pop(i)] for [0 <= i]: the element and the rest; [IndexError]
    when out of range. *)
Definition py_pop (i : nat) (l : list A) : option (A * list A) :=
  x ← l !! i; Some (x, delete i l).

(** [l[-2:]]: the last two elements (the whole list when shorter). *)
Definition last_two (l : list A) : list A := drop (length l - 2) l.

(** [l[:2]]. *)
Definition first_two (l : list A) : list A := take 2 l.

(** [l[:-1]]: all but the last element. *)
Definition but_last (l : list A) : list A := take (length l - 1) l.

(** [l[1:]]. *)
Definition but_first (l : list A) : list A := drop 1 l.

(** [l.count(x)]: the number of entries of [l] equal to [x]. *)
Definition occ (x : A) (l : list A) : nat := length (filter (λ y, y = x) l).
End PyList.

(** ** [idcs_no_turnaround] *)

Module Turn.
Local Open Scope Z_scope.

(** The [if]/[elif] chain on [idxdif]. No branch is taken when [idxdif]
    is none of the eight displacements; [walkdirs] is then unbound and
    the list comprehension raises. *)
Definition walkdirs (idxdif ncols : Z) : option (list Z) :=
  if decide (idxdif = - ncols - 1) then Some [1; ncols; ncols + 1]
  else if decide (idxdif = - ncols) then Some [ncols - 1; ncols; ncols + 1]
  else if decide (idxdif = - ncols + 1) then Some [-1; ncols - 1; ncols]
  else if decide (idxdif = -1) then Some [- ncols + 1; 1; ncols + 1]
  else if decide (idxdif = 1) then Some [- ncols - 1; -1; - ncols - 1]
  else if decide (idxdif = ncols - 1) then Some [- ncols; - ncols + 1; 1]
  else if decide (idxdif = ncols) then Some [- ncols - 1; - ncols; - ncols + 1]
  else if decide (idxdif = ncols + 1) then Some [-1; - ncols - 1; - ncols]
  else None.

(** [idcs_no_turnaround(idcs, Iskel)], with [ncols = Iskel.shape[1]]. *)
Definition idcs_no_turnaround (idcs : list Z) (ncols : Z) : option (list Z) :=
  i0 ← idcs !! 0%nat;
  i1 ← idcs !! 1%nat;
  ilast ← last idcs;
  wds ← walkdirs (i0 - i1) ncols;
  Some (map (λ wd, ilast + wd) wds).

(** A step on the raster, as (row step, column step). *)
Definition step : Type := Z * Z.

(** The eight steps to a neighbouring pixel. *)
Definition is_dir (d : step) : Prop :=
  (-1 <= d.1 <= 1) ∧ (-1 <= d.2 <= 1) ∧ d ≠ (0, 0).

(** The flat-index offset of a step in a raster of [ncols] columns. *)
Definition offset (ncols : Z) (d : step) : Z := d.1 * ncols + d.2.

(** [e] does not turn around after [d]: it keeps a positive component
    along [d]. For a neighbouring step [d] these are the three steps
    nearest to [d]. *)
Definition forward (d e : step) : Prop := d.1 * e.1 + d.2 * e.2 > 0.

(** What the specification asks of the answer for the pair [p; c], where
    [c] is reached from [p] by the step [d]: three distinct indices, each
    a neighbour of [c] reached by a step that is forward of [d]. *)
Definition admissible (ncols p c : Z) (d : step) (r : list Z) : Prop :=
  length r = 3%nat ∧ NoDup r ∧
  ∀ n, n ∈ r → ∃ e, is_dir e ∧ forward d e ∧ n = c + offset ncols e.
End Turn.

(** ** Loops that may raise *)

(** A [for] loop over [l] whose body may raise: the state is threaded
    through, and the first [None] ends the loop. *)
Fixpoint foldlM {A B : Type} (f : B → A → option B) (b : B) (l : list A)
  : option B :=
  match l with
  | [] => Some b
  | x :: l' => b' ← f b x; foldlM f b' l'
  end.

(** ** The node and link collections *)

(** [links]: a dict of three parallel lists. [l_conn] holds, per link, the
    positions in [nodes['idx']] of the nodes it connects. *)
Record Links := mkLinks {
  l_id : list Z;
  l_idx : list (list Z);
  l_conn : list (list nat)
}.

(** [nodes]: a dict of parallel lists. [n_conn] holds, per node, the ids of
    its links. *)
Record Nodes := mkNodes {
  n_idx : list Z;
  n_conn : list (list Z)
}.

(** The pending set [links2do], an insertion-ordered set. *)
Definition Pending : Type := list Z.

(** [OrderedSet.add]: appended when new, kept in place otherwise. *)
Definition pending_add (x : Z) (s : Pending) : Pending :=
  if decide (x ∈ s) then s else s ++ [x].

(** The pixel chain of the link with id [lid]:
    [links['idx'][links['id'].index(lid)]]. *)
Definition link_chain (links : Links) (lid : Z) : option (list Z) :=
  i ← py_index lid (l_id links); l_idx links !! i.

(** The connection pair of the link with id [lid]. *)
Definition link_conn (links : Links) (lid : Z) : option (list nat) :=
  i ← py_index lid (l_id links); l_conn links !! i.

(** ** [delete_link] *)

(** [nodes['conn'][ni].remove(linkid)] *)
Definition node_unlink (linkid : Z) (nc : list (list Z)) (ni : nat)
  : option (list (list Z)) :=
  l ← nc !! ni;
  l' ← py_remove linkid l;
  Some (<[ni := l']> nc).

Definition delete_link (linkid : Z) (links : Links) (nodes : Nodes)
  : option (Links * Nodes) :=
  lid ← py_index linkid (l_id links);
  p1 ← py_pop lid (l_idx links);
  p2 ← py_pop lid (l_conn links);
  id' ← py_remove linkid (l_id links);
  nc' ← foldlM (node_unlink linkid) (n_conn nodes) p2.1;
  Some (mkLinks id' p1.2 p2.2, mkNodes (n_idx nodes) nc').

(** The three lists of [links] are parallel, and every link stands in
    the connectivity list of each node of its pair, once for each time
    the node stands in the pair. *)
Definition links_ok (links : Links) (nodes : Nodes) : Prop :=
  length (l_idx links) = length (l_id links)
  ∧ length (l_conn links) = length (l_id links)
  ∧ ∀ i lid pair ni,
      l_id links !! i = Some lid → l_conn links !! i = Some pair →
      ni ∈ pair →
      ∃ c, n_conn nodes !! ni = Some c ∧ occ ni pair ≤ occ lid c.

(** The lists of ids and of pixel chains are parallel, and every pending
    id is the id of a link. *)
Definition pending_ok (links : Links) (pend : Pending) : Prop :=
  length (l_idx links) = length (l_id links)
  ∧ ∀ x, x ∈ pend → x ∈ l_id links.

(** ** [check_dup_links] *)

(** [set(a) == set(b)] on lists of pixels. *)
Definition same_pixels (a b : list Z) : Prop :=
  (list_to_set a : gset Z) = list_to_set b.

#[global] Instance same_pixels_dec (a b : list Z) : Decision (same_pixels a b).
Proof. unfold same_pixels. apply _. Defined.

(** The test of the loop: the first two pixels of the link [lid] are the
    last two pixels of [link]. *)
Definition dup_of (link : list Z) (links : Links) (lid : Z) : Prop :=
  ∃ ch, link_chain links lid = Some ch
        ∧ same_pixels (last_two link) (first_two ch).

(** The test as the specification words it: the last two pixels of the
    link [lid] are the last two pixels of [link]. *)
Definition dup_of_last (link : list Z) (links : Links) (lid : Z) : Prop :=
  ∃ ch, link_chain links lid = Some ch
        ∧ same_pixels (last_two link) (last_two ch).

(** The body of the loop over [nconn]. *)
Definition check_dup_step (link : list Z) (st : Links * Nodes * Pending)
  (lid : Z) : option (Links * Nodes * Pending) :=
  let '(links, nodes, links2do) := st in
  ch ← link_chain links lid;
  if decide (same_pixels (last_two link) (first_two ch)) then
    ln ← delete_link lid links nodes;
    (* [links2do.remove(lid)] inside [try]: nothing happens when absent *)
    Some (ln.1, ln.2, filter (λ x, x ≠ lid) links2do)
  else Some st.

Definition check_dup_links (linkid : Z) (links : Links) (nodes : Nodes)
  (links2do : Pending) : option (Links * Nodes * Pending) :=
  linkidx ← py_index linkid (l_id links);
  link ← l_idx links !! linkidx;
  pair ← l_conn links !! linkidx;
  lconn ← pair !! 1;
  cl ← n_conn nodes !! lconn;
  let nconn : gset Z := list_to_set cl in
  (* [nconn.remove(linkid)] raises when [linkid] is not in the set *)
  if decide (linkid ∈ nconn) then
    foldlM (check_dup_step link) (links, nodes, links2do)
      (elements (nconn ∖ {[linkid]}))
  else None.

(** ** Images *)

(** A 2-D numpy array of integers, as its list of rows. *)
Definition image : Type := list (list Z).

(** [I.shape] *)
Definition shape (I : image) : Z * Z :=
  (Z.of_nat (length I), Z.of_nat (length (default [] (head I)))).

(** [np.ravel(I)] *)
Definition ravel (I : image) : list Z := concat I.

(** [a[k]] for a 1-D array: a negative [k] counts from the end;
    [IndexError] out of range. *)
Definition np_get (a : list Z) (k : Z) : option Z :=
  let n := Z.of_nat (length a) in
  if decide (0 ≤ k)%Z then a !! Z.to_nat k
  else if decide (- n ≤ k)%Z then a !! Z.to_nat (n + k)
  else None.

(** [I[(r, c)]] for non-negative [r], [c]. *)
Definition im_get (I : image) (rc : Z * Z) : option Z :=
  if decide (0 ≤ rc.1 ∧ 0 ≤ rc.2)%Z
  then row ← I !! Z.to_nat rc.1; row !! Z.to_nat rc.2
  else None.

(** Element-wise combination of two arrays of one shape. *)
Definition im_zip (f : Z → Z → Z) (A B : image) : image :=
  zip_with (zip_with f) A B.

(** [np.where(I == v)]: the row indices and the column indices of the
    matches, in row-major order. *)
Definition where_eq (I : image) (v : Z) : list Z * list Z :=
  let hits :=
    concat (imap (λ r row,
      omap (λ cv : nat * Z,
        if decide (cv.2 = v) then Some (Z.of_nat r, Z.of_nat cv.1) else None)
        (imap (λ c x, (c, x)) row)) I) in
  (hits.*1, hits.*2).

(** [np.sum(I > 2)] *)
Definition count_gt2 (I : image) : nat :=
  length (filter (λ v, 2 < v)%Z (ravel I)).

(** The bound of a slice [a[:k]] or [a[k:]] on an axis of length [n]. *)
Definition slice_bound (n k : Z) : Z :=
  if decide (k < 0)%Z then Z.max 0 (n + k) else Z.min k n.

(** [I[r0:r1, c0:c1] = 0] with the bounds already normalised. *)
Definition zero_block (r0 r1 c0 c1 : Z) (I : image) : image :=
  imap (λ r row,
    imap (λ c x,
      if decide ((r0 ≤ Z.of_nat r < r1) ∧ (c0 ≤ Z.of_nat c < c1))%Z
      then 0%Z else x) row) I.

(** [I[:k, :] = 0] *)
Definition zero_rows_before (k : Z) (I : image) : image :=
  zero_block 0 (slice_bound (shape I).1 k) 0 (shape I).2 I.

(** [I[k:, :] = 0] *)
Definition zero_rows_from (k : Z) (I : image) : image :=
  zero_block (slice_bound (shape I).1 k) (shape I).1 0 (shape I).2 I.

(** [I[:, :k] = 0] *)
Definition zero_cols_before (k : Z) (I : image) : image :=
  zero_block 0 (shape I).1 0 (slice_bound (shape I).2 k) I.

(** [I[:, k:] = 0] *)
Definition zero_cols_from (k : Z) (I : image) : image :=
  zero_block 0 (shape I).1 (slice_bound (shape I).2 k) (shape I).2 I.

(** [min] and [max] of a list; [ValueError] on the empty list. *)
Definition list_min (l : list Z) : option Z :=
  match l with [] => None | x :: l' => Some (foldl Z.min x l') end.

Definition list_max (l : list Z) : option Z :=
  match l with [] => None | x :: l' => Some (foldl Z.max x l') end.

(** ** What [walk.py] imports *)

(** The functions of [rivgraph.im_utils], [skimage.measure] and
    [scipy.stats] that [walk.py] calls. Their code is not part of the
    sources studied here, so the embedding is parametric in them. *)
Class ImUtils := {
  (** [iu.get_array(idx, I, size)]: the window around [idx], with the row
      and the column of its upper-left corner. *)
  get_array : Z → image → Z * Z → image * Z * Z;
  (** [iu.neighbors_flat(idx, imflat, ncols)[0]] *)
  neighbors_flat : Z → list Z → Z → list Z;
  (** [iu.reglobalize_flat_idx(idcs, shape, row_offset, col_offset,
      shape_global)] *)
  reglobalize_flat_idx : list Z → Z * Z → Z → Z → Z * Z → list Z;
  (** [iu.im_connectivity(I)] *)
  im_connectivity : image → image;
  (** [iu.nfour_connectivity(I)] *)
  nfour_connectivity : image → image;
  (** [iu.largest_blobs(I, 1, 'keep')] *)
  largest_blobs : image → image;
  (** [iu.edge_coords(shape, dtype='flat')] *)
  edge_coords : Z * Z → gset Z;
  (** [iu.four_conn([idx], I)[0]] *)
  four_conn : Z → image → list Z;
  (** [measure.label(I, background=0, connectivity=1)] *)
  measure_label : image → image;
  (** [np.ndarray.tolist(stats.mode(l).mode)] *)
  stats_mode : list Z → list Z
}.

(** The order in which Python serves the elements of a set is not
    specified. [set_list] is the order of iteration (and of [list(s)]),
    [set_pop] the element that [s.pop()] takes. Both are taken as
    functions of the contents of the set; nothing below depends on which
    functions they are. *)
Class PySet := {
  set_list : ∀ `{Countable A}, gset A → list A;
  set_pop : gset Z → Z;
  (** [tuple(set(l))]: the order of a set just built from the list [l] *)
  tuple_of : list Z → list Z;
  set_list_perm : ∀ `{Countable A} (s : gset A), set_list s ≡ₚ elements s;
  tuple_of_perm : ∀ l, tuple_of l ≡ₚ remove_dups l;
  set_pop_elem : ∀ s : gset Z, s ≠ ∅ → set_pop s ∈ s
}.

(** The elements of [s] in the order in which [while s: x = s.pop()]
    takes them. [n] bounds the number of rounds; [pop_order] gives it the
    size of the set. *)
Fixpoint pop_seq `{PySet} (n : nat) (s : gset Z) : list Z :=
  match n with
  | O => []
  | S n' =>
    if decide (s = ∅) then []
    else let x := set_pop s in x :: pop_seq n' (s ∖ {[x]})
  end.

Definition pop_order `{PySet} (s : gset Z) : list Z := pop_seq (size s) s.

(** ** [get_neighbors] and [walkable_neighbors] *)

Definition get_neighbors `{ImUtils} (idx : Z) (Iskel : image) : list Z :=
  let size : Z * Z := (3, 3)%Z in
  let cent_idx := 4%Z in
  let '(Iw, row_offset, col_offset) := get_array idx Iskel size in
  let I_flat := ravel Iw in
  let neighbor_idcs := neighbors_flat cent_idx I_flat size.2 in
  reglobalize_flat_idx neighbor_idcs size row_offset col_offset (shape Iskel).

(** [link[-1]] raises on the empty list; the [try] around the set
    difference never fires. *)
Definition walkable_neighbors `{ImUtils} (link : list Z) (Iskel : image)
  : option (gset Z) :=
  idx ← last link;
  Some (list_to_set (get_neighbors idx Iskel) ∖ list_to_set (last_two link)).

(** ** [isbp_walk_for_bps] *)

(** The four sets the walk mutates. *)
Record walk_state := mkWalk {
  ws_bpi : gset Z;
  ws_do_first : gset Z;
  ws_emanators : gset Z;
  ws_walked : gset Z
}.

(** [np.array(Ic, dtype=bool)] *)
Definition as_bool (Ic : image) : image :=
  map (map (λ v, if decide (v = 0) then 0 else 1)%Z) Ic.

(** The inner loop [while walking], entered at [idx]. [None]: the fuel ran
    out before [walking] became 0. *)
Fixpoint walk_chain `{ImUtils, PySet} (fuel : nat) (Im : image) (idx : Z)
  (st : walk_state) : option walk_state :=
  match fuel with
  | O => None
  | S fuel' =>
    let walked := ws_walked st ∪ {[idx]} in
    let neighs : gset Z :=
      list_to_set (neighbors_flat idx (ravel Im) (shape Im).2) ∖ walked in
    let st1 := mkWalk (ws_bpi st) (ws_do_first st) (ws_emanators st) walked in
    if decide (size neighs = 0) then Some st1
    else if decide (size neighs = 1) then
      let idx' := set_pop neighs in
      if decide (idx' ∈ edge_coords (shape Im)) then Some st1
      else walk_chain fuel' Im idx' st1
    else
      let fourconn := filter (λ f, f ∈ neighs) (four_conn idx Im) in
      walk_chain fuel' Im idx
        (mkWalk (ws_bpi st ∪ {[idx]})
                (ws_do_first st ∪ list_to_set fourconn)
                (ws_emanators st ∪ neighs)
                (walked ∪ {[idx]} ∪ neighs))
  end.

(** The choice at the head of the outer loop: from [do_first] when it is
    not empty ([emanators.remove] raises when the pixel is not an
    emanator), else from [emanators]. *)
Definition walk_pick `{PySet} (st : walk_state) : option (Z * walk_state) :=
  if decide (ws_do_first st ≠ ∅) then
    let idx := set_pop (ws_do_first st) in
    if decide (idx ∈ ws_emanators st) then
      Some (idx, mkWalk (ws_bpi st) (ws_do_first st ∖ {[idx]})
                        (ws_emanators st ∖ {[idx]}) (ws_walked st))
    else None
  else
    let idx := set_pop (ws_emanators st) in
    Some (idx, mkWalk (ws_bpi st) (ws_do_first st)
                      (ws_emanators st ∖ {[idx]}) (ws_walked st)).

(** The outer loop [while emanators]. [None]: an exception, or the fuel
    ran out. *)
Fixpoint walk_loop `{ImUtils, PySet} (fuel : nat) (Im : image)
  (st : walk_state) : option (gset Z) :=
  if decide (ws_emanators st = ∅) then Some (ws_bpi st)
  else
    match fuel with
    | O => None
    | S fuel' =>
      p ← walk_pick st;
      st' ← walk_chain fuel Im p.1 p.2;
      walk_loop fuel' Im st'
    end.

(** The state before the outer loop. *)
Definition walk_init `{ImUtils, PySet} (Im : image) (bpi : list Z)
  : walk_state :=
  let bpi : gset Z := list_to_set bpi in
  let do_first : gset Z :=
    foldl (λ acc bp, acc ∪ list_to_set (four_conn bp Im)) ∅ (set_list bpi) in
  let emanators : gset Z :=
    foldl (λ acc bp,
             acc ∪ list_to_set (neighbors_flat bp (ravel Im) (shape Im).2))
          ∅ (set_list bpi) in
  mkWalk bpi do_first emanators (bpi ∪ emanators).

Definition isbp_walk_for_bps `{ImUtils, PySet} (fuel : nat) (Im : image)
  (bpi : list Z) : option (gset Z) :=
  walk_loop fuel Im (walk_init Im bpi).

(** ** [naxes_connectivity] *)

(** [Ir[a] == 1 or Ir[b] == 1]: the second read happens only when the
    first test fails. *)
Definition either_on (Ir : list Z) (a b : Z) : option bool :=
  x ← np_get Ir a;
  if decide (x = 1%Z) then Some true
  else y ← np_get Ir b; Some (bool_decide (y = 1%Z)).

(** The count of axes at one pixel. *)
Definition naxes_at (Ir : list Z) (ncols pix : Z) : option Z :=
  h ← either_on Ir (pix + 1) (pix - 1);
  v ← either_on Ir (pix + ncols) (pix - ncols);
  d1 ← either_on Ir (pix + 1 + ncols) (pix - 1 - ncols);
  d2 ← either_on Ir (pix - 1 + ncols) (pix + 1 - ncols);
  Some (Z.b2z h + Z.b2z v + Z.b2z d1 + Z.b2z d2)%Z.

(** [a[idcs] = vals] on a 1-D array, entry by entry. *)
Definition np_put (a : list Z) (idcs vals : list Z) : list Z :=
  foldl (λ a iv, <[Z.to_nat iv.1 := iv.2]> a) a (zip idcs vals).

(** [np.reshape(a, (nrows, ncols))] *)
Fixpoint reshape (nrows : nat) (ncols : nat) (a : list Z) : image :=
  match nrows with
  | O => []
  | S n => take ncols a :: reshape n ncols (drop ncols a)
  end.

(** The pixels that [naxes_connectivity] counts at ([dopix]): the
    on-pixels that are not on the border. *)
Definition naxes_pixels `{ImUtils} (Im : image) : gset Z :=
  list_to_set
    (omap (λ iv : nat * Z,
             if decide (iv.2 = 1%Z) then Some (Z.of_nat iv.1) else None)
          (imap (λ i v, (i, v)) (ravel Im)))
  ∖ edge_coords (shape Im).

(** A raster whose rows have one length, as every numpy array has. *)
Definition rectangular (Im : image) : Prop :=
  ∀ row, row ∈ Im → length row = length (default [] (head Im)).

Definition naxes_connectivity `{ImUtils, PySet} (Im : image)
  : option image :=
  let Ir := ravel Im in
  let edgeidcs := edge_coords (shape Im) in
  let allpix : gset Z :=
    list_to_set
      (omap (λ iv : nat * Z,
               if decide (iv.2 = 1%Z) then Some (Z.of_nat iv.1) else None)
            (imap (λ i v, (i, v)) Ir)) in
  let dopix := allpix ∖ edgeidcs in
  let savepix := set_list dopix in
  (* while dopix: pix = dopix.pop(); ...; naxes.append(count) *)
  naxes ← mapM (naxes_at Ir (shape Im).2) (pop_order dopix);
  let Inax := np_put (replicate (length Ir) 0%Z) savepix naxes in
  Some (reshape (Z.to_nat (shape Im).1) (Z.to_nat (shape Im).2) Inax).

(** ** [isbp_parsimonious] *)

(** What [isbp_parsimonious] returns: the list [[maxnax]] whose one entry
    is itself a list, a flat list, or the set of a walk. *)
Inductive bps_value :=
  | BpNested (l : list Z)
  | BpList (l : list Z)
  | BpSet (s : gset Z).

(** The pixels named by a [bps_value], in the order Python lists them. *)
Definition bps_pixels `{PySet} (v : bps_value) : list Z :=
  match v with
  | BpNested l => l
  | BpList l => l
  | BpSet s => set_list s
  end.

(** [a[idcs]] with a list of indices. *)
Definition np_take (a : list Z) (idcs : list Z) : option (list Z) :=
  mapM (np_get a) idcs.

(** [[x for x, v in zip(xs, vals) if v == max(vals)]] *)
Definition argmaxes (xs vals : list Z) : option (list Z) :=
  mx ← list_max vals;
  Some (filter (λ p : Z * Z, p.2 = mx) (zip xs vals)).*1.

(** The branch [if len(bpsolo) > 0]. *)
Definition solo_choice (Inar Infr : list Z) (bpsolo : list Z)
  : option bps_value :=
  naxconn ← np_take Inar bpsolo;
  maxnax ← argmaxes bpsolo naxconn;
  if decide (length maxnax = 1) then Some (BpNested maxnax)
  else
    fourconn ← np_take Infr bpsolo;
    maxfour ← argmaxes bpsolo fourconn;
    if decide (length maxfour = 1) then Some (BpNested maxfour)
    else
      (* Now see if there's a max 4-conn within the max naxes-conn *)
      fourconn' ← np_take Infr maxnax;
      maxfour' ← argmaxes maxnax fourconn';
      m ← list_min maxfour';
      Some (BpList [m]).

(** The positions where the three raveled images show the triple [kv]. *)
Definition keeps_of (Icr Inar Infr : list Z) (kv : Z * Z * Z) : list Z :=
  omap (λ ix : nat * (Z * (Z * Z)),
          if decide (ix.2 = (kv.1.1, (kv.1.2, kv.2)))
          then Some (Z.of_nat ix.1) else None)
       (imap (λ i x, (i, x)) (zip Icr (zip Inar Infr))).

Definition keepvals : list (Z * Z * Z) :=
  [(6, 4, 2); (5, 3, 1); (5, 3, 4); (3, 3, 2); (3, 3, 1); (4, 2, 4)]%Z.

(** [bp_poss_i]: the pixels with connectivity above 2 that are not on
    the border of the window. *)
Definition bp_poss_i `{ImUtils, PySet} (Ic : image) : list Z :=
  let poss : list Z :=
    omap (λ iv : nat * Z,
            if decide (2 < iv.2)%Z then Some (Z.of_nat iv.1) else None)
         (imap (λ i v, (i, v)) (ravel Ic)) in
  set_list (list_to_set poss ∖ edge_coords (shape Ic)).

(** [bpsave]: the walk from each possible branchpoint alone. *)
Definition seed_walks `{ImUtils, PySet} (fuel : nat) (Ic : image)
  : option (list (gset Z)) :=
  mapM (λ bpi, isbp_walk_for_bps fuel (as_bool Ic) [bpi]) (bp_poss_i Ic).

(** [bpsolo]: the one pixel of every walk that ended with one
    branchpoint. *)
Definition solo_seeds `{PySet} (bpsave : list (gset Z)) : list Z :=
  set_pop <$> filter (λ b : gset Z, size b = 1) bpsave.

Definition isbp_parsimonious `{ImUtils, PySet} (fuel : nat) (Ic : image)
  (Icr Inar Infr : list Z) : option bps_value :=
  bpsave ← seed_walks fuel Ic;
  let bpcounts := size <$> bpsave in
  let bpsolo := solo_seeds bpsave in
  if decide (0 < length bpsolo) then solo_choice Inar Infr bpsolo
  else
    let bp_must := concat (keeps_of Icr Inar Infr <$> keepvals) in
    let keeps := keeps_of Icr Inar Infr (4, 4, 2)%Z in
    let bp_must :=
      if decide (length keeps = 2) then bp_must ++ take 1 keeps
      else bp_must in
    if decide (0 < length bp_must) then
      BpSet <$> isbp_walk_for_bps fuel (as_bool Ic) bp_must
    else
      match bpcounts with
      | [] => None
      | c :: cs =>
        let mincount := foldl Nat.min c cs in
        let minidcs :=
          omap (λ ic : nat * nat,
                  if decide (ic.2 = mincount) then Some ic.1 else None)
               (imap (λ i c, (i, c)) bpcounts) in
        match minidcs with
        | [i] => BpSet <$> bpsave !! i
        | _ =>
          let bp_init := stats_mode (concat (set_list <$> bpsave)) in
          BpSet <$> isbp_walk_for_bps fuel (as_bool Ic) bp_init
        end
      end.

(** [bp_must] of [isbp_parsimonious]: the pixels that show one of the
    triples of [keepvals], and the first of the two pixels that show
    (4, 4, 2) when there are exactly two. *)
Definition must_pixels (Icr Inar Infr : list Z) : list Z :=
  let bp_must := concat (keeps_of Icr Inar Infr <$> keepvals) in
  let keeps := keeps_of Icr Inar Infr (4, 4, 2)%Z in
  if decide (length keeps = 2) then bp_must ++ take 1 keeps else bp_must.

(** The value of a raveled image at a pixel (0 where there is none). *)
Definition val_at (a : list Z) (q : Z) : Z := default 0%Z (np_get a q).

(** [q] is a candidate of [l] with the highest value of [f]. *)
Definition tops (f : Z → Z) (l : list Z) (q : Z) : Prop :=
  q ∈ l ∧ ∀ q', q' ∈ l → (f q' ≤ f q)%Z.

(** [p] is the only pixel with the property [P]; several pixels have
    it. *)
Definition sole (P : Z → Prop) (p : Z) : Prop := P p ∧ ∀ q, P q → q = p.

Definition several (P : Z → Prop) : Prop := ∃ q q', P q ∧ P q' ∧ q ≠ q'.

(** [q] has the highest [nfour] among the candidates with the highest
    [naxes]. *)
Definition tops_within (nax four : Z → Z) (l : list Z) (q : Z) : Prop :=
  tops nax l q ∧ ∀ q', tops nax l q' → (four q' ≤ four q)%Z.

(** The choice in the words of the specification: the highest [naxes],
    then the highest [nfour] among those, then the smallest index. *)
Definition layered_choice (nax four : Z → Z) (l : list Z) (p : Z) : Prop :=
  tops_within nax four l p ∧ ∀ q, tops_within nax four l q → (p ≤ q)%Z.

(** ** [is_bp] *)

(** What the window loop leaves behind. *)
Record bp_window := mkWindow {
  w_I : image;
  w_Ic : image;
  w_Ilab : image;
  w_centidx : Z * Z;
  w_cent : Z;
  w_cpy : list Z;
  w_cpx : list Z;
  w_roffset : Z;
  w_coffset : Z
}.

(** [while big_enough == 0], entered with the window size [size].
    [w_cent] is [Ilab[centidx]]. [None]: [centidx] is outside the window,
    or the fuel ran out while the window was still growing. *)
Fixpoint is_bp_window `{ImUtils} (fuel : nat) (idx : Z) (Iskel : image)
  (size : Z * Z) : option bp_window :=
  match fuel with
  | O => None
  | S fuel' =>
    let centidx := (Z.quot (size.1 - 1) 2, Z.quot (size.2 - 1) 2) in
    let '(Iw, roffset, coffset) := get_array idx Iskel size in
    let Ic := im_connectivity Iw in
    let Ict :=
      im_zip (λ _ c, if decide (2 < c)%Z then 1 else 0)%Z Iw Ic in
    let Ilab := measure_label Ict in
    lc ← im_get Ilab centidx;
    let '(cpy, cpx) := where_eq Ilab lc in
    let grow0 := bool_decide (1%Z ∈ cpx ∨ (size.1 - 2)%Z ∈ cpx) in
    let size := if grow0 then (size.1 + 4, size.2)%Z else size in
    let grow1 := bool_decide (1%Z ∈ cpy ∨ (size.2 - 2)%Z ∈ cpy) in
    let size := if grow1 then (size.1, size.2 + 4)%Z else size in
    if grow0 || grow1 then is_bp_window fuel' idx Iskel size
    else Some (mkWindow Iw Ic Ilab centidx lc cpy cpx roffset coffset)
  end.

(** The connectivity image after the two masking assignments
    [Ic[(Ilab != Ilab[centidx]) & (Ic > 2)] = 1] and [Ic[I != 1] = 0]. *)
Definition clean_Ic (Ilab Ic Iblob : image) (lc : Z) : image :=
  let Ic1 :=
    im_zip (λ lab c, if decide (lab ≠ lc ∧ 2 < c)%Z then 1%Z else c) Ilab Ic in
  im_zip (λ i c, if decide (i ≠ 1%Z) then 0%Z else c) Iblob Ic1.

(** The window reduced to the component of the centre with its buffer of
    one pixel (the four slice assignments), and then to its largest
    blob. [None]: [np.min] or [np.max] of an empty array. *)
Definition crop_window `{ImUtils} (w : bp_window) : option image :=
  ymin ← list_min (w_cpy w);
  ymax ← list_max (w_cpy w);
  xmin ← list_min (w_cpx w);
  xmax ← list_max (w_cpx w);
  let I1 := zero_rows_before (ymin - 1) (w_I w) in
  let I2 := zero_rows_from (ymax + 2) I1 in
  let I3 := zero_cols_before (xmin - 1) I2 in
  let I4 := zero_cols_from (xmax + 2) I3 in
  Some (largest_blobs I4).

Definition is_bp `{ImUtils, PySet} (fuel : nat) (idx : Z) (Iskel : image)
  : option Z :=
  let neighs := get_neighbors idx Iskel in
  if decide (length neighs < 3) then Some 0%Z
  else
    w ← is_bp_window fuel idx Iskel (7, 7)%Z;
    Iblob ← crop_window w;
    let Ic := clean_Ic (w_Ilab w) (w_Ic w) Iblob (w_cent w) in
    if decide (count_gt2 Ic = 1) then Some 1%Z
    else
      Ina ← naxes_connectivity Iblob;
      let Inf := nfour_connectivity Iblob in
      bps ← isbp_parsimonious fuel Ic (ravel Ic) (ravel Ina) (ravel Inf);
      let bps :=
        reglobalize_flat_idx (bps_pixels bps) (shape Ic)
          (w_roffset w) (w_coffset w) (shape Iskel) in
      Some (if decide (idx ∈ bps) then 1 else 0)%Z.

(** ** [bp_cluster], [find_emanators], [cant_walk] *)

(** [bp] is one list that every nested call extends in place, so a call
    returns the list as it stands after all the calls nested in it; the
    caller goes on with that list. [wfuel] is the fuel given to each call
    of [is_bp], [fuel] bounds the depth of the recursion. [None]: no
    answer from [is_bp], an empty [bp], or the fuel ran out. *)
Fixpoint bp_cluster `{ImUtils, PySet} (wfuel fuel : nat) (bp : list Z)
  (Iskel : image) : option (list Z) :=
  match fuel with
  | O => None
  | S fuel' =>
    bp_neighs ← walkable_neighbors bp Iskel;
    foldlM (λ bp b,
              isbp ← is_bp wfuel b Iskel;
              if decide (isbp = 1%Z) then
                if decide (b ∈ bp) then Some bp
                else bp_cluster wfuel fuel' (bp ++ [b]) Iskel
              else Some bp)
           bp (pop_order bp_neighs)
  end.

(** [for bp in bps: acc = acc | set(walkable_neighbors([bp], Iskel))] *)
Definition add_emanators `{ImUtils} (Iskel : image) (acc : gset Z)
  (bps : list Z) : option (gset Z) :=
  foldlM (λ acc bp, wn ← walkable_neighbors [bp] Iskel; Some (acc ∪ wn))
         acc bps.

Definition find_emanators `{ImUtils, PySet} (wfuel fuel : nat) (bpnode : Z)
  (Iskel : image) : option (gset Z) :=
  branchpoints ← bp_cluster wfuel fuel [bpnode] Iskel;
  emanators ← add_emanators Iskel ∅ branchpoints;
  Some (emanators ∖ list_to_set branchpoints).

(** The body of the loop over [connlinks]; [origin] is
    [links['idx'][linkidx][0]]. *)
Definition cant_walk_step (links : Links) (origin : Z) (walked : gset Z)
  (cl : Z) : option (gset Z) :=
  chain ← link_chain links cl;
  first ← head chain;
  if decide (first = origin)
  then Some (walked ∪ list_to_set (but_last chain))
  else Some (walked ∪ list_to_set (but_first chain)).

Definition cant_walk `{ImUtils, PySet} (wfuel fuel : nat) (links : Links)
  (linkidx : nat) (nodes : Nodes) (Iskel : image) : option (gset Z) :=
  chain ← l_idx links !! linkidx;
  origin ← head chain;
  (* 1. Originating node and its adjacent nodes *)
  bps ← bp_cluster wfuel fuel [origin] Iskel;
  let walked : gset Z := list_to_set bps in
  (* 2. Emanating links *)
  walked ← add_emanators Iskel walked bps;
  (* 3. Links walking away from node *)
  nodeidx ← py_index origin (n_idx nodes);
  connlinks ← n_conn nodes !! nodeidx;
  foldlM (cant_walk_step links origin) walked connlinks.

(** What the link [cl] of the origin node adds to the exclusion set. *)
Definition adds (links : Links) (origin : Z) (cl : Z) (x : Z) : Prop :=
  ∃ ch, link_chain links cl = Some ch
    ∧ ((head ch = Some origin ∧ x ∈ but_last ch)
       ∨ (head ch ≠ Some origin ∧ x ∈ but_first ch)).

(** The exclusion set in the words of the specification: the cluster of
    the origin, the emanators of the cluster, and the pixel chains of the
    other links walked away from the origin node; a link that entered the
    node adds nothing. *)
Definition cant_walk_spec `{ImUtils, PySet} (wfuel fuel : nat)
  (links : Links) (linkidx : nat) (nodes : Nodes) (Iskel : image)
  : option (gset Z) :=
  chain ← l_idx links !! linkidx;
  linkid ← l_id links !! linkidx;
  origin ← head chain;
  bps ← bp_cluster wfuel fuel [origin] Iskel;
  walked ← add_emanators Iskel (list_to_set bps) bps;
  nodeidx ← py_index origin (n_idx nodes);
  connlinks ← n_conn nodes !! nodeidx;
  foldlM (λ walked cl,
            ch ← link_chain links cl;
            if decide (cl ≠ linkid ∧ head ch = Some origin)
            then Some (walked ∪ list_to_set ch) else Some walked)
         walked connlinks.

(** ** The collaborators [node_updater] and [link_updater] *)

(** Modelled from the spec: [lnu.node_updater], whose code is not among
    the sources. "[update_node(nodes, pixelIdx, linkId)] ensures a node
    exists at [pixelIdx], adds [linkId] to its connectivity list, returns
    updated structure"; a second call with the same arguments "must not
    duplicate entries in a node's connectivity list". *)
Definition node_updater (nodes : Nodes) (idx : Z) (linkid : Z) : Nodes :=
  match py_index idx (n_idx nodes) with
  | Some i =>
    mkNodes (n_idx nodes)
            (alter (λ c, if decide (linkid ∈ c) then c else c ++ [linkid])
                   i (n_conn nodes))
  | None => mkNodes (n_idx nodes ++ [idx]) (n_conn nodes ++ [[linkid]])
  end.

(** Modelled from the spec: [lnu.link_updater], whose code is not among
    the sources. "[update_link(links, linkId, pixelsOrNone, nodeIdx)]
    either appends a starting pixel chain and partial connection, or
    finalizes the second connection once both chain ends are known"; a
    second call with the same arguments "must not duplicate entries in a
    link's pixel chain". [idx = None] is the call without pixels. *)
Definition link_updater (links : Links) (linkid : Z)
  (idx : option (list Z)) (conn : nat) : Links :=
  let pixels := default [] idx in
  match py_index linkid (l_id links) with
  | Some i =>
    mkLinks (l_id links)
            (alter (λ ch, if decide (pixels `suffix_of` ch) then ch
                          else ch ++ pixels) i (l_idx links))
            (alter (λ c, c ++ [conn]) i (l_conn links))
  | None =>
    mkLinks (l_id links ++ [linkid]) (l_idx links ++ [pixels])
            (l_conn links ++ [[conn]])
  end.

(** ** [handle_bp] *)

(** The step from [b] to [e] goes along a row or a column of a raster of
    [ncols] columns; it goes along a diagonal. These are the two tests of
    [handle_bp] on [abs(b - emanators)]. *)
Definition four_step (ncols b e : Z) : Prop :=
  Z.abs (b - e) ∈ [1; ncols]%Z.

Definition diag_step (ncols b e : Z) : Prop :=
  Z.abs (b - e) ∈ [ncols + 1; ncols - 1]%Z.

(** The pairs [[b, e]] of a branchpoint of [bp] and a pixel of [emanators]
    whose flat indices differ by one of [offs], in the order of the two
    nested loops. *)
Definition conn_pairs (offs : list Z) (bp emanators : list Z)
  : list (Z * Z) :=
  b ← bp;
  e ← emanators;
  if decide (Z.abs (b - e) ∈ offs) then [(b, e)] else [].

(** The loop [for dl in donelinks] that sets [isdone]. *)
Definition pair_done (links : Links) (donelinks : list Z) (p : Z * Z)
  : option bool :=
  foldlM (λ isdone dl,
            ch ← link_chain links dl;
            Some (if decide (same_pixels (last_two ch) [p.1; p.2])
                  then true else isdone))
         false donelinks.

(** The body of the loops over [fourconn] and over [diagconn]: a new
    pending link from [p.1] with the first step to [p.2], unless a link
    of the node already ends with that pair. *)
Definition issue_link (st : Links * Nodes * Pending) (p : Z * Z)
  : option (Links * Nodes * Pending) :=
  let '(links, nodes, links2do) := st in
  nodeidx ← py_index p.1 (n_idx nodes);
  donelinks ← n_conn nodes !! nodeidx;
  isdone ← pair_done links donelinks p;
  if isdone : bool then Some st
  else
    top ← list_max (l_id links);
    let linkid := (top + 1)%Z in
    let links2do := pending_add linkid links2do in
    let nodes := node_updater nodes p.1 linkid in
    k ← py_index p.1 (n_idx nodes);
    let links := link_updater links linkid (Some [p.1; p.2]) k in
    Some (links, nodes, links2do).

(** The body of the loop over [bp_pairs]: a resolved link between two
    adjacent branchpoints. It is not added to [links2do]. *)
Definition join_pair (st : Links * Nodes) (b : list Z)
  : option (Links * Nodes) :=
  let '(links, nodes) := st in
  top ← list_max (l_id links);
  let linkid := (top + 1)%Z in
  b0 ← b !! 0;
  b1 ← b !! 1;
  let nodes := node_updater nodes b0 linkid in
  let nodes := node_updater nodes b1 linkid in
  k0 ← py_index b0 (n_idx nodes);
  let links := link_updater links linkid (Some b) k0 in
  k1 ← py_index b1 (n_idx nodes);
  let links := link_updater links linkid None k1 in
  Some (links, nodes).

(** The pairs of adjacent branchpoints of the cluster, each once:
    [[list(i) for i in set(tuple(i) for i in bp_pairs)]]. *)
Definition adjacent_pairs `{ImUtils, PySet} (bp : list Z) (Iskel : image)
  : option (list (list Z)) :=
  bp_pairs ← foldlM (λ acc b,
                       bn ← walkable_neighbors [b] Iskel;
                       Some (acc ++ ((λ bb, tuple_of [b; bb]) <$>
                                       filter (λ bb, bb ∈ bn) bp)))
                    [] bp;
  Some (set_list (list_to_set bp_pairs : gset (list Z))).

Definition handle_bp `{ImUtils, PySet} (wfuel fuel : nat) (linkid : Z)
  (bpnode : Z) (nodes : Nodes) (links : Links) (links2do : Pending)
  (Iskel : image) : option (Links * Nodes * Pending) :=
  (* [links2do.remove(linkid)] raises when [linkid] is not pending *)
  links2do ← py_remove linkid links2do;
  let doneflag := bool_decide (bpnode ∈ n_idx nodes) in
  linkidx ← py_index linkid (l_id links);
  let nodes := node_updater nodes bpnode linkid in
  k ← py_index bpnode (n_idx nodes);
  let links := link_updater links linkid None k in
  if doneflag then Some (links, nodes, links2do)
  else
    bp ← bp_cluster wfuel fuel [bpnode] Iskel;
    em ← find_emanators wfuel fuel bpnode Iskel;
    chain ← l_idx links !! linkidx;
    let emanators :=
      set_list (em ∖ list_to_set bp ∖ list_to_set chain) in
    let ncols := (shape Iskel).2 in
    let fourconn := conn_pairs [1; ncols]%Z bp emanators in
    let emremove := fourconn.*2 in
    let emanators := filter (λ e, e ∉ emremove) emanators in
    let diagconn := conn_pairs [ncols + 1; ncols - 1]%Z bp emanators in
    bp_pairs ← adjacent_pairs bp Iskel;
    ln ← foldlM join_pair (links, nodes) bp_pairs;
    (* Initialize the fourconn first so they will be walked first *)
    st ← foldlM issue_link (ln.1, ln.2, links2do) fourconn;
    (* Then initialize the diagonals *)
    foldlM issue_link st diagconn.

(** ** A raster to run the functions on *)

(** The examples below need the imported functions on a concrete raster.
    The definitions of this part stand in for them there; no theorem
    about [walk.py] depends on them. *)

(** The pixel at row [r], column [c]; off outside the raster. *)
Definition px (Im : image) (r c : Z) : Z :=
  default 0%Z (im_get Im (r, c)).

(** The eight steps to a neighbour, in the order of increasing flat
    index, and the four of them along the rows and columns. *)
Definition steps8 : list (Z * Z) :=
  [(-1, -1); (-1, 0); (-1, 1); (0, -1); (0, 1); (1, -1); (1, 0); (1, 1)]%Z.

Definition steps4 : list (Z * Z) := [(-1, 0); (0, -1); (0, 1); (1, 0)]%Z.

(** The on-pixels of a raster of [ncols] columns among the neighbours of
    the pixel at [(r, c)], as (row, column). *)
Definition on_neighbors (steps : list (Z * Z)) (Im : image) (r c : Z)
  : list (Z * Z) :=
  filter (λ rc, px Im rc.1 rc.2 ≠ 0%Z)
         ((λ d : Z * Z, (r + d.1, c + d.2)%Z) <$> steps).

(** [f] at every pixel, with its row and column. *)
Definition im_imap (f : Z → Z → Z → Z) (Im : image) : image :=
  imap (λ r row, imap (λ c v, f (Z.of_nat r) (Z.of_nat c) v) row) Im.

(** Modelled from the spec: [iu.get_array], the window of the given odd
    size centred at the flat index [idx], with the row and the column of
    its upper-left corner. The raster is read as off outside its bounds:
    the spec leaves the padding at the borders to the caller. *)
Definition simple_get_array (idx : Z) (Im : image) (size : Z * Z)
  : image * Z * Z :=
  let ncols := (shape Im).2 in
  let r0 := (idx `div` ncols - (size.1 - 1) `div` 2)%Z in
  let c0 := (idx `mod` ncols - (size.2 - 1) `div` 2)%Z in
  ((λ r, (λ c, px Im (r0 + r) (c0 + c)) <$> seqZ 0 size.2) <$> seqZ 0 size.1,
   r0, c0).

(** Modelled from the spec: [iu.neighbors_flat], "the on-pixels among
    the 8 surrounding cells" of a flat index in a raveled raster of
    [ncols] columns. *)
Definition simple_neighbors_flat (idx : Z) (Ir : list Z) (ncols : Z)
  : list Z :=
  let r := (idx `div` ncols)%Z in
  let c := (idx `mod` ncols)%Z in
  omap (λ d : Z * Z,
          let r' := (r + d.1)%Z in
          let c' := (c + d.2)%Z in
          if decide (0 ≤ r' ∧ 0 ≤ c' < ncols)%Z then
            match Ir !! Z.to_nat (r' * ncols + c') with
            | Some v => if decide (v = 0%Z) then None
                        else Some (r' * ncols + c')%Z
            | None => None
            end
          else None) steps8.

(** Modelled from the spec: [iu.reglobalize_flat_idx], from flat indices
    in a window to flat indices in the raster. *)
Definition simple_reglobalize (idcs : list Z) (shape_sm : Z * Z)
  (row_offset col_offset : Z) (shape_global : Z * Z) : list Z :=
  (λ i, (i `div` shape_sm.2 + row_offset) * shape_global.2
        + (i `mod` shape_sm.2 + col_offset))%Z <$> idcs.

(** Modelled from the spec: [iu.im_connectivity], the "raw 8-neighbor
    count" of every on-pixel. *)
Definition simple_im_connectivity (Im : image) : image :=
  im_imap (λ r c v, if decide (v = 0%Z) then 0%Z
                    else Z.of_nat (length (on_neighbors steps8 Im r c))) Im.

(** Modelled from the spec: [iu.nfour_connectivity], the "4-connected-
    neighbor count" of every on-pixel. *)
Definition simple_nfour_connectivity (Im : image) : image :=
  im_imap (λ r c v, if decide (v = 0%Z) then 0%Z
                    else Z.of_nat (length (on_neighbors steps4 Im r c))) Im.

(** One round of spreading the smallest label over neighbouring
    on-pixels. *)
Definition spread (steps : list (Z * Z)) (L : image) : image :=
  im_imap (λ r c v, if decide (v = 0%Z) then 0%Z
                    else foldl Z.min v
                           ((λ rc, px L rc.1 rc.2) <$> on_neighbors steps L r c))
          L.

(** The connected components of the on-pixels: every on-pixel is
    labelled with 1 + the smallest flat index of its component. *)
Definition components (steps : list (Z * Z)) (Im : image) : image :=
  let ncols := (shape Im).2 in
  let L0 := im_imap (λ r c v, if decide (v = 0%Z) then 0 else r * ncols + c + 1)%Z Im in
  Nat.iter (length (ravel Im)) (spread steps) L0.

(** The labels in use, in increasing order. *)
Definition labels_of (L : image) : list Z :=
  filter (λ v, v ∈ ravel L) (seqZ 1 (Z.of_nat (length (ravel L)))).

(** Modelled from the spec: [measure.label] with [connectivity=1], the
    4-connected components numbered from 1 in raster order. *)
Definition simple_label (Im : image) : image :=
  let L := components steps4 Im in
  let ls := labels_of L in
  im_imap (λ _ _ v, match py_index v ls with
                    | Some k => Z.of_nat (S k)
                    | None => 0%Z
                    end) L.

(** Modelled from the spec: [iu.largest_blobs(I, 1, 'keep')], "keep only
    the largest connected blob". *)
Definition simple_largest_blobs (Im : image) : image :=
  let L := components steps8 Im in
  let sized := (λ l, (Z.of_nat (length (filter (λ v, v = l) (ravel L))), l))
                 <$> labels_of L in
  match sized with
  | [] => im_imap (λ _ _ _, 0%Z) Im
  | s :: rest =>
    let best := foldl (λ b x : Z * Z, if decide (b.1 < x.1)%Z then x else b)
                      s rest in
    im_imap (λ _ _ v, if decide (v = best.2) then 1%Z else 0%Z) L
  end.

(** Modelled from the spec: [iu.edge_coords], the flat indices of the
    pixels on the border of a raster of the given shape. *)
Definition simple_edge_coords (sh : Z * Z) : gset Z :=
  list_to_set
    (filter (λ i, i `div` sh.2 = 0 ∨ i `div` sh.2 = sh.1 - 1
                  ∨ i `mod` sh.2 = 0 ∨ i `mod` sh.2 = sh.2 - 1)%Z
            (seqZ 0 (sh.1 * sh.2))).

(** Modelled from the spec: [iu.four_conn], the 4-connected on-pixels
    around a flat index, as flat indices. *)
Definition simple_four_conn (idx : Z) (Im : image) : list Z :=
  let ncols := (shape Im).2 in
  (λ rc : Z * Z, rc.1 * ncols + rc.2)%Z
    <$> on_neighbors steps4 Im (idx `div` ncols) (idx `mod` ncols).

(** Modelled from the spec: [stats.mode], "the most frequently recurring
    pixel"; the smallest one of several. *)
Definition simple_mode (l : list Z) : list Z :=
  match l with
  | [] => []
  | x :: xs =>
    [foldl (λ b y, if decide (occ b l < occ y l
                              ∨ (occ b l = occ y l ∧ (y < b)%Z))
                   then y else b) x xs]
  end.

#[global] Instance simple_im : ImUtils := {|
  get_array := simple_get_array;
  neighbors_flat := simple_neighbors_flat;
  reglobalize_flat_idx := simple_reglobalize;
  im_connectivity := simple_im_connectivity;
  nfour_connectivity := simple_nfour_connectivity;
  largest_blobs := simple_largest_blobs;
  edge_coords := simple_edge_coords;
  four_conn := simple_four_conn;
  measure_label := simple_label;
  stats_mode := simple_mode
|}.

(** Python sets served in the order of [elements]. *)
Definition first_elem (s : gset Z) : Z := default 0%Z (head (elements s)).

Lemma first_elem_elem (s : gset Z) : s ≠ ∅ → first_elem s ∈ s.
Proof.
  intros Hs. unfold first_elem.
  destruct (elements s) as [|x l] eqn:He.
  - by apply elements_empty_inv, leibniz_equiv in He.
  - simpl. apply elem_of_elements. rewrite He. left.
Qed.

#[global] Instance elements_order : PySet := {|
  set_list := λ A _ _ s, elements s;
  set_pop := first_elem;
  tuple_of := remove_dups;
  set_list_perm := λ A _ _ s, reflexivity (elements s);
  tuple_of_perm := λ l, reflexivity (remove_dups l);
  set_pop_elem := first_elem_elem
|}.

(** ** A raster with one junction *)

(** Three arms meet at the pixel 40 = (4, 4) of a raster of 9 columns:
    one to the left along the row, one up to the right and one down to
    the right along the diagonals. *)
Definition Y_raster : image :=
  [[0; 0; 0; 0; 0; 0; 0; 0; 0];
   [0; 0; 0; 0; 0; 0; 0; 1; 0];
   [0; 0; 0; 0; 0; 0; 1; 0; 0];
   [0; 0; 0; 0; 0; 1; 0; 0; 0];
   [0; 1; 1; 1; 1; 0; 0; 0; 0];
   [0; 0; 0; 0; 0; 1; 0; 0; 0];
   [0; 0; 0; 0; 0; 0; 1; 0; 0];
   [0; 0; 0; 0; 0; 0; 0; 1; 0];
   [0; 0; 0; 0; 0; 0; 0; 0; 0]]%Z.

(** The window of 7 by 7 pixels around the junction, cropped as [is_bp]
    crops it, and its images of connectivity, of axes and of
    four-connectivity. *)
Definition Y_blob : image :=
  [[0; 0; 0; 0; 0; 0; 0]; [0; 0; 0; 0; 0; 0; 0]; [0; 0; 0; 0; 1; 0; 0];
   [0; 0; 1; 1; 0; 0; 0]; [0; 0; 0; 0; 1; 0; 0]; [0; 0; 0; 0; 0; 0; 0];
   [0; 0; 0; 0; 0; 0; 0]]%Z.

Definition Y_Ic : image :=
  [[0; 0; 0; 0; 0; 0; 0]; [0; 0; 0; 0; 0; 0; 0]; [0; 0; 0; 0; 2; 0; 0];
   [0; 0; 2; 3; 0; 0; 0]; [0; 0; 0; 0; 2; 0; 0]; [0; 0; 0; 0; 0; 0; 0];
   [0; 0; 0; 0; 0; 0; 0]]%Z.

Definition Y_Ina : image :=
  [[0; 0; 0; 0; 0; 0; 0]; [0; 0; 0; 0; 0; 0; 0]; [0; 0; 0; 0; 1; 0; 0];
   [0; 0; 1; 3; 0; 0; 0]; [0; 0; 0; 0; 1; 0; 0]; [0; 0; 0; 0; 0; 0; 0];
   [0; 0; 0; 0; 0; 0; 0]]%Z.

Definition Y_Inf : image :=
  [[0; 0; 0; 0; 0; 0; 0]; [0; 0; 0; 0; 0; 0; 0]; [0; 0; 0; 0; 0; 0; 0];
   [0; 0; 1; 1; 0; 0; 0]; [0; 0; 0; 0; 0; 0; 0]; [0; 0; 0; 0; 0; 0; 0];
   [0; 0; 0; 0; 0; 0; 0]]%Z.

(** A raster with two junctions, 43 = (3, 4) and 47 = (3, 8), joined
    along the row 3; their other arms leave along the diagonals. With it
    its images of connectivity, of axes and of four-connectivity, and
    the image of connectivity where only the junction 43 counts as one
    (what [is_bp] makes of it for the pixel 43). *)
Definition two_forks : image :=
  [[0; 0; 0; 0; 0; 0; 0; 0; 0; 0; 0; 0; 0];
   [0; 0; 1; 0; 0; 0; 0; 0; 0; 0; 1; 0; 0];
   [0; 0; 0; 1; 0; 0; 0; 0; 0; 1; 0; 0; 0];
   [0; 0; 0; 0; 1; 1; 1; 1; 1; 0; 0; 0; 0];
   [0; 0; 0; 1; 0; 0; 0; 0; 0; 1; 0; 0; 0];
   [0; 0; 1; 0; 0; 0; 0; 0; 0; 0; 1; 0; 0];
   [0; 0; 0; 0; 0; 0; 0; 0; 0; 0; 0; 0; 0]]%Z.

Definition two_forks_Ic : image :=
  [[0; 0; 0; 0; 0; 0; 0; 0; 0; 0; 0; 0; 0];
   [0; 0; 1; 0; 0; 0; 0; 0; 0; 0; 1; 0; 0];
   [0; 0; 0; 2; 0; 0; 0; 0; 0; 2; 0; 0; 0];
   [0; 0; 0; 0; 3; 2; 2; 2; 3; 0; 0; 0; 0];
   [0; 0; 0; 2; 0; 0; 0; 0; 0; 2; 0; 0; 0];
   [0; 0; 1; 0; 0; 0; 0; 0; 0; 0; 1; 0; 0];
   [0; 0; 0; 0; 0; 0; 0; 0; 0; 0; 0; 0; 0]]%Z.

Definition two_forks_Ina : image :=
  [[0; 0; 0; 0; 0; 0; 0; 0; 0; 0; 0; 0; 0];
   [0; 0; 1; 0; 0; 0; 0; 0; 0; 0; 1; 0; 0];
   [0; 0; 0; 1; 0; 0; 0; 0; 0; 1; 0; 0; 0];
   [0; 0; 0; 0; 3; 1; 1; 1; 3; 0; 0; 0; 0];
   [0; 0; 0; 1; 0; 0; 0; 0; 0; 1; 0; 0; 0];
   [0; 0; 1; 0; 0; 0; 0; 0; 0; 0; 1; 0; 0];
   [0; 0; 0; 0; 0; 0; 0; 0; 0; 0; 0; 0; 0]]%Z.

Definition two_forks_Inf : image :=
  [[0; 0; 0; 0; 0; 0; 0; 0; 0; 0; 0; 0; 0];
   [0; 0; 0; 0; 0; 0; 0; 0; 0; 0; 0; 0; 0];
   [0; 0; 0; 0; 0; 0; 0; 0; 0; 0; 0; 0; 0];
   [0; 0; 0; 0; 1; 2; 2; 2; 1; 0; 0; 0; 0];
   [0; 0; 0; 0; 0; 0; 0; 0; 0; 0; 0; 0; 0];
   [0; 0; 0; 0; 0; 0; 0; 0; 0; 0; 0; 0; 0];
   [0; 0; 0; 0; 0; 0; 0; 0; 0; 0; 0; 0; 0]]%Z.

Definition one_fork_Ic : image :=
  [[0; 0; 0; 0; 0; 0; 0; 0; 0; 0; 0; 0; 0];
   [0; 0; 1; 0; 0; 0; 0; 0; 0; 0; 1; 0; 0];
   [0; 0; 0; 2; 0; 0; 0; 0; 0; 2; 0; 0; 0];
   [0; 0; 0; 0; 3; 2; 2; 2; 1; 0; 0; 0; 0];
   [0; 0; 0; 2; 0; 0; 0; 0; 0; 2; 0; 0; 0];
   [0; 0; 1; 0; 0; 0; 0; 0; 0; 0; 1; 0; 0];
   [0; 0; 0; 0; 0; 0; 0; 0; 0; 0; 0; 0; 0]]%Z.

(** A raster with two branchpoints next to each other, 24 = (3, 3) and
    31 = (4, 3): two arms leave each of them along the diagonals. *)
Definition twin_forks : image :=
  [[0; 0; 0; 0; 0; 0; 0];
   [0; 1; 0; 0; 0; 1; 0];
   [0; 0; 1; 0; 1; 0; 0];
   [0; 0; 0; 1; 0; 0; 0];
   [0; 0; 0; 1; 0; 0; 0];
   [0; 0; 1; 0; 1; 0; 0];
   [0; 1; 0; 0; 0; 1; 0];
   [0; 0; 0; 0; 0; 0; 0]]%Z.

(** [Y_raster] with a second junction: the upper arm forks at the pixel
    32 = (3, 5), which touches the junction 40 = (4, 4) along a diagonal.
    Both pixels have three neighbours; they are not four-connected, so
    they carry two labels. *)
Definition fork_raster : image :=
  [[0; 0; 0; 0; 0; 0; 0; 0; 0];
   [0; 0; 0; 1; 0; 0; 0; 1; 0];
   [0; 0; 0; 0; 1; 0; 1; 0; 0];
   [0; 0; 0; 0; 0; 1; 0; 0; 0];
   [0; 1; 1; 1; 1; 0; 0; 0; 0];
   [0; 0; 0; 0; 0; 1; 0; 0; 0];
   [0; 0; 0; 0; 0; 0; 1; 0; 0];
   [0; 0; 0; 0; 0; 0; 0; 1; 0];
   [0; 0; 0; 0; 0; 0; 0; 0; 0]]%Z.

(** The window of 7 by 7 pixels that [is_bp] cuts around the pixel 40 of
    [fork_raster], with the connectivity of its pixels, the labels of the
    pixels of connectivity above 2, what the window loop leaves behind,
    and the blob the window is cropped to. *)
Definition fork_Iw : image :=
  [[0; 0; 1; 0; 0; 0; 1]; [0; 0; 0; 1; 0; 1; 0]; [0; 0; 0; 0; 1; 0; 0];
   [1; 1; 1; 1; 0; 0; 0]; [0; 0; 0; 0; 1; 0; 0]; [0; 0; 0; 0; 0; 1; 0];
   [0; 0; 0; 0; 0; 0; 1]]%Z.

Definition fork_conn : image :=
  [[0; 0; 1; 0; 0; 0; 1]; [0; 0; 0; 2; 0; 2; 0]; [0; 0; 0; 0; 3; 0; 0];
   [1; 2; 2; 3; 0; 0; 0]; [0; 0; 0; 0; 2; 0; 0]; [0; 0; 0; 0; 0; 2; 0];
   [0; 0; 0; 0; 0; 0; 1]]%Z.

Definition fork_Ilab : image :=
  [[0; 0; 0; 0; 0; 0; 0]; [0; 0; 0; 0; 0; 0; 0]; [0; 0; 0; 0; 1; 0; 0];
   [0; 0; 0; 2; 0; 0; 0]; [0; 0; 0; 0; 0; 0; 0]; [0; 0; 0; 0; 0; 0; 0];
   [0; 0; 0; 0; 0; 0; 0]]%Z.

Definition fork_window : bp_window :=
  mkWindow fork_Iw fork_conn fork_Ilab (3, 3)%Z 2 [3%Z] [3%Z] 1 1.

Definition fork_blob : image :=
  [[0; 0; 0; 0; 0; 0; 0]; [0; 0; 0; 0; 0; 0; 0]; [0; 0; 0; 0; 1; 0; 0];
   [0; 0; 1; 1; 0; 0; 0]; [0; 0; 0; 0; 1; 0; 0]; [0; 0; 0; 0; 0; 0; 0];
   [0; 0; 0; 0; 0; 0; 0]]%Z.

(** The on-pixels of [twin_forks]. *)
Definition twin_pixels : gset Z :=
  list_to_set [8; 12; 16; 18; 24; 31; 37; 39; 43; 47]%Z.

(** A window of 7 by 7 pixels where a row and a column cross at the pixel
    24 = (3, 3), with its images of connectivity, of axes and of
    four-connectivity. The crossing and the four pixels next to it have
    connectivity 4; the crossing lies on 2 axes and has 4 four-connected
    neighbours, each of the four others lies on 3 axes and has 2. *)
Definition plus_cross : image :=
  [[0; 0; 0; 0; 0; 0; 0];
   [0; 0; 0; 1; 0; 0; 0];
   [0; 0; 0; 1; 0; 0; 0];
   [0; 1; 1; 1; 1; 1; 0];
   [0; 0; 0; 1; 0; 0; 0];
   [0; 0; 0; 1; 0; 0; 0];
   [0; 0; 0; 0; 0; 0; 0]]%Z.

Definition plus_Ic : image :=
  [[0; 0; 0; 0; 0; 0; 0];
   [0; 0; 0; 1; 0; 0; 0];
   [0; 0; 0; 4; 0; 0; 0];
   [0; 1; 4; 4; 4; 1; 0];
   [0; 0; 0; 4; 0; 0; 0];
   [0; 0; 0; 1; 0; 0; 0];
   [0; 0; 0; 0; 0; 0; 0]]%Z.

Definition plus_Ina : image :=
  [[0; 0; 0; 0; 0; 0; 0];
   [0; 0; 0; 1; 0; 0; 0];
   [0; 0; 0; 3; 0; 0; 0];
   [0; 1; 3; 2; 3; 1; 0];
   [0; 0; 0; 3; 0; 0; 0];
   [0; 0; 0; 1; 0; 0; 0];
   [0; 0; 0; 0; 0; 0; 0]]%Z.

Definition plus_Inf : image :=
  [[0; 0; 0; 0; 0; 0; 0];
   [0; 0; 0; 1; 0; 0; 0];
   [0; 0; 0; 2; 0; 0; 0];
   [0; 1; 2; 4; 2; 1; 0];
   [0; 0; 0; 2; 0; 0; 0];
   [0; 0; 0; 1; 0; 0; 0];
   [0; 0; 0; 0; 0; 0; 0]]%Z.

(** A raster where a row carries two groups of over-connected pixels:
    around 55 = (4, 3), where a column leaves the row downwards, and
    around 61 = (4, 9), where a column leaves it downwards one pixel to
    the left and an arm leaves it upwards one pixel to the right. With it
    its images of connectivity, of axes and of four-connectivity. *)
Definition bar_forks : image :=
  [[0; 0; 0; 0; 0; 0; 0; 0; 0; 0; 0; 0; 0];
   [0; 0; 0; 0; 0; 0; 0; 0; 0; 0; 0; 0; 0];
   [0; 0; 0; 0; 0; 0; 0; 0; 0; 0; 0; 1; 0];
   [0; 0; 0; 0; 0; 0; 0; 0; 0; 0; 1; 0; 0];
   [0; 1; 1; 1; 1; 1; 1; 1; 1; 1; 1; 1; 0];
   [0; 0; 0; 1; 0; 0; 0; 0; 1; 0; 0; 0; 0];
   [0; 0; 0; 1; 0; 0; 0; 0; 1; 0; 0; 0; 0];
   [0; 0; 0; 1; 0; 0; 0; 0; 1; 0; 0; 0; 0];
   [0; 0; 0; 0; 0; 0; 0; 0; 0; 0; 0; 0; 0]]%Z.

Definition bar_forks_Ic : image :=
  [[0; 0; 0; 0; 0; 0; 0; 0; 0; 0; 0; 0; 0];
   [0; 0; 0; 0; 0; 0; 0; 0; 0; 0; 0; 0; 0];
   [0; 0; 0; 0; 0; 0; 0; 0; 0; 0; 0; 1; 0];
   [0; 0; 0; 0; 0; 0; 0; 0; 0; 0; 4; 0; 0];
   [0; 1; 3; 3; 3; 2; 2; 3; 3; 4; 3; 2; 0];
   [0; 0; 0; 4; 0; 0; 0; 0; 4; 0; 0; 0; 0];
   [0; 0; 0; 2; 0; 0; 0; 0; 2; 0; 0; 0; 0];
   [0; 0; 0; 1; 0; 0; 0; 0; 1; 0; 0; 0; 0];
   [0; 0; 0; 0; 0; 0; 0; 0; 0; 0; 0; 0; 0]]%Z.

Definition bar_forks_Ina : image :=
  [[0; 0; 0; 0; 0; 0; 0; 0; 0; 0; 0; 0; 0];
   [0; 0; 0; 0; 0; 0; 0; 0; 0; 0; 0; 0; 0];
   [0; 0; 0; 0; 0; 0; 0; 0; 0; 0; 0; 1; 0];
   [0; 0; 0; 0; 0; 0; 0; 0; 0; 0; 3; 0; 0];
   [0; 1; 2; 2; 2; 1; 1; 2; 2; 2; 2; 2; 0];
   [0; 0; 0; 3; 0; 0; 0; 0; 3; 0; 0; 0; 0];
   [0; 0; 0; 1; 0; 0; 0; 0; 1; 0; 0; 0; 0];
   [0; 0; 0; 1; 0; 0; 0; 0; 1; 0; 0; 0; 0];
   [0; 0; 0; 0; 0; 0; 0; 0; 0; 0; 0; 0; 0]]%Z.

Definition bar_forks_Inf : image :=
  [[0; 0; 0; 0; 0; 0; 0; 0; 0; 0; 0; 0; 0];
   [0; 0; 0; 0; 0; 0; 0; 0; 0; 0; 0; 0; 0];
   [0; 0; 0; 0; 0; 0; 0; 0; 0; 0; 0; 0; 0];
   [0; 0; 0; 0; 0; 0; 0; 0; 0; 0; 1; 0; 0];
   [0; 1; 2; 3; 2; 2; 2; 2; 3; 2; 3; 1; 0];
   [0; 0; 0; 2; 0; 0; 0; 0; 2; 0; 0; 0; 0];
   [0; 0; 0; 2; 0; 0; 0; 0; 2; 0; 0; 0; 0];
   [0; 0; 0; 1; 0; 0; 0; 0; 1; 0; 0; 0; 0];
   [0; 0; 0; 0; 0; 0; 0; 0; 0; 0; 0; 0; 0]]%Z.

(** The graph when the link 0, walked from the end 16 = (1, 7) of the
    upper arm, has reached the junction. *)
Definition Y_links0 : Links := mkLinks [0%Z] [[16; 24; 32; 40]%Z] [[0]].

Definition Y_nodes0 : Nodes := mkNodes [16%Z] [[0%Z]].

(** The graph after [handle_bp] at the junction: the link 1 leaves it to
    the left and the link 2 down to the right. *)
Definition Y_links : Links :=
  mkLinks [0; 1; 2]%Z [[16; 24; 32; 40]; [40; 39]; [40; 50]]%Z
          [[0; 1]; [1]; [1]].

Definition Y_nodes : Nodes := mkNodes [16; 40]%Z [[0]; [0; 1; 2]]%Z.

(** The link 0 of the raster with one junction, and the link 1 that walks
    the same pixels from the junction back to the end of the arm. *)
Definition twin_links : Links :=
  mkLinks [0; 1]%Z [[16; 24; 32; 40]; [40; 32; 24; 16]]%Z [[0; 1]; [1; 0]].

Definition twin_nodes : Nodes := mkNodes [16; 40]%Z [[0; 1]; [0; 1]]%Z.

(** * Properties *)

Set Warnings "-clear-no-such-hyp".

(** ** Python lists and [delete_link] *)
Section PyListFacts.
Context {A : Type} `{EqDecision A}.
Implicit Types (x y : A) (l : list A).

Lemma py_index_Some x l i :
  py_index x l = Some i → l !! i = Some x ∧ x ∉ take i l.
Proof.
  revert i. induction l as [|y l IH]; intros i; simpl; [done|].
  case_decide as Hxy.
  - intros [= <-]. subst. split; [done|]. simpl. apply not_elem_of_nil.
  - destruct (py_index x l) as [j|] eqn:Hj; [|done]. simpl. intros [= <-].
    destruct (IH j eq_refl) as [Hl Hn]. split; [done|]. simpl.
    rewrite elem_of_cons. naive_solver.
Qed.

Lemma py_index_is_Some x l : x ∈ l → is_Some (py_index x l).
Proof.
  induction l as [|y l IH]; [by intros ?%elem_of_nil|].
  intros Hin. simpl. case_decide; [by eexists|].
  apply elem_of_cons in Hin as [|Hin]; [done|].
  destruct (IH Hin) as [j ->]. by eexists.
Qed.

Lemma py_index_None x l : py_index x l = None → x ∉ l.
Proof.
  intros Hn Hin. apply py_index_is_Some in Hin as [? ?]. congruence.
Qed.

Lemma py_index_elem_of x l i : py_index x l = Some i → x ∈ l.
Proof. intros [H _]%py_index_Some. by eapply list_elem_of_lookup_2. Qed.

Lemma py_index_lt x l i : py_index x l = Some i → i < length l.
Proof. intros [H _]%py_index_Some. by eapply lookup_lt_Some. Qed.

(** [l.remove(x)] drops the entry at [l.index(x)]. *)
Lemma py_remove_index x l :
  py_remove x l = (λ i, delete i l) <$> py_index x l.
Proof.
  induction l as [|y l IH]; simpl; [done|].
  case_decide; [done|]. rewrite IH. by destruct (py_index x l).
Qed.

Lemma py_remove_Some x l l' :
  py_remove x l = Some l' →
  filter (λ y, y ≠ x) l' = filter (λ y, y ≠ x) l ∧ S (occ x l') = occ x l
  ∧ S (length l') = length l.
Proof.
  unfold occ. revert l'. induction l as [|y l IH]; intros l'; simpl; [done|].
  case_decide as Hxy.
  - intros [= ->]. subst y. rewrite filter_cons_False by naive_solver.
    rewrite filter_cons_True by done. done.
  - destruct (py_remove x l) as [l1|]; [|done]. simpl. intros [= <-].
    destruct (IH l1 eq_refl) as (IH1 & IH2 & IH3).
    rewrite !(filter_cons_True (λ y, y ≠ x)) by naive_solver.
    rewrite !(filter_cons_False (λ y, y = x)) by naive_solver.
    simpl. by rewrite IH1, IH3.
Qed.

Lemma py_remove_is_Some x l : x ∈ l → is_Some (py_remove x l).
Proof.
  intros Hin. rewrite py_remove_index.
  destruct (py_index_is_Some x l Hin) as [i ->]. by eexists.
Qed.

(** Looking an id up after the entry at [i] is gone. *)
Lemma py_index_delete x y l i :
  py_index x l = Some i → y ≠ x →
  py_index y (delete i l)
  = (λ j, if decide (j < i) then j else pred j) <$> py_index y l.
Proof.
  revert i. induction l as [|z l IH]; intros i; simpl; [done|].
  case_decide as Hxz.
  - intros [= <-] Hyx. subst z. simpl. rewrite decide_False by done.
    destruct (py_index y l) as [j|]; simpl; [|done]. done.
  - destruct (py_index x l) as [i'|] eqn:Hi; [|done]. simpl.
    intros [= <-] Hyx. simpl. case_decide as Hyz.
    + simpl. done.
    + rewrite (IH i' eq_refl Hyx).
      destruct (py_index y l) as [j|] eqn:Hj; simpl; [|done].
      f_equal. repeat case_decide; try lia.
      assert (j ≠ i').
      { intros ->. apply py_index_Some in Hi as [Hi _].
        apply py_index_Some in Hj as [Hj _]. congruence. }
      lia.
Qed.
End PyListFacts.

Lemma lookup_delete_shift {B : Type} (l : list B) (i j : nat) :
  j ≠ i →
  delete i l !! (if decide (j < i) then j else pred j) = l !! j.
Proof.
  intros Hne. case_decide.
  - by rewrite list_lookup_delete_lt.
  - destruct j; [lia|]. simpl. rewrite list_lookup_delete_ge by lia. done.
Qed.

(** ** [delete_link] *)

Lemma node_unlink_Some linkid nc ni nc' :
  node_unlink linkid nc ni = Some nc' →
  ∃ c c', nc !! ni = Some c ∧ py_remove linkid c = Some c'
          ∧ nc' = <[ni := c']> nc.
Proof.
  unfold node_unlink. intros H.
  destruct (nc !! ni) as [c|] eqn:Hc; simpl in H; [|done].
  destruct (py_remove linkid c) as [c'|] eqn:Hr; simpl in H; [|done].
  injection H as <-. eauto.
Qed.

(** What the loop [for ni in nodeidx] does to the connectivity lists:
    the list of a node loses one entry [linkid] for each time the node
    stands in [pair], and nothing else changes. *)
Lemma unlink_fold linkid pair nc nc' :
  foldlM (node_unlink linkid) nc pair = Some nc' →
  length nc' = length nc ∧
  ∀ ni c, nc !! ni = Some c →
    ∃ c', nc' !! ni = Some c'
          ∧ filter (λ y, y ≠ linkid) c' = filter (λ y, y ≠ linkid) c
          ∧ occ linkid c' + occ ni pair = occ linkid c
          ∧ (ni ∉ pair → c' = c)
          ∧ c' `sublist_of` c.
Proof.
  revert nc. induction pair as [|n pair IH]; intros nc; simpl.
  - intros [= <-]. split; [done|]. intros ni c Hc. exists c.
    split_and!; [done|done| |done|done]. unfold occ at 2. simpl. lia.
  - destruct (node_unlink linkid nc n) as [nc1|] eqn:H1; simpl; [|done].
    intros H2. apply node_unlink_Some in H1 as (c0 & c0' & Hc0 & Hr & ->).
    destruct (IH _ H2) as [Hlen Hall]. rewrite length_insert in Hlen.
    split; [done|]. intros ni c Hc.
    assert (c0' `sublist_of` c0) as Hsub0.
    { rewrite py_remove_index in Hr.
      destruct (py_index linkid c0) as [j|]; [|done]. injection Hr as <-.
      apply sublist_delete. }
    apply py_remove_Some in Hr as (Hf & Ho & _).
    destruct (decide (ni = n)) as [->|Hne].
    + assert (c = c0) as -> by congruence.
      destruct (Hall n c0') as (c' & Hc' & Hf' & Ho' & _ & Hsub).
      { apply list_lookup_insert_eq. by eapply lookup_lt_Some. }
      exists c'. split_and!; [done|congruence| | |by etrans].
      * unfold occ at 2. rewrite filter_cons_True by done. simpl.
        fold (occ n pair). lia.
      * intros Hn. exfalso. apply Hn. left.
    + destruct (Hall ni c) as (c' & Hc' & Hf' & Ho' & Hsame & Hsub).
      { by rewrite list_lookup_insert_ne. }
      exists c'. split_and!; [done|done| | |done].
      * unfold occ at 2. rewrite filter_cons_False by done.
        fold (occ ni pair). lia.
      * intros Hn. apply Hsame. intros ?. apply Hn. by right.
Qed.

Lemma delete_link_Some linkid links nodes links' nodes' :
  delete_link linkid links nodes = Some (links', nodes') →
  ∃ lid pair,
    py_index linkid (l_id links) = Some lid
    ∧ l_conn links !! lid = Some pair
    ∧ l_id links' = delete lid (l_id links)
    ∧ l_idx links' = delete lid (l_idx links)
    ∧ l_conn links' = delete lid (l_conn links)
    ∧ n_idx nodes' = n_idx nodes
    ∧ foldlM (node_unlink linkid) (n_conn nodes) pair = Some (n_conn nodes').
Proof.
  unfold delete_link, py_pop. intros H.
  destruct (py_index linkid (l_id links)) as [lid|] eqn:Hi; simpl in H; [|done].
  destruct (l_idx links !! lid) as [ch|] eqn:Hch; simpl in H; [|done].
  destruct (l_conn links !! lid) as [pair|] eqn:Hp; simpl in H; [|done].
  rewrite py_remove_index, Hi in H. simpl in H.
  destruct (foldlM _ _ _) as [nc'|] eqn:Hf; simpl in H; [|done].
  injection H as <- <-. exists lid, pair. simpl. done.
Qed.

Lemma occ_pos {A} `{EqDecision A} (x : A) (l : list A) : 0 < occ x l ↔ x ∈ l.
Proof.
  unfold occ. induction l as [|y l IH]; simpl.
  - rewrite elem_of_nil. lia.
  - rewrite elem_of_cons. destruct (decide (y = x)) as [->|Hne].
    + rewrite filter_cons_True by done. simpl. split; [auto|lia].
    + rewrite filter_cons_False by done. rewrite IH. split; [auto|].
      intros [->|?]; done.
Qed.

Lemma unlink_fold_is_Some linkid pair nc :
  (∀ ni, ni ∈ pair →
     ∃ c, nc !! ni = Some c ∧ occ ni pair ≤ occ linkid c) →
  is_Some (foldlM (node_unlink linkid) nc pair).
Proof.
  revert nc. induction pair as [|n pair IH]; intros nc Hall; simpl.
  - by eexists.
  - destruct (Hall n) as (c & Hc & Hle); [left|].
    unfold occ at 1 in Hle. rewrite filter_cons_True in Hle by done.
    simpl in Hle. fold (occ n pair) in Hle.
    destruct (py_remove_is_Some linkid c) as [c' Hr].
    { apply occ_pos. lia. }
    unfold node_unlink at 2. rewrite Hc. simpl. rewrite Hr. simpl.
    apply IH. intros ni Hni.
    apply py_remove_Some in Hr as (_ & Ho & _).
    destruct (decide (ni = n)) as [->|Hne].
    + exists c'. split; [|lia].
      apply list_lookup_insert_eq. by eapply lookup_lt_Some.
    + destruct (Hall ni) as (c1 & Hc1 & Hle1); [by right|].
      exists c1. split; [by rewrite list_lookup_insert_ne|].
      unfold occ at 1 in Hle1. rewrite filter_cons_False in Hle1 by done.
      done.
Qed.

Lemma delete_link_is_Some linkid links nodes :
  links_ok links nodes → linkid ∈ l_id links →
  is_Some (delete_link linkid links nodes).
Proof.
  intros (Hl1 & Hl2 & Hn) Hin.
  destruct (py_index_is_Some _ _ Hin) as [lid Hlid].
  pose proof (py_index_lt _ _ _ Hlid) as Hlt.
  pose proof (py_index_Some _ _ _ Hlid) as [Hat _].
  destruct (lookup_lt_is_Some_2 (l_idx links) lid) as [ch Hch]; [lia|].
  destruct (lookup_lt_is_Some_2 (l_conn links) lid) as [pair Hp]; [lia|].
  destruct (unlink_fold_is_Some linkid pair (n_conn nodes)) as [nc' Hf].
  { intros ni Hni. eapply Hn; eauto. }
  unfold delete_link, py_pop. rewrite Hlid. simpl. rewrite Hch, Hp. simpl.
  rewrite py_remove_index, Hlid. simpl. rewrite Hf. simpl. by eexists.
Qed.

(** The links other than the deleted one keep their entries. *)
Lemma delete_link_other linkid links nodes links' nodes' other :
  delete_link linkid links nodes = Some (links', nodes') →
  other ≠ linkid →
  link_chain links' other = link_chain links other
  ∧ link_conn links' other = link_conn links other.
Proof.
  intros H Hne.
  apply delete_link_Some in H
    as (lid & pair & Hi & Hp & Hid & Hidx & Hconn & Hn & Hf).
  unfold link_chain, link_conn.
  rewrite Hid, Hidx, Hconn, (py_index_delete _ _ _ _ Hi Hne).
  destruct (py_index other (l_id links)) as [j|] eqn:Hj; simpl; [|done].
  assert (j ≠ lid).
  { intros ->. apply py_index_Some in Hi as [Hi _].
    apply py_index_Some in Hj as [Hj _]. congruence. }
  by rewrite !lookup_delete_shift.
Qed.

(** C10. [delete_link] removes the entry of the deleted link, and only
    it, from each of the three lists of [links]; every other link keeps
    its pixel chain and its connection pair. In [nodes] no node is
    removed: the lists of node pixels and of connectivity lists keep
    their lengths, also when a connectivity list ends empty. The
    connectivity list of a node loses the id once for each time the
    node stands in the deleted link's pair, keeps every other id, and is
    unchanged when the node is not in the pair. *)
Theorem delete_link_frame linkid links nodes links' nodes' :
  delete_link linkid links nodes = Some (links', nodes') →
  ∃ lid pair,
    py_index linkid (l_id links) = Some lid
    ∧ l_conn links !! lid = Some pair
    ∧ l_id links' = delete lid (l_id links)
    ∧ l_idx links' = delete lid (l_idx links)
    ∧ l_conn links' = delete lid (l_conn links)
    ∧ (∀ other, other ≠ linkid →
         link_chain links' other = link_chain links other
         ∧ link_conn links' other = link_conn links other)
    ∧ n_idx nodes' = n_idx nodes
    ∧ length (n_conn nodes') = length (n_conn nodes)
    ∧ ∀ ni c, n_conn nodes !! ni = Some c →
        ∃ c', n_conn nodes' !! ni = Some c'
              ∧ filter (λ y, y ≠ linkid) c' = filter (λ y, y ≠ linkid) c
              ∧ occ linkid c' + occ ni pair = occ linkid c
              ∧ (ni ∉ pair → c' = c).
Proof.
  intros H.
  pose proof (λ o, delete_link_other _ _ _ _ _ o H) as Hother.
  apply delete_link_Some in H
    as (lid & pair & Hi & Hp & Hid & Hidx & Hconn & Hn & Hf).
  apply unlink_fold in Hf as [Hlen Hall].
  exists lid, pair. split_and!; try done.
  intros ni c Hc. destruct (Hall ni c Hc) as (c' & ? & ? & ? & ? & _).
  by exists c'.
Qed.

(** ** [idcs_no_turnaround] *)

Section TurnFacts.
Import Turn.
Local Open Scope Z_scope.

(** The eight steps, one by one. *)
Lemma dir_cases (d : step) :
  is_dir d →
  d = (-1,-1) ∨ d = (-1,0) ∨ d = (-1,1) ∨ d = (0,-1) ∨ d = (0,1)
  ∨ d = (1,-1) ∨ d = (1,0) ∨ d = (1,1).
Proof.
  destruct d as [r c]. unfold is_dir. simpl. intros (Hr & Hc & Hne).
  assert (r = -1 ∨ r = 0 ∨ r = 1) as [-> | [-> | ->]] by lia;
  assert (c = -1 ∨ c = 0 ∨ c = 1) as [-> | [-> | ->]] by lia;
  tauto.
Qed.

(** Finds the step [e] that reaches an index of the answer. *)
Ltac try_step e :=
  exists e; unfold is_dir, forward, offset; simpl;
  split_and!; first [lia | discriminate].

Ltac find_step :=
  first [ try_step (-1,-1) | try_step (-1,0) | try_step (-1,1)
        | try_step (0,-1) | try_step (0,1)
        | try_step (1,-1) | try_step (1,0) | try_step (1,1) ].

Ltac solve_admissible :=
  split; [reflexivity|]; split;
  [ repeat (apply NoDup_cons; split; [rewrite ?elem_of_cons, elem_of_nil; lia|]);
    apply NoDup_nil; done
  | intros n Hin; rewrite ?elem_of_cons, elem_of_nil in Hin;
    destruct Hin as [-> | [-> | [-> | []]]]; find_step ].

(** After a step other than the step to the left, the answer is what the
    specification asks for: three distinct neighbours of the last pixel,
    each of them forward of the step. *)
Lemma idcs_no_turnaround_admissible (ncols p : Z) (d : step) :
  3 ≤ ncols → is_dir d → d ≠ (0, -1) →
  ∃ r, idcs_no_turnaround [p; p + offset ncols d] ncols = Some r
       ∧ admissible ncols p (p + offset ncols d) d r.
Proof.
  intros Hn Hd Hleft.
  destruct (dir_cases d Hd) as [-> | [-> | [-> | [-> | [-> | [-> | [-> | ->]]]]]]];
    try done;
    unfold idcs_no_turnaround, walkdirs, offset; simpl;
    repeat (case_decide; try lia); simpl; eexists; (split; [reflexivity|]);
    solve_admissible.
Qed.

(** After a step to the left ([idxdif == 1]) the answer names the upper
    left neighbour twice and leaves the lower left neighbour out. *)
Lemma idcs_no_turnaround_left (ncols p : Z) :
  3 ≤ ncols →
  idcs_no_turnaround [p; p + offset ncols (0, -1)] ncols
  = Some [p - ncols - 2; p - 2; p - ncols - 2].
Proof.
  intros Hn. unfold idcs_no_turnaround, walkdirs, offset; simpl.
  repeat (case_decide; try lia); simpl. do 4 f_equal; [|f_equal|do 2 f_equal]; lia.
Qed.

(** C1 fails on the code. In a raster of 10 columns, after the step to
    the left from the pixel 56 to the pixel 55, [idcs_no_turnaround]
    answers [44; 54; 44]: two distinct indices and not three, the lower
    left neighbour 64 is missing. *)
Theorem idcs_no_turnaround_56_55 :
  idcs_no_turnaround [56; 55] 10 = Some [44; 54; 44]
  ∧ ¬ admissible 10 56 55 (0, -1) [44; 54; 44].
Proof.
  split; [reflexivity|].
  intros (_ & Hnd & _). apply NoDup_cons in Hnd as [Hnotin _].
  apply Hnotin. set_solver.
Qed.
End TurnFacts.

(** ** [isbp_walk_for_bps] *)

Section WalkFacts.
Context `{ImUtils, PySet}.
Implicit Types (st : walk_state) (Im : image).

Lemma walk_chain_bpi fuel Im idx st st' :
  walk_chain fuel Im idx st = Some st' → ws_bpi st ⊆ ws_bpi st'.
Proof.
  revert idx st. induction fuel as [|fuel IH]; intros idx st; simpl; [done|].
  repeat case_decide.
  - by intros [= <-].
  - by intros [= <-].
  - intros Hc%IH. simpl in Hc. done.
  - intros Hc%IH. simpl in Hc. set_solver.
Qed.

Lemma walk_pick_bpi st idx st' :
  walk_pick st = Some (idx, st') → ws_bpi st' = ws_bpi st.
Proof.
  unfold walk_pick. repeat case_decide; intros [= <- <-]; done.
Qed.

Local Arguments walk_chain : simpl never.

Lemma walk_loop_S fuel Im st :
  walk_loop (S fuel) Im st
  = if decide (ws_emanators st = ∅) then Some (ws_bpi st)
    else p ← walk_pick st;
         st' ← walk_chain (S fuel) Im p.1 p.2;
         walk_loop fuel Im st'.
Proof. done. Qed.

Lemma walk_loop_bpi fuel Im st r :
  walk_loop fuel Im st = Some r → ws_bpi st ⊆ r.
Proof.
  revert st. induction fuel as [|fuel IH]; intros st.
  - simpl. case_decide; [|done]. by intros [= <-].
  - rewrite walk_loop_S. case_decide; [by intros [= <-]|]. intros Hl.
    destruct (walk_pick st) as [[idx st1]|] eqn:Hp; simpl in Hl; [|done].
    destruct (walk_chain _ _ _ _) as [st2|] eqn:Hc; simpl in Hl; [|done].
    apply IH in Hl. apply walk_pick_bpi in Hp. apply walk_chain_bpi in Hc.
    simpl in Hc. set_solver.
Qed.

(** C9. The branchpoints returned by the walk contain every seed. *)
Theorem isbp_walk_for_bps_seeds fuel Im (bpi : list Z) r :
  isbp_walk_for_bps fuel Im bpi = Some r → ∀ b, b ∈ bpi → b ∈ r.
Proof.
  unfold isbp_walk_for_bps. intros Hl%walk_loop_bpi b Hb.
  apply Hl. simpl. by apply elem_of_list_to_set.
Qed.
End WalkFacts.

Section WalkTermination.
Context `{ImUtils, PySet}.
Variables (U : gset Z) (Im : image).
Hypothesis neighbors_in_U :
  ∀ idx, list_to_set (neighbors_flat idx (ravel Im) (shape Im).2) ⊆ U.

Local Arguments walk_chain : simpl never.

Lemma size_diff_more (W N : gset Z) :
  N ⊆ U ∖ W → size (U ∖ (W ∪ N)) + size N = size (U ∖ W).
Proof.
  intros HN. assert (U ∖ (W ∪ N) = (U ∖ W) ∖ N) as -> by set_solver.
  rewrite size_difference by done.
  apply subseteq_size in HN. lia.
Qed.

Lemma size_diff_absorb (W : gset Z) (x : Z) :
  x ∈ W → U ∖ (W ∪ {[x]}) = U ∖ W.
Proof. set_solver. Qed.

Lemma size_union_le (A B : gset Z) : size (A ∪ B) ≤ size A + size B.
Proof.
  rewrite size_union_alt.
  assert (size (B ∖ A) ≤ size B) by (apply subseteq_size; set_solver). lia.
Qed.

Lemma walk_chain_S fuel idx st :
  walk_chain (S fuel) Im idx st
  = let walked := ws_walked st ∪ {[idx]} in
    let neighs : gset Z :=
      list_to_set (neighbors_flat idx (ravel Im) (shape Im).2) ∖ walked in
    let st1 := mkWalk (ws_bpi st) (ws_do_first st) (ws_emanators st) walked in
    if decide (size neighs = 0) then Some st1
    else if decide (size neighs = 1) then
      let idx' := set_pop neighs in
      if decide (idx' ∈ edge_coords (shape Im)) then Some st1
      else walk_chain fuel Im idx' st1
    else
      let fourconn := filter (λ f, f ∈ neighs) (four_conn idx Im) in
      walk_chain fuel Im idx
        (mkWalk (ws_bpi st ∪ {[idx]})
                (ws_do_first st ∪ list_to_set fourconn)
                (ws_emanators st ∪ neighs)
                (walked ∪ {[idx]} ∪ neighs)).
Proof. done. Qed.

Lemma walk_chain_total fuel idx st :
  size (U ∖ (ws_walked st ∪ {[idx]})) < fuel →
  ws_do_first st ⊆ ws_emanators st →
  ws_emanators st ⊆ ws_walked st ∪ {[idx]} →
  ∃ st', walk_chain fuel Im idx st = Some st'
    ∧ ws_do_first st' ⊆ ws_emanators st'
    ∧ ws_emanators st' ⊆ ws_walked st'
    ∧ 2 * size (U ∖ ws_walked st') + size (ws_emanators st')
      ≤ 2 * size (U ∖ (ws_walked st ∪ {[idx]})) + size (ws_emanators st).
Proof.
  revert idx st. induction fuel as [|fuel IH]; intros idx st Hf Hd He; [lia|].
  rewrite walk_chain_S. cbv zeta.
  set (W0 := ws_walked st ∪ {[idx]}) in *.
  set (N := list_to_set (neighbors_flat idx (ravel Im) (shape Im).2) ∖ W0).
  assert (N ⊆ U ∖ W0) as HN.
  { pose proof (neighbors_in_U idx). set_solver. }
  pose proof (size_diff_more W0 N HN) as Hsz.
  case_decide as Hz; [|case_decide as H1; [case_decide as Hedge|]].
  - eexists. split; [done|]. simpl. split_and!; [done|done|lia].
  - eexists. split; [done|]. simpl. split_and!; [done|done|lia].
  - assert (set_pop N ∈ N) as Hpop.
    { apply set_pop_elem. intros HN0. rewrite HN0, size_empty in H1. lia. }
    set (x := set_pop N) in *.
    assert ({[x]} ⊆ U ∖ W0) as Hx by set_solver.
    pose proof (size_diff_more W0 {[x]} Hx) as Hszx.
    rewrite size_singleton in Hszx.
    destruct (IH x (mkWalk (ws_bpi st) (ws_do_first st) (ws_emanators st) W0))
      as (st' & Hr & Hd' & He' & Hm); simpl.
    + lia.
    + done.
    + set_solver.
    + exists st'. split; [done|]. simpl in Hm. split_and!; [done|done|lia].
  - set (F := filter (λ f, f ∈ N) (four_conn idx Im)).
    assert (list_to_set F ⊆ N) as HF.
    { intros y Hy. apply elem_of_list_to_set in Hy.
      unfold F in Hy. apply list_elem_of_filter in Hy. tauto. }
    assert (W0 ∪ {[idx]} ∪ N ∪ {[idx]} = W0 ∪ N) as HW by set_solver.
    destruct (IH idx (mkWalk (ws_bpi st ∪ {[idx]})
                             (ws_do_first st ∪ list_to_set F)
                             (ws_emanators st ∪ N) (W0 ∪ {[idx]} ∪ N)))
      as (st' & Hr & Hd' & He' & Hm); simpl.
    + rewrite HW. lia.
    + set_solver.
    + set_solver.
    + exists st'. split; [done|]. simpl in Hm. rewrite HW in Hm.
      pose proof (size_union_le (ws_emanators st) N).
      split_and!; [done|done|lia].
Qed.

Lemma walk_loop_total fuel st :
  2 * size (U ∖ ws_walked st) + size (ws_emanators st) < fuel →
  ws_do_first st ⊆ ws_emanators st →
  ws_emanators st ⊆ ws_walked st →
  is_Some (walk_loop fuel Im st).
Proof.
  revert st. induction fuel as [|fuel IH]; intros st Hf Hd He; [lia|].
  rewrite walk_loop_S. case_decide as Hem; [by eexists|].
  assert (∃ idx st1, walk_pick st = Some (idx, st1)
            ∧ idx ∈ ws_emanators st
            ∧ ws_walked st1 = ws_walked st
            ∧ ws_emanators st1 = ws_emanators st ∖ {[idx]}
            ∧ ws_do_first st1 ⊆ ws_emanators st1)
    as (idx & st1 & Hp & Hin & Hw1 & He1 & Hd1).
  { unfold walk_pick. case_decide as Hdf.
    - pose proof (set_pop_elem _ Hdf) as Hpop.
      rewrite decide_True by set_solver.
      eexists _, _. split; [done|]. simpl. set_solver.
    - pose proof (set_pop_elem _ Hem) as Hpop.
      eexists _, _. split; [done|]. simpl. set_solver. }
  rewrite Hp. simpl.
  assert (size (ws_emanators st1) + 1 = size (ws_emanators st)) as Hsz.
  { rewrite He1, size_difference by set_solver. rewrite size_singleton.
    assert (size (ws_emanators st) ≠ 0); [|lia].
    intros Hz%size_empty_inv. set_solver. }
  assert (U ∖ (ws_walked st1 ∪ {[idx]}) = U ∖ ws_walked st) as HU.
  { rewrite Hw1. apply size_diff_absorb. set_solver. }
  destruct (walk_chain_total (S fuel) idx st1)
    as (st' & Hr & Hd' & He' & Hm).
  - rewrite HU. lia.
  - done.
  - rewrite He1, Hw1. set_solver.
  - rewrite Hr. simpl. apply IH; [|done|done]. rewrite HU in Hm. lia.
Qed.
End WalkTermination.

Lemma elem_of_set_list `{PySet} `{Countable A} (s : gset A) (x : A) :
  x ∈ set_list s ↔ x ∈ s.
Proof. rewrite (set_list_perm s). apply elem_of_elements. Qed.

Lemma NoDup_set_list `{PySet} `{Countable A} (s : gset A) :
  NoDup (set_list s).
Proof. rewrite (set_list_perm s). apply NoDup_elements. Qed.

Lemma elem_of_foldl_union {B : Type} (f : B → gset Z) (l : list B)
  (X : gset Z) (x : Z) :
  x ∈ foldl (λ acc b, acc ∪ f b) X l ↔ x ∈ X ∨ ∃ b, b ∈ l ∧ x ∈ f b.
Proof.
  revert X. induction l as [|b l IH]; intros X; simpl.
  - split; [auto|]. intros [?|(b & Hb & _)]; [done|].
    by apply elem_of_nil in Hb.
  - rewrite IH, elem_of_union. split.
    + intros [[?|?]|(b' & Hb' & ?)]; [by left| |].
      * right. exists b. split; [left|done].
      * right. exists b'. split; [by right|done].
    + intros [?|(b' & Hb' & ?)]; [by left; left|].
      apply elem_of_cons in Hb' as [->|Hb']; [by left; right|].
      right. by exists b'.
Qed.

(** X7. The walk returns whenever the pixels that [neighbors_flat] names lie
    in one finite set [U] and the 4-connected neighbours of a seed are
    among its neighbours: fuel above [3 * size U] is enough. *)
Theorem isbp_walk_for_bps_returns `{ImUtils, PySet} (U : gset Z)
  (Im : image) (bpi : list Z) (fuel : nat) :
  (∀ idx, list_to_set (neighbors_flat idx (ravel Im) (shape Im).2) ⊆ U) →
  (∀ b x, b ∈ bpi → x ∈ four_conn b Im →
          x ∈ neighbors_flat b (ravel Im) (shape Im).2) →
  3 * size U < fuel →
  is_Some (isbp_walk_for_bps fuel Im bpi).
Proof.
  intros HU Hfour Hfuel. unfold isbp_walk_for_bps.
  apply (walk_loop_total U Im HU); unfold walk_init; simpl.
  - set (em := foldl _ ∅ (set_list _)).
    assert (em ⊆ U) as Hem.
    { intros x Hx. apply elem_of_foldl_union in Hx as [Hx|(b & _ & Hx)].
      - by apply not_elem_of_empty in Hx.
      - by apply (HU b). }
    apply subseteq_size in Hem.
    assert (size (U ∖ (list_to_set bpi ∪ em)) ≤ size U)
      by (apply subseteq_size; set_solver).
    lia.
  - intros x Hx. apply elem_of_foldl_union in Hx as [Hx|(b & Hb & Hx)].
    { by apply not_elem_of_empty in Hx. }
    apply elem_of_foldl_union. right. exists b. split; [done|].
    apply elem_of_list_to_set. apply elem_of_list_to_set in Hx.
    apply Hfour; [|done].
    apply elem_of_set_list in Hb. by apply elem_of_list_to_set in Hb.
  - set_solver.
Qed.

(** ** [bp_cluster] *)

Lemma foldlM_cons {A B} (f : B → A → option B) b x l :
  foldlM f b (x :: l) = f b x ≫= λ b', foldlM f b' l.
Proof. done. Qed.

Lemma prefix_subseteq {A} (l1 l2 : list A) : l1 `prefix_of` l2 → l1 ⊆ l2.
Proof. intros Hp x Hx. by eapply elem_of_prefix. Qed.

Section PopOrder.
Context `{PySet}.

Lemma elem_of_pop_seq n (s : gset Z) x :
  size s ≤ n → x ∈ pop_seq n s ↔ x ∈ s.
Proof.
  revert s. induction n as [|n IH]; intros s Hn; simpl.
  - assert (s = ∅) as -> by (apply leibniz_equiv, size_empty_inv; lia). set_solver.
  - case_decide as Hs; [subst; set_solver|].
    pose proof (set_pop_elem s Hs) as Hp.
    rewrite elem_of_cons, IH.
    + destruct (decide (x = set_pop s)) as [->|]; set_solver.
    + rewrite size_difference by set_solver. rewrite size_singleton.
      assert (size s ≠ 0) by (intros ?%size_empty_inv; set_solver). lia.
Qed.

Lemma elem_of_pop_order (s : gset Z) x : x ∈ pop_order s ↔ x ∈ s.
Proof. by apply elem_of_pop_seq. Qed.
End PopOrder.

Section Cluster.
Context `{ImUtils, PySet}.
Variables (wfuel : nat) (Iskel : image).

(** Every neighbour of [x] that [is_bp] marks is in [L]. *)
Definition closed_at (L : list Z) (x : Z) : Prop :=
  ∀ n, n ∈ get_neighbors x Iskel → is_bp wfuel n Iskel = Some 1%Z → n ∈ L.

Lemma closed_at_mono L L' x : L ⊆ L' → closed_at L x → closed_at L' x.
Proof. intros HL Hc n Hn Hb. apply HL. by apply Hc. Qed.

(** The body of the loop of [bp_cluster], with [fuel] left for the
    nested calls. *)
Definition cluster_step (fuel : nat) (bp : list Z) (b : Z)
  : option (list Z) :=
  isbp ← is_bp wfuel b Iskel;
  if decide (isbp = 1%Z) then
    if decide (b ∈ bp) then Some bp
    else bp_cluster wfuel fuel (bp ++ [b]) Iskel
  else Some bp.

Lemma bp_cluster_S fuel bp :
  bp_cluster wfuel (S fuel) bp Iskel
  = bp_neighs ← walkable_neighbors bp Iskel;
    foldlM (cluster_step fuel) bp (pop_order bp_neighs).
Proof. done. Qed.

Lemma walkable_neighbors_Some link wn :
  walkable_neighbors link Iskel = Some wn →
  ∃ idx, last link = Some idx
    ∧ wn = list_to_set (get_neighbors idx Iskel) ∖ list_to_set (last_two link).
Proof.
  unfold walkable_neighbors. destruct (last link) as [idx|]; [|done].
  simpl. intros [= <-]. eauto.
Qed.

Lemma last_two_subseteq {A} (l : list A) : last_two l ⊆ l.
Proof. apply subseteq_drop. Qed.

Lemma cluster_sound fuel bp bp' :
  bp_cluster wfuel fuel bp Iskel = Some bp' →
  bp `prefix_of` bp'
  ∧ (∀ b, last bp = Some b → closed_at bp' b)
  ∧ (∀ x, x ∈ bp' → x ∉ bp → closed_at bp' x).
Proof.
  revert bp bp'. induction fuel as [|fuel IH]; intros bp bp'; [done|].
  rewrite bp_cluster_S. intros Hr.
  destruct (walkable_neighbors bp Iskel) as [wn|] eqn:Hwn; [|done].
  simpl in Hr. apply walkable_neighbors_Some in Hwn as (b & Hlast & ->).
  assert (∀ ns L L',
    foldlM (cluster_step fuel) L ns = Some L' →
    L `prefix_of` L'
    ∧ (∀ n, n ∈ ns → is_bp wfuel n Iskel = Some 1%Z → n ∈ L')
    ∧ (∀ x, x ∈ L' → x ∉ L → closed_at L' x)) as Hloop.
  { clear Hr bp' b Hlast. induction ns as [|n ns IHns]; intros L L' Hf.
    - injection Hf as <-. split_and!; [done| |done].
      intros n Hn. by apply elem_of_nil in Hn.
    - rewrite foldlM_cons in Hf.
      destruct (cluster_step fuel L n) as [L1|] eqn:Hs; [|done].
      simpl in Hf. destruct (IHns _ _ Hf) as (Hp1 & Hin1 & Hcl1).
      assert (L `prefix_of` L1
              ∧ (is_bp wfuel n Iskel = Some 1%Z → n ∈ L1)
              ∧ (∀ x, x ∈ L1 → x ∉ L → closed_at L1 x)) as (Hp0 & Hin0 & Hcl0).
      { unfold cluster_step in Hs.
        destruct (is_bp wfuel n Iskel) as [v|]; [|done]. simpl in Hs.
        case_decide as Hv; [case_decide as HnL|].
        - injection Hs as <-. split_and!; [done|done|done].
        - apply IH in Hs as (Hpre & Hlast' & Hnew).
          split_and!.
          + etrans; [|done]. by apply prefix_app_r.
          + intros _. eapply prefix_subseteq; [done|]. set_solver.
          + intros x Hx HxL. destruct (decide (x = n)) as [->|Hne].
            * apply Hlast'. by rewrite last_snoc.
            * apply Hnew; [done|]. set_solver.
        - injection Hs as <-. split_and!; [done| |done].
          intros [= ->]. done. }
      split_and!.
      + by etrans.
      + intros m [->|Hm]%elem_of_cons Hb; [|by apply Hin1].
        eapply prefix_subseteq; [done|]. by apply Hin0.
      + intros x Hx HxL. destruct (decide (x ∈ L1)) as [HxL1|HxL1].
        * eapply closed_at_mono; [by apply prefix_subseteq|]. by apply Hcl0.
        * by apply Hcl1. }
  destruct (Hloop _ _ _ Hr) as (Hpre & Hin & Hcl).
  split_and!; [done| |done].
  intros b' Hb' n Hn Hbp. assert (b' = b) as -> by congruence.
  destruct (decide (n ∈ last_two bp)) as [Hl2|Hl2].
  - eapply prefix_subseteq; [done|]. by apply last_two_subseteq.
  - apply Hin; [|done]. apply elem_of_pop_order.
    apply elem_of_difference. split; apply elem_of_list_to_set || idtac; [done|].
    by rewrite elem_of_list_to_set.
Qed.

Variable U : gset Z.
Hypothesis neighbors_in_U : ∀ x n, n ∈ get_neighbors x Iskel → n ∈ U.
Hypothesis is_bp_answers : ∀ x, x ∈ U → is_Some (is_bp wfuel x Iskel).

Lemma size_diff_snoc (L : list Z) (n : Z) :
  n ∈ U → n ∉ L →
  size (U ∖ list_to_set (L ++ [n])) < size (U ∖ list_to_set L).
Proof.
  intros HnU HnL.
  assert (U ∖ list_to_set (L ++ [n]) = (U ∖ list_to_set L) ∖ {[n]}) as ->.
  { rewrite list_to_set_app_L. set_solver. }
  rewrite size_difference by set_solver. rewrite size_singleton.
  assert (size (U ∖ list_to_set L) ≠ 0); [|lia].
  intros Hz%size_empty_inv. set_solver.
Qed.

Lemma cluster_total fuel bp :
  bp ≠ [] → size (U ∖ list_to_set bp) < fuel →
  is_Some (bp_cluster wfuel fuel bp Iskel).
Proof.
  revert bp. induction fuel as [|fuel IH]; intros bp Hne Hsz; [lia|].
  rewrite bp_cluster_S.
  destruct (last bp) as [b|] eqn:Hlast; [|by apply last_None in Hlast].
  unfold walkable_neighbors. rewrite Hlast. simpl.
  set (wn := _ ∖ _).
  assert (∀ n, n ∈ pop_order wn → n ∈ U) as Hns.
  { intros n Hn%elem_of_pop_order. unfold wn in Hn.
    apply elem_of_difference in Hn as [Hn _].
    apply elem_of_list_to_set in Hn. by eapply neighbors_in_U. }
  assert (∀ ns L, (∀ n, n ∈ ns → n ∈ U) →
            size (U ∖ list_to_set L) < S fuel →
            is_Some (foldlM (cluster_step fuel) L ns)) as Hloop; [|by apply Hloop].
  clear dependent bp. clear dependent b.
  induction ns as [|n ns IHns]; intros L Hns Hsz; [by eexists|].
  rewrite foldlM_cons.
  assert (∃ L1, cluster_step fuel L n = Some L1
                ∧ size (U ∖ list_to_set L1) ≤ size (U ∖ list_to_set L))
    as (L1 & Hs & Hle).
  { unfold cluster_step.
    destruct (is_bp_answers n) as [v Hv]; [apply Hns; left|].
    rewrite Hv. simpl. case_decide; [case_decide as HnL|]; [by eexists..| |by eexists].
    assert (n ∈ U) as HnU by (apply Hns; left).
    pose proof (size_diff_snoc L n HnU HnL) as Hlt.
    destruct (IH (L ++ [n])) as [L1 HL1]; [by destruct L|lia|].
    exists L1. split; [done|].
    apply cluster_sound in HL1 as (Hpre & _).
    apply prefix_subseteq in Hpre.
    assert (size (U ∖ list_to_set L1) ≤ size (U ∖ list_to_set (L ++ [n]))).
    { apply subseteq_size. set_solver. }
    lia. }
  rewrite Hs. simpl. apply IHns; [|lia].
  intros m Hm. apply Hns. by right.
Qed.

End Cluster.

(** C6. When the neighbours of every pixel lie in one finite set [U] of
    pixels on which [is_bp] answers, [bp_cluster] returns from the seed
    [[seed]] with any fuel above [size U]. The list it returns holds the
    seed, and with a pixel [x] it holds every walkable neighbour of [x]
    that [is_bp] marks as a branchpoint: the branchpoints found in the
    nested calls are in it, because the nested calls extend the list the
    caller goes on with. *)
Theorem bp_cluster_closed `{ImUtils, PySet} (wfuel fuel : nat)
  (Iskel : image) (U : gset Z) (seed : Z) :
  (∀ x n, n ∈ get_neighbors x Iskel → n ∈ U) →
  (∀ x, x ∈ U → is_Some (is_bp wfuel x Iskel)) →
  size U < fuel →
  ∃ cl, bp_cluster wfuel fuel [seed] Iskel = Some cl
    ∧ seed ∈ cl
    ∧ ∀ x wn n, x ∈ cl → walkable_neighbors [x] Iskel = Some wn → n ∈ wn →
        is_bp wfuel n Iskel = Some 1%Z → n ∈ cl.
Proof.
  intros HU Hbp Hfuel.
  destruct (cluster_total wfuel Iskel U HU Hbp fuel [seed]) as [cl Hcl].
  { done. }
  { assert (size (U ∖ list_to_set [seed]) ≤ size U)
      by (apply subseteq_size; set_solver). lia. }
  exists cl. split; [done|].
  apply cluster_sound in Hcl as (Hpre & Hlast & Hnew).
  assert (seed ∈ cl) as Hseed.
  { eapply prefix_subseteq; [done|]. set_solver. }
  split; [done|]. intros x wn n Hx Hwn Hn Hb.
  apply walkable_neighbors_Some in Hwn as (x' & [= <-] & ->).
  apply elem_of_difference in Hn as [Hn _].
  apply elem_of_list_to_set in Hn.
  destruct (decide (x = seed)) as [->|Hne].
  - by apply (Hlast seed).
  - apply (Hnew x); [done| |done|done]. set_solver.
Qed.

(** ** [isbp_parsimonious]: the singleton candidates *)

Local Open Scope Z_scope.

Lemma foldl_max_spec (l : list Z) (x : Z) :
  let m := foldl Z.max x l in
  (m = x ∨ m ∈ l) ∧ x ≤ m ∧ ∀ y, y ∈ l → y ≤ m.
Proof.
  revert x. induction l as [|z l IH]; intros x; simpl.
  - split_and!; [by left|lia|]. intros y Hy. by apply elem_of_nil in Hy.
  - destruct (IH (Z.max x z)) as (Hin & Hle & Hall). split_and!.
    + destruct Hin as [->|Hin]; [|right; by right].
      destruct (Z.max_spec x z) as [[_ ->]|[_ ->]]; [right; left|by left].
    + lia.
    + intros y [->|Hy]%elem_of_cons; [lia|by apply Hall].
Qed.

Lemma list_max_spec (l : list Z) (m : Z) :
  list_max l = Some m → m ∈ l ∧ ∀ y, y ∈ l → y ≤ m.
Proof.
  destruct l as [|x l]; [done|]. simpl. intros [= <-].
  destruct (foldl_max_spec l x) as (Hin & Hle & Hall). split.
  - destruct Hin as [->|Hin]; [left|by right].
  - intros y [->|Hy]%elem_of_cons; [done|by apply Hall].
Qed.

Lemma foldl_min_spec (l : list Z) (x : Z) :
  let m := foldl Z.min x l in
  (m = x ∨ m ∈ l) ∧ m ≤ x ∧ ∀ y, y ∈ l → m ≤ y.
Proof.
  revert x. induction l as [|z l IH]; intros x; simpl.
  - split_and!; [by left|lia|]. intros y Hy. by apply elem_of_nil in Hy.
  - destruct (IH (Z.min x z)) as (Hin & Hle & Hall). split_and!.
    + destruct Hin as [->|Hin]; [|right; by right].
      destruct (Z.min_spec x z) as [[_ ->]|[_ ->]]; [by left|right; left].
    + lia.
    + intros y [->|Hy]%elem_of_cons; [lia|by apply Hall].
Qed.

Lemma list_min_spec (l : list Z) (m : Z) :
  list_min l = Some m → m ∈ l ∧ ∀ y, y ∈ l → m ≤ y.
Proof.
  destruct l as [|x l]; [done|]. simpl. intros [= <-].
  destruct (foldl_min_spec l x) as (Hin & Hle & Hall). split.
  - destruct Hin as [->|Hin]; [left|by right].
  - intros y [->|Hy]%elem_of_cons; [done|by apply Hall].
Qed.

(** [a[idcs]] reads the value of [a] at each index. *)
Lemma np_take_Some (a idcs vals : list Z) :
  np_take a idcs = Some vals → vals = val_at a <$> idcs.
Proof.
  unfold np_take. revert vals. induction idcs as [|i idcs IH]; intros vals.
  - by intros [= <-].
  - simpl.
    destruct (np_get a i) as [v|] eqn:Hv; [|done]. simpl.
    destruct (mapM (np_get a) idcs) as [vs|]; [|done]. simpl.
    intros [= <-]. rewrite (IH vs eq_refl). simpl. f_equal. unfold val_at.
    by rewrite Hv.
Qed.

Lemma argmaxes_filter (f : Z → Z) (xs : list Z) (mx : Z) :
  (filter (λ p : Z * Z, p.2 = mx) (zip xs (f <$> xs))).*1
  = filter (λ q, f q = mx) xs.
Proof.
  induction xs as [|x xs IH]; [done|].
  rewrite fmap_cons. change (zip (x :: xs) (f x :: (f <$> xs)))
    with ((x, f x) :: zip xs (f <$> xs)).
  destruct (decide (f x = mx)) as [Hx|Hx].
  - rewrite !filter_cons_True by done. rewrite fmap_cons. simpl. by rewrite IH.
  - rewrite !filter_cons_False by done. done.
Qed.

(** [argmaxes] keeps the candidates with the highest value, in order. *)
Lemma argmaxes_spec (f : Z → Z) (xs m : list Z) :
  argmaxes xs (f <$> xs) = Some m →
  m ≠ [] ∧ m `sublist_of` xs ∧ ∀ q, q ∈ m ↔ tops f xs q.
Proof.
  unfold argmaxes. destruct (list_max (f <$> xs)) as [mx|] eqn:Hmx; [|done].
  simpl. intros [= <-]. rewrite argmaxes_filter.
  apply list_max_spec in Hmx as [Hin Hall].
  apply list_elem_of_fmap in Hin as (q0 & Hq0 & Hq0in).
  assert (∀ q, q ∈ filter (λ q, f q = mx) xs ↔ tops f xs q) as Hiff.
  { intros q. rewrite list_elem_of_filter. unfold tops. split.
    - intros [<- Hq]. split; [done|]. intros q' Hq'. apply Hall.
      apply list_elem_of_fmap. eauto.
    - intros [Hq Hmax]. split; [|done].
      assert (f q ≤ mx) by (apply Hall, list_elem_of_fmap; eauto).
      assert (f q0 ≤ f q) by by apply Hmax. lia. }
  split_and!; [|apply sublist_filter|done].
  intros Hnil. assert (q0 ∈ filter (λ q, f q = mx) xs) as Hq.
  { apply list_elem_of_filter. done. }
  rewrite Hnil in Hq. by apply elem_of_nil in Hq.
Qed.

Lemma one_or_several (P : Z → Prop) (m : list Z) :
  NoDup m → m ≠ [] → (∀ q, q ∈ m ↔ P q) →
  (length m = 1%nat ∧ ∃ p, m = [p] ∧ sole P p)
  ∨ (length m ≠ 1%nat ∧ several P).
Proof.
  intros Hnd Hne Hiff. destruct m as [|p [|p' m]]; [done| |].
  - left. split; [done|]. exists p. split; [done|]. split.
    + apply Hiff. left.
    + intros q Hq%Hiff. by apply list_elem_of_singleton in Hq.
  - right. split; [done|]. exists p, p'. split_and!.
    + apply Hiff. left.
    + apply Hiff. right. left.
    + apply NoDup_cons in Hnd as [Hp _]. intros ->. apply Hp. left.
Qed.

(** With candidates that are distinct pixels, [solo_choice]
    returns one pixel: the only candidate with the highest [naxes]; or,
    when several candidates have the highest [naxes], the only candidate
    with the highest [nfour] of all candidates, whether or not its [naxes]
    is the highest; or, when neither is decided, the smallest pixel among
    the candidates with the highest [nfour] of those with the highest
    [naxes]. *)
Lemma solo_choice_spec (Inar Infr bpsolo : list Z) (v : bps_value) :
  NoDup bpsolo → solo_choice Inar Infr bpsolo = Some v →
  let nax := val_at Inar in
  let four := val_at Infr in
  ∃ p,
    (v = BpNested [p] ∧ sole (tops nax bpsolo) p)
    ∨ (v = BpNested [p] ∧ several (tops nax bpsolo)
       ∧ sole (tops four bpsolo) p)
    ∨ (v = BpList [p] ∧ several (tops nax bpsolo)
       ∧ several (tops four bpsolo)
       ∧ layered_choice nax four bpsolo p).
Proof.
  intros Hnd Hs nax four. unfold solo_choice in Hs.
  destruct (np_take Inar bpsolo) as [naxconn|] eqn:Hn; [|done].
  simpl in Hs. apply np_take_Some in Hn as ->.
  destruct (argmaxes bpsolo _) as [maxnax|] eqn:Hmn; [|done]. simpl in Hs.
  apply argmaxes_spec in Hmn as (Hne1 & Hsub1 & Hiff1).
  assert (NoDup maxnax) as Hnd1 by exact (sublist_NoDup _ _ Hnd Hsub1).
  destruct (one_or_several _ _ Hnd1 Hne1 Hiff1)
    as [(Hl1 & p & -> & Hsole)|(Hl1 & Hsev1)].
  { rewrite decide_True in Hs by done. injection Hs as <-.
    exists p. by left. }
  rewrite decide_False in Hs by done.
  destruct (np_take Infr bpsolo) as [fourconn|] eqn:Hf; [|done].
  simpl in Hs. apply np_take_Some in Hf as ->.
  destruct (argmaxes bpsolo _) as [maxfour|] eqn:Hmf; [|done]. simpl in Hs.
  apply argmaxes_spec in Hmf as (Hne2 & Hsub2 & Hiff2).
  assert (NoDup maxfour) as Hnd2 by exact (sublist_NoDup _ _ Hnd Hsub2).
  destruct (one_or_several _ _ Hnd2 Hne2 Hiff2)
    as [(Hl2 & p & -> & Hsole)|(Hl2 & Hsev2)].
  { rewrite decide_True in Hs by done. injection Hs as <-.
    exists p. right. by left. }
  rewrite decide_False in Hs by done.
  destruct (np_take Infr maxnax) as [fourconn'|] eqn:Hf'; [|done].
  simpl in Hs. apply np_take_Some in Hf' as ->.
  destruct (argmaxes maxnax _) as [maxfour'|] eqn:Hmf'; [|done]. simpl in Hs.
  apply argmaxes_spec in Hmf' as (Hne3 & Hsub3 & Hiff3).
  destruct (list_min maxfour') as [m|] eqn:Hmin; [|done]. simpl in Hs.
  injection Hs as <-. apply list_min_spec in Hmin as [Hmin Hleast].
  exists m. right. right. split_and!; [done|done|done|].
  assert (∀ q, q ∈ maxfour' ↔ tops_within nax four bpsolo q) as Hiff.
  { intros q. rewrite Hiff3. unfold tops_within, tops.
    setoid_rewrite Hiff1. unfold tops. naive_solver. }
  split; [by apply Hiff|]. intros q Hq. by apply Hleast, Hiff.
Qed.

Local Close Scope Z_scope.

Section Solo.
Context `{ImUtils, PySet}.

Lemma solo_seeds_cons (r : gset Z) (rs : list (gset Z)) :
  solo_seeds (r :: rs)
  = if decide (size r = 1) then set_pop r :: solo_seeds rs else solo_seeds rs.
Proof.
  unfold solo_seeds. case_decide.
  - by rewrite filter_cons_True.
  - by rewrite filter_cons_False.
Qed.

(** Every pixel of [bpsolo] is the seed of its walk, so [bpsolo] lists
    distinct pixels. *)
Lemma solo_seeds_sublist fuel Im (seeds : list Z) (bpsave : list (gset Z)) :
  mapM (λ bpi, isbp_walk_for_bps fuel Im [bpi]) seeds = Some bpsave →
  solo_seeds bpsave `sublist_of` seeds.
Proof.
  revert bpsave. induction seeds as [|s seeds IH]; intros bpsave; simpl.
  - by intros [= <-].
  - destruct (isbp_walk_for_bps fuel Im [s]) as [r|] eqn:Hr; [|done]. simpl.
    destruct (mapM _ seeds) as [rs|]; [|done]. simpl. intros [= <-].
    rewrite solo_seeds_cons. specialize (IH rs eq_refl). case_decide as H1.
    + assert (s ∈ r) as Hs.
      { apply walk_loop_bpi in Hr. apply Hr. simpl. set_solver. }
      assert (set_pop r ∈ r) as Hp by (apply set_pop_elem; set_solver).
      rewrite (size_singleton_inv r (set_pop r) s H1 Hp Hs).
      by apply sublist_skip.
    + by apply sublist_cons.
Qed.

Lemma solo_seeds_NoDup fuel Ic bpsave :
  seed_walks fuel Ic = Some bpsave → NoDup (solo_seeds bpsave).
Proof.
  intros Hw%solo_seeds_sublist. eapply sublist_NoDup; [|done].
  apply NoDup_set_list.
Qed.

(** C2, amended. When a walk from a single seed ends with one
    branchpoint, [isbp_parsimonious] returns one of those seeds: the only
    one with the highest [naxes]; or, when several have the highest
    [naxes], the only one with the highest [nfour] of all of them, whether
    or not its [naxes] is the highest; or else the smallest pixel among
    those with the highest [nfour] of those with the highest [naxes]. *)
Theorem isbp_parsimonious_solo fuel Ic (Icr Inar Infr : list Z)
  (bpsave : list (gset Z)) (v : bps_value) :
  seed_walks fuel Ic = Some bpsave →
  solo_seeds bpsave ≠ [] →
  isbp_parsimonious fuel Ic Icr Inar Infr = Some v →
  let bpsolo := solo_seeds bpsave in
  let nax := val_at Inar in
  let four := val_at Infr in
  ∃ p, p ∈ bpsolo ∧
    ((v = BpNested [p] ∧ sole (tops nax bpsolo) p)
     ∨ (v = BpNested [p] ∧ several (tops nax bpsolo)
        ∧ sole (tops four bpsolo) p)
     ∨ (v = BpList [p] ∧ several (tops nax bpsolo)
        ∧ several (tops four bpsolo)
        ∧ layered_choice nax four bpsolo p)).
Proof.
  intros Hw Hne Hv. unfold isbp_parsimonious in Hv. rewrite Hw in Hv.
  simpl in Hv. rewrite decide_True in Hv.
  2: { destruct (solo_seeds bpsave); [done|simpl; lia]. }
  pose proof (solo_seeds_NoDup _ _ _ Hw) as Hnd.
  destruct (solo_choice_spec _ _ _ _ Hnd Hv) as [p Hp].
  exists p. split; [|done].
  destruct Hp as [(_ & [Hp _] & _)|[(_ & _ & [Hp _] & _)|(_ & _ & _ & [[Hp _] _] & _)]];
    apply Hp.
Qed.
End Solo.

(** C2 as the specification words it fails, on the window [plus_cross].
    The five pixels of connectivity 4 are the candidates, and the walk
    from each of them ends with that pixel alone. The four pixels next to
    the crossing share the highest [naxes], 3; [isbp_parsimonious] returns
    the crossing 24, whose [naxes] is 2, because it alone has the highest
    [nfour] of all five. The choice the specification words would be the
    pixel 17. *)
Lemma isbp_parsimonious_plus_cross :
  let nax := val_at (ravel plus_Ina) in
  let four := val_at (ravel plus_Inf) in
  im_connectivity plus_cross = plus_Ic
  ∧ naxes_connectivity plus_cross = Some plus_Ina
  ∧ nfour_connectivity plus_cross = plus_Inf
  ∧ ∃ bpsave,
      seed_walks 50 plus_Ic = Some bpsave
      ∧ solo_seeds bpsave = [31; 23; 25; 17; 24]%Z
      ∧ isbp_parsimonious 50 plus_Ic (ravel plus_Ic) (ravel plus_Ina)
          (ravel plus_Inf) = Some (BpNested [24%Z])
      ∧ nax 24%Z = 2%Z ∧ nax 17%Z = 3%Z ∧ four 24%Z = 4%Z ∧ four 17%Z = 2%Z
      ∧ ¬ layered_choice nax four (solo_seeds bpsave) 24%Z
      ∧ layered_choice nax four (solo_seeds bpsave) 17%Z.
Proof.
  intros nax four.
  split; [by vm_compute|]. split; [by vm_compute|]. split; [by vm_compute|].
  exists [{[31%Z]}; {[23%Z]}; {[25%Z]}; {[17%Z]}; {[24%Z]}].
  split; [by vm_compute|].
  assert (solo_seeds [{[31%Z]}; {[23%Z]}; {[25%Z]}; {[17%Z]}; {[24%Z]}]
          = [31; 23; 25; 17; 24]%Z) as -> by (by vm_compute).
  split; [done|]. split; [by vm_compute|].
  repeat (split; [by vm_compute|]).
  assert (∀ q, q ∈ [31; 23; 25; 17; 24]%Z →
               q = 31%Z ∨ q = 23%Z ∨ q = 25%Z ∨ q = 17%Z ∨ q = 24%Z) as Hin.
  { intros q Hq. repeat (apply elem_of_cons in Hq as [->|Hq]); [tauto..|].
    by apply elem_of_nil in Hq. }
  assert (17%Z ∈ [31; 23; 25; 17; 24]%Z) as H17
    by (apply (bool_decide_unpack _); by vm_compute).
  split.
  - intros [[[_ Htop] _] _]. specialize (Htop 17%Z H17).
    vm_compute in Htop. by apply Htop.
  - split; [split; [split; [done|]|]|].
    + intros q Hq. destruct (Hin q Hq) as [->|[->|[->|[->| ->]]]];
        by vm_compute.
    + intros q [Hq Htop].
      destruct (Hin q Hq) as [->|[->|[->|[->| ->]]]]; [by vm_compute..|].
      specialize (Htop 17%Z H17). vm_compute in Htop. by destruct Htop.
    + intros q [[Hq Htop] _].
      destruct (Hin q Hq) as [->|[->|[->|[->| ->]]]]; [lia..|].
      specialize (Htop 17%Z H17). vm_compute in Htop. by destruct Htop.
Qed.

(** ** [cant_walk] *)

Section CantWalk.
Context `{ImUtils, PySet}.
Local Arguments walkable_neighbors : simpl never.
Local Arguments cant_walk_step : simpl never.
Local Arguments bp_cluster : simpl never.

Lemma add_emanators_spec Iskel (bps : list Z) (acc r : gset Z) :
  add_emanators Iskel acc bps = Some r →
  ∀ x, x ∈ r ↔
    x ∈ acc ∨ ∃ b wn, b ∈ bps ∧ walkable_neighbors [b] Iskel = Some wn ∧ x ∈ wn.
Proof.
  unfold add_emanators. revert acc.
  induction bps as [|b bps IH]; intros acc.
  - intros [= <-] x. split; [auto|].
    intros [?|(b & wn & Hb & _)]; [done|]. by apply elem_of_nil in Hb.
  - rewrite foldlM_cons. intros (w1 & Hs & Hr)%bind_Some.
    apply bind_Some in Hs as (wn & Hwn & [= <-]).
    intros x. rewrite (IH _ Hr), elem_of_union. split.
    + intros [[?|?]|(b' & wn' & Hb' & ? & ?)]; [by left| |].
      * right. exists b, wn. split_and!; [left|done|done].
      * right. exists b', wn'. split_and!; [by right|done|done].
    + intros [?|(b' & wn' & Hb' & Hwn' & ?)]; [by left; left|].
      apply elem_of_cons in Hb' as [->|Hb'].
      * left. right. congruence.
      * right. by exists b', wn'.
Qed.

Lemma cant_walk_step_spec links origin (w w' : gset Z) cl :
  cant_walk_step links origin w cl = Some w' →
  ∀ x, x ∈ w' ↔ x ∈ w ∨ adds links origin cl x.
Proof.
  unfold cant_walk_step, adds. intros (ch & Hch & Hs)%bind_Some.
  apply bind_Some in Hs as (first & Hh & Hs). rewrite Hch.
  case_decide as Hf; injection Hs as <-; intros x; rewrite elem_of_union,
    elem_of_list_to_set.
  - subst. split; [intros [?|?]; [by left|right; eauto]|].
    intros [?|(ch' & [= <-] & [[_ ?]|[? _]])]; [by left|by right|done].
  - split; [intros [?|?]; [by left|right]|].
    + exists ch. split; [done|]. right. split; [congruence|done].
    + intros [?|(ch' & [= <-] & [[? _]|[_ ?]])]; [by left|congruence|by right].
Qed.

Lemma cant_walk_loop_spec links origin (conn : list Z) (w r : gset Z) :
  foldlM (cant_walk_step links origin) w conn = Some r →
  ∀ x, x ∈ r ↔ x ∈ w ∨ ∃ cl, cl ∈ conn ∧ adds links origin cl x.
Proof.
  revert w. induction conn as [|cl conn IH]; intros w.
  - intros [= <-] x. split; [auto|].
    intros [?|(cl & Hcl & _)]; [done|]. by apply elem_of_nil in Hcl.
  - rewrite foldlM_cons. intros (w1 & Hs & Hr)%bind_Some.
    intros x.
    rewrite (IH _ Hr), (cant_walk_step_spec _ _ _ _ _ Hs). split.
    + intros [[?|?]|(cl' & Hcl' & ?)]; [by left| |].
      * right. exists cl. split; [left|done].
      * right. exists cl'. split; [by right|done].
    + intros [?|(cl' & Hcl' & ?)]; [by left; left|].
      apply elem_of_cons in Hcl' as [->|Hcl']; [by left; right|].
      right. by exists cl'.
Qed.

(** C5, amended. [cant_walk] returns exactly: the cluster of the origin
    pixel; the walkable neighbours of every pixel of the cluster; and,
    for every link in the connectivity list of the origin node, the link
    that is about to be walked included, its pixel chain without the last
    pixel when the chain starts at the origin pixel, and its pixel chain
    without the first pixel when it does not (a link that entered the
    node). *)
Theorem cant_walk_exact wfuel fuel links linkidx nodes Iskel
  (walked : gset Z) :
  cant_walk wfuel fuel links linkidx nodes Iskel = Some walked →
  ∃ chain origin bps nodeidx connlinks,
    l_idx links !! linkidx = Some chain
    ∧ head chain = Some origin
    ∧ bp_cluster wfuel fuel [origin] Iskel = Some bps
    ∧ py_index origin (n_idx nodes) = Some nodeidx
    ∧ n_conn nodes !! nodeidx = Some connlinks
    ∧ ∀ x, x ∈ walked ↔
        x ∈ bps
        ∨ (∃ b wn, b ∈ bps ∧ walkable_neighbors [b] Iskel = Some wn ∧ x ∈ wn)
        ∨ (∃ cl ch, cl ∈ connlinks ∧ link_chain links cl = Some ch
             ∧ ((head ch = Some origin ∧ x ∈ but_last ch)
                ∨ (head ch ≠ Some origin ∧ x ∈ but_first ch))).
Proof.
  unfold cant_walk. intros (chain & Hchain & Hc)%bind_Some.
  apply bind_Some in Hc as (origin & Horigin & Hc).
  apply bind_Some in Hc as (bps & Hbps & Hc).
  apply bind_Some in Hc as (w & Hw & Hc).
  apply bind_Some in Hc as (nodeidx & Hnodeidx & Hc).
  apply bind_Some in Hc as (connlinks & Hconn & Hc).
  exists chain, origin, bps, nodeidx, connlinks. split_and!; try done.
  intros x. rewrite (cant_walk_loop_spec _ _ _ _ _ Hc).
  rewrite (add_emanators_spec _ _ _ _ Hw), elem_of_list_to_set.
  unfold adds. naive_solver.
Qed.
End CantWalk.

(** C5 as the specification words it fails on the raster with one
    junction: about to walk the link 1 from the junction 40, [cant_walk]
    excludes the pixel 24 of the link 0, which entered the junction, while
    24 is neither in the cluster, nor an emanator, nor on a link walked
    away from the junction. *)
Lemma cant_walk_counts_entering_link :
  ∃ A B : gset Z,
    cant_walk 5 5 Y_links 1 Y_nodes Y_raster = Some A
    ∧ cant_walk_spec 5 5 Y_links 1 Y_nodes Y_raster = Some B
    ∧ 24%Z ∈ A ∧ 24%Z ∉ B.
Proof.
  eexists _, _. split_and!.
  - vm_compute. reflexivity.
  - vm_compute. reflexivity.
  - by vm_compute.
  - by vm_compute.
Qed.

(** ** [handle_bp] at a known node *)

Lemma list_alter_same {A} (f : A → A) (l : list A) (i : nat) :
  (∀ x, l !! i = Some x → f x = x) → alter f i l = l.
Proof.
  revert i. induction l as [|y l IH]; intros [|i] Hf; simpl; [done..| |].
  - f_equal. by apply Hf.
  - f_equal. by apply IH.
Qed.

(** [link_updater] on a link that exists, without pixels: the node is
    appended to its pair and nothing else changes. *)
Lemma link_updater_conn links linkid i k :
  py_index linkid (l_id links) = Some i →
  link_updater links linkid None k
  = mkLinks (l_id links) (l_idx links) (alter (λ c, c ++ [k]) i (l_conn links)).
Proof.
  intros Hi. unfold link_updater. rewrite Hi. simpl. f_equal.
  apply list_alter_same. by intros ch _.
Qed.

(** [node_updater] at a pixel that is a node: the link is added to the
    list of that node, unless it is there, and nothing else changes. *)
Lemma node_updater_known nodes idx linkid k :
  py_index idx (n_idx nodes) = Some k →
  node_updater nodes idx linkid
  = mkNodes (n_idx nodes)
      (alter (λ c, if decide (linkid ∈ c) then c else c ++ [linkid]) k
             (n_conn nodes)).
Proof. intros Hk. unfold node_updater. by rewrite Hk. Qed.

(** C7. At a pixel that is already a node, [handle_bp] returns, with any
    fuel: [linkid] has left the pending set and nothing has entered it;
    the ids and the pixel chains of the links are unchanged, so no link
    was created; the node is appended to the pair of [linkid] and no other
    pair changes; no node is added, [linkid] is in the connectivity list
    of the node, and no other connectivity list changes. *)
Theorem handle_bp_known_node `{ImUtils, PySet} (wfuel fuel : nat)
  (linkid bpnode : Z) nodes links (links2do : Pending) Iskel :
  bpnode ∈ n_idx nodes → linkid ∈ links2do → linkid ∈ l_id links →
  ∃ k i links2do',
    py_index bpnode (n_idx nodes) = Some k
    ∧ py_index linkid (l_id links) = Some i
    ∧ py_remove linkid links2do = Some links2do'
    ∧ handle_bp wfuel fuel linkid bpnode nodes links links2do Iskel
      = Some (mkLinks (l_id links) (l_idx links)
                      (alter (λ c, c ++ [k]) i (l_conn links)),
              mkNodes (n_idx nodes)
                      (alter (λ c, if decide (linkid ∈ c) then c
                                   else c ++ [linkid]) k (n_conn nodes)),
              links2do')
    ∧ (∀ x, x ∈ links2do' → x ∈ links2do)
    ∧ (∀ c, n_conn nodes !! k = Some c →
         ∃ c', alter (λ c, if decide (linkid ∈ c) then c else c ++ [linkid])
                     k (n_conn nodes) !! k = Some c' ∧ linkid ∈ c')
    ∧ (∀ j, j ≠ k →
         alter (λ c, if decide (linkid ∈ c) then c else c ++ [linkid])
               k (n_conn nodes) !! j = n_conn nodes !! j)
    ∧ (∀ j, j ≠ i →
         alter (λ c, c ++ [k]) i (l_conn links) !! j = l_conn links !! j).
Proof.
  intros Hnode Hpend Hlink.
  destruct (py_index_is_Some _ _ Hnode) as [k Hk].
  destruct (py_index_is_Some _ _ Hlink) as [i Hi].
  destruct (py_remove_is_Some _ _ Hpend) as [links2do' Hrem].
  exists k, i, links2do'. split_and!; try done.
  - unfold handle_bp. rewrite Hrem. simpl. rewrite Hi. simpl.
    rewrite (node_updater_known _ _ _ _ Hk). simpl. rewrite Hk. simpl.
    rewrite (link_updater_conn _ _ _ _ Hi).
    by rewrite bool_decide_eq_true_2.
  - intros x Hx. rewrite py_remove_index in Hrem.
    destruct (py_index linkid links2do) as [j|]; [|done].
    injection Hrem as <-. by eapply list_subseteq_delete.
  - intros c Hc. rewrite list_lookup_alter_eq, Hc. simpl. eexists. split; [done|].
    case_decide; [done|]. set_solver.
  - intros j Hj. by rewrite list_lookup_alter_ne.
  - intros j Hj. by rewrite list_lookup_alter_ne.
Qed.

(** ** [handle_bp] at a new branchpoint *)

Lemma py_index_not_elem {A} `{EqDecision A} (x : A) l :
  x ∉ l → py_index x l = None.
Proof.
  intros Hx. destruct (py_index x l) as [i|] eqn:Hi; [|done].
  by apply py_index_elem_of in Hi.
Qed.

Lemma py_index_app_l {A} `{EqDecision A} (x : A) l l' :
  x ∈ l → py_index x (l ++ l') = py_index x l.
Proof.
  induction l as [|y l IH]; [by intros ?%elem_of_nil|]. simpl.
  intros Hx. case_decide; [done|].
  apply elem_of_cons in Hx as [|Hx]; [done|]. by rewrite IH.
Qed.

Lemma py_index_snoc_new {A} `{EqDecision A} (x : A) l :
  x ∉ l → py_index x (l ++ [x]) = Some (length l).
Proof.
  induction l as [|y l IH]; simpl; intros Hx.
  - by rewrite decide_True.
  - rewrite decide_False by set_solver. rewrite IH by set_solver. done.
Qed.

Lemma link_updater_ids links linkid idx k :
  length (l_idx links) = length (l_id links) →
  let links' := link_updater links linkid idx k in
  length (l_idx links') = length (l_id links')
  ∧ (∀ x, x ∈ l_id links → x ∈ l_id links')
  ∧ (∀ x, x ∈ l_id links → x ≠ linkid →
          link_chain links' x = link_chain links x).
Proof.
  intros Hlen. unfold link_updater.
  destruct (py_index linkid (l_id links)) as [i|] eqn:Hi; simpl.
  - split_and!; [by rewrite length_alter|done|].
    intros x Hx Hne. unfold link_chain. simpl.
    destruct (py_index x (l_id links)) as [j|] eqn:Hj; [|done]. simpl.
    rewrite list_lookup_alter_ne; [done|]. intros ->.
    apply py_index_Some in Hi as [Hi _]. apply py_index_Some in Hj as [Hj _].
    congruence.
  - split_and!; [rewrite !length_app; simpl; lia|set_solver|].
    intros x Hx Hne. unfold link_chain. simpl.
    rewrite py_index_app_l by done.
    destruct (py_index x (l_id links)) as [j|] eqn:Hj; [|done]. simpl.
    apply py_index_lt in Hj. rewrite lookup_app_l by lia. done.
Qed.

Lemma link_updater_fresh links linkid px k :
  length (l_idx links) = length (l_id links) → linkid ∉ l_id links →
  link_chain (link_updater links linkid (Some px) k) linkid = Some px.
Proof.
  intros Hlen Hfresh. unfold link_updater.
  rewrite (py_index_not_elem _ _ Hfresh). unfold link_chain. simpl.
  rewrite (py_index_snoc_new _ _ Hfresh). simpl.
  rewrite lookup_app_r by lia. by rewrite Hlen, Nat.sub_diag.
Qed.

Lemma top_plus_one_fresh (l : list Z) (top : Z) :
  list_max l = Some top → ¬ ((top + 1)%Z ∈ l).
Proof.
  intros Hm Hin. apply list_max_spec in Hm as [_ Hall].
  specialize (Hall _ Hin). lia.
Qed.

(** One round of the loops over [fourconn] and [diagconn]. *)
Lemma issue_link_step links nodes pend p links' nodes' pend' :
  issue_link (links, nodes, pend) p = Some (links', nodes', pend') →
  pending_ok links pend →
  pending_ok links' pend'
  ∧ (∀ x, x ∈ l_id links → x ∈ l_id links')
  ∧ (∀ x, x ∈ l_id links → link_chain links' x = link_chain links x)
  ∧ (pend' = pend
     ∨ ∃ a, pend' = pend ++ [a] ∧ ¬ (a ∈ l_id links)
            ∧ link_chain links' a = Some [p.1; p.2]).
Proof.
  unfold issue_link. intros Hs [Hlen Hpend].
  apply bind_Some in Hs as (nodeidx & _ & Hs).
  apply bind_Some in Hs as (donelinks & _ & Hs).
  apply bind_Some in Hs as ([|] & _ & Hs).
  { injection Hs as <- <- <-. split_and!; [done|done|done|by left]. }
  apply bind_Some in Hs as (top & Htop & Hs).
  apply bind_Some in Hs as (k & _ & Hs). injection Hs as <- <- <-.
  pose proof (top_plus_one_fresh _ _ Htop) as Hfresh.
  destruct (link_updater_ids links (top + 1)%Z (Some [p.1; p.2]) k Hlen)
    as (Hlen' & Hids & Hchains).
  assert ((top + 1)%Z ∈ l_id (link_updater links (top + 1)%Z
                                (Some [p.1; p.2]) k)) as Hnew.
  { unfold link_updater. rewrite (py_index_not_elem _ _ Hfresh). simpl.
    set_solver. }
  assert ((top + 1)%Z ∉ pend) as Hnp by (intros ?%Hpend; done).
  unfold pending_add. rewrite decide_False by done.
  split_and!.
  - split; [done|]. intros x [Hx|Hx]%elem_of_app.
    + by apply Hids, Hpend.
    + apply list_elem_of_singleton in Hx as ->. done.
  - done.
  - intros x Hx. apply Hchains; [done|]. intros ->. done.
  - right. exists (top + 1)%Z. split_and!; [done|done|].
    by apply link_updater_fresh.
Qed.

Lemma issue_link_loop (ps : list (Z * Z)) links nodes pend links' nodes' pend' :
  foldlM issue_link (links, nodes, pend) ps = Some (links', nodes', pend') →
  pending_ok links pend →
  pending_ok links' pend'
  ∧ (∀ x, x ∈ l_id links → x ∈ l_id links')
  ∧ (∀ x, x ∈ l_id links → link_chain links' x = link_chain links x)
  ∧ ∃ new, pend' = pend ++ new
      ∧ ∀ a, a ∈ new →
          ¬ (a ∈ l_id links)
          ∧ ∃ p, p ∈ ps ∧ link_chain links' a = Some [p.1; p.2].
Proof.
  revert links nodes pend.
  induction ps as [|p ps IH]; intros links nodes pend.
  - intros [= <- <- <-] Hok. split_and!; [done|done|done|].
    exists []. rewrite app_nil_r. split; [done|].
    intros a Ha. by apply elem_of_nil in Ha.
  - rewrite foldlM_cons. intros Hb Hok.
    apply bind_Some in Hb as ([[links1 nodes1] pend1] & Hs & Hr).
    destruct (issue_link_step _ _ _ _ _ _ _ Hs Hok)
      as (Hok1 & Hids1 & Hch1 & Hnew1).
    destruct (IH _ _ _ Hr Hok1) as (Hok' & Hids' & Hch' & new & -> & Hnew).
    split_and!; [done|by auto| |].
    { intros x Hx. rewrite Hch' by auto. by apply Hch1. }
    destruct Hnew1 as [->|(a & -> & Ha & Hcha)].
    + exists new. split; [done|]. intros a Ha.
      destruct (Hnew a Ha) as (Hfresh & q & Hq & Hchq). split.
      * intros ?. apply Hfresh. by apply Hids1.
      * exists q. split; [by right|done].
    + exists (a :: new). split; [by rewrite <- app_assoc|].
      intros a' [->|Ha']%elem_of_cons.
      * split; [done|]. exists p. split; [left|].
        rewrite Hch'; [done|]. destruct Hok1 as [_ Hp1]. apply Hp1.
        set_solver.
      * destruct (Hnew a' Ha') as (Hfresh & q & Hq & Hchq). split.
        -- intros ?. apply Hfresh. by apply Hids1.
        -- exists q. split; [by right|done].
Qed.

(** The loop over [bp_pairs] keeps the lists parallel and no id is
    lost. *)
Lemma join_pair_loop (bs : list (list Z)) links nodes links' nodes' :
  foldlM join_pair (links, nodes) bs = Some (links', nodes') →
  length (l_idx links) = length (l_id links) →
  length (l_idx links') = length (l_id links')
  ∧ ∀ x, x ∈ l_id links → x ∈ l_id links'.
Proof.
  revert links nodes. induction bs as [|b bs IH]; intros links nodes.
  - by intros [= <- <-] Hlen.
  - rewrite foldlM_cons. intros Hb Hlen.
    apply bind_Some in Hb as ([links1 nodes1] & Hs & Hr).
    unfold join_pair in Hs.
    apply bind_Some in Hs as (top & _ & Hs).
    apply bind_Some in Hs as (b0 & _ & Hs).
    apply bind_Some in Hs as (b1 & _ & Hs).
    apply bind_Some in Hs as (k0 & _ & Hs).
    apply bind_Some in Hs as (k1 & _ & Hs). injection Hs as <- <-.
    destruct (link_updater_ids links (top + 1)%Z (Some b) k0 Hlen)
      as (Hlen1 & Hids1 & _).
    destruct (link_updater_ids _ (top + 1)%Z None k1 Hlen1)
      as (Hlen2 & Hids2 & _).
    destruct (IH _ _ Hr Hlen2) as [Hlen' Hids']. split; [done|]. auto.
Qed.

Lemma elem_of_conn_pairs (offs bp em : list Z) (b e : Z) :
  (b, e) ∈ conn_pairs offs bp em
  ↔ b ∈ bp ∧ e ∈ em ∧ Z.abs (b - e) ∈ offs.
Proof.
  unfold conn_pairs. rewrite list_elem_of_bind. split.
  - intros (b' & Hin & Hb'). apply list_elem_of_bind in Hin as (e' & Hin & He').
    case_decide; [|by apply elem_of_nil in Hin].
    apply list_elem_of_singleton in Hin as [= -> ->]. done.
  - intros (Hb & He & Ho). exists b. split; [|done].
    apply list_elem_of_bind. exists e. split; [|done].
    rewrite decide_True by done. left.
Qed.

(** C8. When [handle_bp] resolves a new branchpoint, the pending set it
    returns is the old one without [linkid], then the new links whose
    first step goes along a row or a column, then the new links whose
    first step goes along a diagonal. *)
Theorem handle_bp_four_first `{ImUtils, PySet} (wfuel fuel : nat)
  (linkid bpnode : Z) nodes links (links2do : Pending) Iskel
  links' nodes' (links2do' : Pending) :
  handle_bp wfuel fuel linkid bpnode nodes links links2do Iskel
  = Some (links', nodes', links2do') →
  bpnode ∉ n_idx nodes →
  length (l_idx links) = length (l_id links) →
  (∀ x, x ∈ links2do → x ∈ l_id links) →
  let ncols := (shape Iskel).2 in
  ∃ rest new4 newd,
    py_remove linkid links2do = Some rest
    ∧ links2do' = rest ++ new4 ++ newd
    ∧ (∀ a, a ∈ new4 →
         ¬ (a ∈ l_id links)
         ∧ ∃ b e, link_chain links' a = Some [b; e] ∧ four_step ncols b e)
    ∧ (∀ a, a ∈ newd →
         ¬ (a ∈ l_id links)
         ∧ ∃ b e, link_chain links' a = Some [b; e]
                  ∧ diag_step ncols b e ∧ ¬ four_step ncols b e).
Proof.
  intros Hh Hnew Hlen Hpend ncols. unfold handle_bp in Hh.
  apply bind_Some in Hh as (rest & Hrest & Hh).
  apply bind_Some in Hh as (linkidx & Hidx & Hh).
  apply bind_Some in Hh as (k & Hk & Hh).
  rewrite bool_decide_eq_false_2 in Hh by done.
  apply bind_Some in Hh as (bp & Hbp & Hh).
  apply bind_Some in Hh as (em & Hem & Hh).
  apply bind_Some in Hh as (chain & Hchain & Hh).
  apply bind_Some in Hh as (bp_pairs & Hpairs & Hh).
  apply bind_Some in Hh as ([links1 nodes1] & Hjoin & Hh).
  apply bind_Some in Hh as ([[links2 nodes2] pend2] & Hfour & Hdiag).
  simpl in Hfour.
  destruct (link_updater_ids links linkid None k Hlen) as (Hlen0 & Hids0 & _).
  destruct (join_pair_loop _ _ _ _ _ Hjoin Hlen0) as [Hlen1 Hids1].
  assert (pending_ok links1 rest) as Hok1.
  { split; [done|]. intros x Hx. apply Hids1, Hids0, Hpend.
    rewrite py_remove_index in Hrest.
    destruct (py_index linkid links2do) as [j|]; [|done].
    injection Hrest as <-. by eapply list_subseteq_delete. }
  destruct (issue_link_loop _ _ _ _ _ _ _ Hfour Hok1)
    as (Hok2 & Hids2 & Hch2 & new4 & -> & Hnew4).
  destruct (issue_link_loop _ _ _ _ _ _ _ Hdiag Hok2)
    as (Hok' & Hids' & Hch' & newd & -> & Hnewd).
  exists rest, new4, newd. split_and!; [done|by rewrite app_assoc| |].
  - intros a Ha. destruct (Hnew4 a Ha) as (Hfresh & [b e] & Hp & Hc).
    split; [intros ?; apply Hfresh; auto|].
    exists b, e. split.
    + rewrite Hch'; [done|]. destruct Hok2 as [_ Hp2]. apply Hp2. set_solver.
    + apply elem_of_conn_pairs in Hp. tauto.
  - intros a Ha. destruct (Hnewd a Ha) as (Hfresh & [b e] & Hp & Hc).
    split; [intros ?; apply Hfresh; auto|].
    exists b, e. split; [done|].
    apply elem_of_conn_pairs in Hp as (Hb & He & Ho). split; [done|].
    apply list_elem_of_filter in He as [Hrem He]. intros H4. apply Hrem.
    apply list_elem_of_fmap. exists (b, e). split; [done|].
    apply elem_of_conn_pairs. done.
Qed.

(** ** [check_dup_links] *)

Lemma occ_filter_ne {A} `{EqDecision A} (x y : A) (l : list A) :
  y ≠ x → occ y (filter (λ z, z ≠ x) l) = occ y l.
Proof.
  intros Hne. unfold occ. induction l as [|z l IH]; [done|].
  destruct (decide (z = x)) as [->|Hz].
  - rewrite (filter_cons_False (λ z, z ≠ x)) by naive_solver.
    rewrite (filter_cons_False (λ z, z = y)) by naive_solver. done.
  - rewrite (filter_cons_True (λ z, z ≠ x)) by done.
    destruct (decide (z = y)) as [->|Hzy].
    + rewrite !(filter_cons_True (λ z, z = y)) by done. simpl. by rewrite IH.
    + rewrite !(filter_cons_False (λ z, z = y)) by done. done.
Qed.

Lemma elem_of_delete_NoDup {A} (l : list A) (i : nat) (x y : A) :
  NoDup l → l !! i = Some x → y ∈ delete i l ↔ y ∈ l ∧ y ≠ x.
Proof.
  intros Hnd Hi. rewrite delete_take_drop.
  pose proof (take_drop_middle l i x Hi) as Hl.
  rewrite <- Hl in Hnd. apply NoDup_app in Hnd as (_ & Hdisj & Hnd2).
  apply NoDup_cons in Hnd2 as [Hx _].
  assert (y ∈ l ↔ y ∈ take i l ∨ y = x ∨ y ∈ drop (S i) l) as ->.
  { rewrite <- Hl at 1. rewrite elem_of_app, elem_of_cons. done. }
  rewrite elem_of_app. split.
  - intros [Hy|Hy]; (split; [tauto|]); intros ->.
    + apply (Hdisj x Hy). left.
    + done.
  - intros [[?|[?|?]] ?]; tauto.
Qed.

Lemma check_dup_step_Some link L N (P : Pending) lid L' N' P' :
  check_dup_step link (L, N, P) lid = Some (L', N', P') →
  (dup_of link L lid ∧ delete_link lid L N = Some (L', N')
   ∧ P' = filter (λ x, x ≠ lid) P)
  ∨ (¬ dup_of link L lid ∧ L' = L ∧ N' = N ∧ P' = P).
Proof.
  unfold check_dup_step, dup_of. intros Hs.
  apply bind_Some in Hs as (ch & Hch & Hs). case_decide as Hm.
  - apply bind_Some in Hs as ([L1 N1] & Hd & [= <- <- <-]).
    left. split_and!; [|done|done]. eauto.
  - injection Hs as <- <- <-. right. split_and!; [|done..].
    intros (ch' & Hch' & Hm'). congruence.
Qed.

Section DupLoop.
Variable link : list Z.

(** The loop of [check_dup_links] over the candidates [cand]: the links
    it deletes are the candidates that pass the test, and it touches
    nothing else. *)
Lemma check_dup_loop (cand : list Z) L N (P : Pending) L' N' P' :
  foldlM (check_dup_step link) (L, N, P) cand = Some (L', N', P') →
  NoDup cand → NoDup (l_id L) →
  let del := λ x, x ∈ cand ∧ dup_of link L x in
  (∀ x, x ∈ l_id L' ↔ x ∈ l_id L ∧ ¬ del x)
  ∧ (∀ x, ¬ del x →
       link_chain L' x = link_chain L x ∧ link_conn L' x = link_conn L x)
  ∧ (∀ x, x ∈ P' ↔ x ∈ P ∧ ¬ del x)
  ∧ P' `sublist_of` P
  ∧ n_idx N' = n_idx N
  ∧ ∀ n c, n_conn N !! n = Some c →
      ∃ c', n_conn N' !! n = Some c'
        ∧ c' `sublist_of` c
        ∧ (∀ y, ¬ del y → occ y c' = occ y c)
        ∧ (∀ y pr, del y → link_conn L y = Some pr →
                   occ y c' + occ n pr = occ y c).
Proof.
  revert L N P. induction cand as [|lid rest IH]; intros L N P Hf Hnd HndL del.
  - injection Hf as <- <- <-. unfold del.
    split_and!; try done.
    + intros x. rewrite elem_of_nil. tauto.
    + intros x. rewrite elem_of_nil. tauto.
    + intros n c Hc. exists c. split_and!; [done|done|done|].
      intros y pr [Hy _]. by apply elem_of_nil in Hy.
  - rewrite foldlM_cons in Hf.
    apply bind_Some in Hf as ([[L1 N1] P1] & Hs & Hr).
    apply NoDup_cons in Hnd as [Hlid Hnd].
    apply check_dup_step_Some in Hs
      as [(Hdup & Hdel & ->)|(Hndup & -> & -> & ->)].
    + (* the candidate is deleted *)
      pose proof (λ o, delete_link_other _ _ _ _ _ o Hdel) as Hother.
      apply delete_link_Some in Hdel
        as (i & pair & Hi & Hp & Hid & _ & _ & Hnidx & Hunl).
      pose proof (py_index_Some _ _ _ Hi) as [Hat _].
      assert (NoDup (l_id L1)) as HndL1.
      { rewrite Hid. eapply sublist_NoDup; [done|apply sublist_delete]. }
      assert (∀ x, x ∈ l_id L1 ↔ x ∈ l_id L ∧ x ≠ lid) as Hids.
      { intros x. rewrite Hid. by apply elem_of_delete_NoDup. }
      assert (∀ x, x ≠ lid → dup_of link L1 x ↔ dup_of link L x) as Hsame.
      { intros x Hx. unfold dup_of. destruct (Hother x Hx) as [-> _]. done. }
      assert (∀ x, del x ↔ x = lid ∨ (x ∈ rest ∧ dup_of link L1 x)) as Hdel'.
      { intros x. unfold del. rewrite elem_of_cons. split.
        - intros [[->|Hx] Hd]; [by left|]. right. split; [done|].
          apply Hsame; [|done]. intros ->. done.
        - intros [->|[Hx Hd]]; [split; [by left|done]|].
          split; [by right|]. apply Hsame; [|done]. intros ->. done. }
      assert (link_conn L lid = Some pair) as Hpair.
      { unfold link_conn. rewrite Hi. done. }
      destruct (IH _ _ _ Hr Hnd HndL1)
        as (Hin & Hch & HP & HsubP & Hnidx' & Hconn).
      apply unlink_fold in Hunl as [_ Hunl].
      split_and!.
      * intros x. rewrite Hin, Hids, Hdel'. tauto.
      * intros x Hx. rewrite Hdel' in Hx.
        assert (x ≠ lid) as Hne by tauto.
        destruct (Hch x) as [-> ->]; [tauto|]. by apply Hother.
      * intros x. rewrite HP, list_elem_of_filter, Hdel'. tauto.
      * etrans; [done|]. apply sublist_filter.
      * congruence.
      * intros n c Hc.
        destruct (Hunl n c Hc) as (c1 & Hc1 & Hf1 & Ho1 & _ & Hsub1).
        destruct (Hconn n c1 Hc1) as (c' & Hc' & Hsub' & Hkeep & Hlose).
        exists c'. split_and!; [done|by etrans| |].
        -- intros y Hy. rewrite Hdel' in Hy.
           assert (y ≠ lid) as Hne by tauto.
           rewrite Hkeep by tauto.
           rewrite <- (occ_filter_ne lid y c1), <- (occ_filter_ne lid y c)
             by done. by rewrite Hf1.
        -- intros y pr Hy Hpr. apply Hdel' in Hy as [->|Hy].
           ++ assert (pr = pair) as -> by congruence.
              rewrite Hkeep; [done|]. intros [? _]. done.
           ++ assert (y ≠ lid) as Hne by (intros ->; tauto).
              rewrite (Hlose y pr Hy).
              ** rewrite <- (occ_filter_ne lid y c1),
                   <- (occ_filter_ne lid y c) by done. by rewrite Hf1.
              ** destruct (Hother y Hne) as [_ ->]. done.
    + (* the candidate is kept *)
      assert (∀ x, del x ↔ x ∈ rest ∧ dup_of link L x) as Hdel'.
      { intros x. unfold del. rewrite elem_of_cons. split.
        - intros [[->|Hx] Hd]; [done|done].
        - intros [Hx Hd]. split; [by right|done]. }
      destruct (IH _ _ _ Hr Hnd HndL)
        as (Hin & Hch & HP & HsubP & Hnidx' & Hconn).
      split_and!; [| | |done|done|].
      * intros x. rewrite Hin, Hdel'. tauto.
      * intros x Hx. apply Hch. rewrite <- Hdel'. done.
      * intros x. rewrite HP, Hdel'. tauto.
      * intros n c Hc.
        destruct (Hconn n c Hc) as (c' & Hc' & Hsub' & Hkeep & Hlose).
        exists c'. split_and!; [done|done| |].
        -- intros y Hy. apply Hkeep. rewrite <- Hdel'. done.
        -- intros y pr Hy. apply Hlose. rewrite <- Hdel'. done.
Qed.
End DupLoop.

(** C3 (amended). [check_dup_links] deletes, among the other links of
    the node that the link [linkid] ends at, those whose FIRST two pixels
    are the last two pixels of the link, and no other link: their ids,
    chains and pairs leave the link collection, their ids leave the
    connectivity lists of the nodes of their pairs and the pending set,
    and everything else stays as it was. *)
Theorem check_dup_links_first_two (linkid : Z) (links : Links)
  (nodes : Nodes) (links2do : Pending) L' N' P' :
  NoDup (l_id links) →
  check_dup_links linkid links nodes links2do = Some (L', N', P') →
  ∃ link pair e cl,
    link_chain links linkid = Some link
    ∧ link_conn links linkid = Some pair
    ∧ pair !! 1 = Some e
    ∧ n_conn nodes !! e = Some cl
    ∧ let del := λ x, x ∈ cl ∧ x ≠ linkid ∧ dup_of link links x in
      (∀ x, x ∈ l_id L' ↔ x ∈ l_id links ∧ ¬ del x)
      ∧ (∀ x, ¬ del x →
           link_chain L' x = link_chain links x
           ∧ link_conn L' x = link_conn links x)
      ∧ (∀ x, x ∈ P' ↔ x ∈ links2do ∧ ¬ del x)
      ∧ P' `sublist_of` links2do
      ∧ n_idx N' = n_idx nodes
      ∧ ∀ n c, n_conn nodes !! n = Some c →
          ∃ c', n_conn N' !! n = Some c'
            ∧ c' `sublist_of` c
            ∧ (∀ y, ¬ del y → occ y c' = occ y c)
            ∧ (∀ y pr, del y → link_conn links y = Some pr →
                       occ y c' + occ n pr = occ y c).
Proof.
  intros Hnd Hc. unfold check_dup_links in Hc.
  apply bind_Some in Hc as (i & Hi & Hc).
  apply bind_Some in Hc as (link & Hlink & Hc).
  apply bind_Some in Hc as (pair & Hpair & Hc).
  apply bind_Some in Hc as (e & He & Hc).
  apply bind_Some in Hc as (cl & Hcl & Hc).
  case_decide as Hin; [|done].
  exists link, pair, e, cl.
  split_and!; [unfold link_chain; by rewrite Hi
              |unfold link_conn; by rewrite Hi|done|done|].
  apply check_dup_loop in Hc; [|apply NoDup_elements|done].
  assert (∀ x, x ∈ elements (list_to_set cl ∖ {[linkid]} : gset Z)
               ↔ x ∈ cl ∧ x ≠ linkid) as Hcand.
  { intros x. rewrite elem_of_elements. set_solver. }
  assert (∀ x, (x ∈ elements (list_to_set cl ∖ {[linkid]} : gset Z)
                ∧ dup_of link links x)
               ↔ (x ∈ cl ∧ x ≠ linkid ∧ dup_of link links x)) as Hdel.
  { intros x. rewrite Hcand. tauto. }
  destruct Hc as (Hids & Hch & HP & Hsub & Hnidx & Hconn).
  simpl. split_and!; [| | |done|done|].
  - intros x. rewrite Hids, Hdel. done.
  - intros x Hx. apply Hch. rewrite Hdel. done.
  - intros x. rewrite HP, Hdel. done.
  - intros n c Hn. destruct (Hconn n c Hn) as (c' & Hc' & Hs' & Hk & Hl).
    exists c'. split_and!; [done|done| |].
    + intros y Hy. apply Hk. rewrite Hdel. done.
    + intros y pr Hy. apply Hl. rewrite Hdel. done.
Qed.

Lemma check_dup_links_first_two_witness :
  ∃ link pair e cl,
    link_chain twin_links 0 = Some link
    ∧ link_conn twin_links 0 = Some pair
    ∧ pair !! 1 = Some e
    ∧ n_conn twin_nodes !! e = Some cl
    ∧ let del := λ x, x ∈ cl ∧ x ≠ 0%Z ∧ dup_of link twin_links x in
      (∀ x, x ∈ [0%Z] ↔ x ∈ l_id twin_links ∧ ¬ del x)
      ∧ (∀ x, ¬ del x →
           link_chain (mkLinks [0%Z] [[16; 24; 32; 40]%Z] [[0; 1]]) x
             = link_chain twin_links x
           ∧ link_conn (mkLinks [0%Z] [[16; 24; 32; 40]%Z] [[0; 1]]) x
             = link_conn twin_links x)
      ∧ (∀ x, x ∈ ([] : Pending) ↔ x ∈ [1%Z] ∧ ¬ del x)
      ∧ ([] : Pending) `sublist_of` [1%Z]
      ∧ n_idx (mkNodes [16; 40]%Z [[0%Z]; [0%Z]]) = n_idx twin_nodes
      ∧ ∀ n c, n_conn twin_nodes !! n = Some c →
          ∃ c', n_conn (mkNodes [16; 40]%Z [[0%Z]; [0%Z]]) !! n = Some c'
            ∧ c' `sublist_of` c
            ∧ (∀ y, ¬ del y → occ y c' = occ y c)
            ∧ (∀ y pr, del y → link_conn twin_links y = Some pr →
                       occ y c' + occ n pr = occ y c).
Proof.
  apply (check_dup_links_first_two 0 twin_links twin_nodes [1%Z]
           (mkLinks [0%Z] [[16; 24; 32; 40]%Z] [[0; 1]])
           (mkNodes [16; 40]%Z [[0%Z]; [0%Z]]) []).
  - apply (bool_decide_unpack _). vm_compute. exact I.
  - vm_compute. reflexivity.
Defined.

(** C3 as stated fails: the link 1 runs over the pixels of the link 0 in
    the other direction, so its last two pixels are not the last two of
    the link 0, and [check_dup_links] deletes it all the same. *)
Lemma check_dup_links_twin :
  check_dup_links 0 twin_links twin_nodes [1%Z]
    = Some (mkLinks [0%Z] [[16; 24; 32; 40]%Z] [[0; 1]],
            mkNodes [16; 40]%Z [[0%Z]; [0%Z]], [])
  ∧ ¬ dup_of_last [16; 24; 32; 40]%Z twin_links 1.
Proof.
  split; [vm_compute; reflexivity|].
  intros (ch & Hch & Hs). vm_compute in Hch. injection Hch as <-.
  revert Hs. apply (bool_decide_unpack _). vm_compute. exact I.
Qed.

(** ** [is_bp]: the trivial acceptance *)

Lemma im_get_Some (Im : image) (rc : Z * Z) (v : Z) :
  im_get Im rc = Some v ↔
  (0 ≤ rc.1)%Z ∧ (0 ≤ rc.2)%Z
  ∧ ∃ row, Im !! Z.to_nat rc.1 = Some row ∧ row !! Z.to_nat rc.2 = Some v.
Proof.
  unfold im_get. case_decide as Hrc.
  - rewrite bind_Some. naive_solver.
  - split; [done|]. intros (? & ? & _). tauto.
Qed.

Lemma im_get_im_zip (f : Z → Z → Z) (A B : list (list Z)) (rc : Z * Z) :
  im_get (im_zip f A B) rc
  = a ← im_get A rc; b ← im_get B rc; Some (f a b).
Proof.
  unfold im_get, im_zip, image. case_decide; [|done].
  rewrite lookup_zip_with.
  destruct (A !! Z.to_nat rc.1) as [ra|]; simpl; [|done].
  destruct (B !! Z.to_nat rc.1) as [rb|]; simpl.
  - rewrite lookup_zip_with. done.
  - by destruct (ra !! Z.to_nat rc.2).
Qed.

Section CountFacts.
Context {A : Type} (P : A → Prop) `{∀ x, Decision (P x)}.

Lemma filter_length_pos (l : list A) (x : A) :
  x ∈ l → P x → 0 < length (filter P l).
Proof.
  intros Hx HP.
  assert (x ∈ filter P l) as Hin by (by apply list_elem_of_filter).
  destruct (filter P l); [by apply elem_of_nil in Hin|simpl; lia].
Qed.

(** A list with at most one entry that satisfies [P] has it at one
    position. *)
Lemma filter_one_position (l : list A) (i j : nat) (a b : A) :
  length (filter P l) ≤ 1 →
  l !! i = Some a → P a → l !! j = Some b → P b → i = j.
Proof.
  revert i j. induction l as [|x l IH]; intros i j Hlen Hi Ha Hj Hb; [done|].
  destruct i as [|i], j as [|j]; [done| | |].
  - simpl in Hi, Hj. injection Hi as ->.
    rewrite filter_cons_True in Hlen by done. simpl in Hlen.
    pose proof (filter_length_pos l b (list_elem_of_lookup_2 _ _ _ Hj) Hb).
    lia.
  - simpl in Hi, Hj. injection Hj as ->.
    rewrite filter_cons_True in Hlen by done. simpl in Hlen.
    pose proof (filter_length_pos l a (list_elem_of_lookup_2 _ _ _ Hi) Ha).
    lia.
  - f_equal. apply IH; [|done..].
    destruct (decide (P x)).
    + rewrite filter_cons_True in Hlen by done. simpl in Hlen. lia.
    + rewrite filter_cons_False in Hlen by done. done.
Qed.

(** The same over the rows of an array. *)
Lemma filter_one_cell (rows : list (list A)) (r1 r2 c1 c2 : nat)
  (row1 row2 : list A) (a b : A) :
  length (filter P (concat rows)) ≤ 1 →
  rows !! r1 = Some row1 → row1 !! c1 = Some a → P a →
  rows !! r2 = Some row2 → row2 !! c2 = Some b → P b →
  r1 = r2 ∧ c1 = c2.
Proof.
  revert r1 r2. induction rows as [|row rows IH];
    intros r1 r2 Hlen Hr1 Hc1 Ha Hr2 Hc2 Hb; [done|].
  simpl in Hlen. rewrite filter_app, length_app in Hlen.
  assert (∀ r rw c x, rows !! r = Some rw → rw !! c = Some x → P x →
                      0 < length (filter P (concat rows))) as Hrest.
  { intros r rw c x Hr Hc Hx. apply (filter_length_pos _ x); [|done].
    apply list_elem_of_In, in_concat. exists rw.
    split; apply list_elem_of_In; by eapply list_elem_of_lookup_2. }
  assert (∀ c x, row !! c = Some x → P x → 0 < length (filter P row))
    as Hrow.
  { intros c x Hc Hx. apply (filter_length_pos _ x); [|done].
    by eapply list_elem_of_lookup_2. }
  destruct r1 as [|r1], r2 as [|r2]; simpl in Hr1, Hr2.
  - injection Hr1 as ->. injection Hr2 as ->. split; [done|].
    apply (filter_one_position row2 c1 c2 a b); [lia|done..].
  - injection Hr1 as ->.
    pose proof (Hrow _ _ Hc1 Ha). pose proof (Hrest _ _ _ _ Hr2 Hc2 Hb). lia.
  - injection Hr2 as ->.
    pose proof (Hrow _ _ Hc2 Hb). pose proof (Hrest _ _ _ _ Hr1 Hc1 Ha). lia.
  - destruct (IH r1 r2) as [-> ->]; [lia|done..].
Qed.
End CountFacts.

(** When [np.sum(I > 2) == 1], the entries of [I] above 2 are one
    entry. *)
Lemma count_gt2_one (Im : image) (rc1 rc2 : Z * Z) (v1 v2 : Z) :
  count_gt2 Im = 1 →
  im_get Im rc1 = Some v1 → (2 < v1)%Z →
  im_get Im rc2 = Some v2 → (2 < v2)%Z →
  rc1 = rc2.
Proof.
  unfold count_gt2, ravel. intros Hc H1 Hv1 H2 Hv2.
  apply im_get_Some in H1 as (? & ? & row1 & Hr1 & Hc1).
  apply im_get_Some in H2 as (? & ? & row2 & Hr2 & Hc2).
  destruct (filter_one_cell (λ v, 2 < v)%Z Im _ _ _ _ _ _ _ _
              ltac:(lia) Hr1 Hc1 Hv1 Hr2 Hc2 Hv2) as [Hr Hcc].
  destruct rc1 as [a1 b1], rc2 as [a2 b2]. simpl in *.
  f_equal; lia.
Qed.

Section Window.
Context `{ImUtils}.

(** The window loop leaves [Ilab[centidx]] in [w_cent]. *)
Lemma is_bp_window_cent (fuel : nat) (idx : Z) (Iskel : image)
  (size : Z * Z) (w : bp_window) :
  is_bp_window fuel idx Iskel size = Some w →
  im_get (w_Ilab w) (w_centidx w) = Some (w_cent w).
Proof.
  revert size. induction fuel as [|fuel IH]; intros size Hw; [done|].
  simpl in Hw. destruct (get_array idx Iskel size) as [[Iw ro] co].
  apply bind_Some in Hw as (lc & Hlc & Hw).
  destruct (_ || _).
  - by eapply IH.
  - injection Hw as <-. done.
Qed.

(** The two masking assignments leave an entry of [Ic] as it is where
    the label is that of the centre and the blob is on. *)
Lemma clean_Ic_kept (Ilab Ic Iblob : image) (lc c : Z) (rc : Z * Z) :
  im_get Ilab rc = Some lc → im_get Ic rc = Some c →
  im_get Iblob rc = Some 1%Z →
  im_get (clean_Ic Ilab Ic Iblob lc) rc = Some c.
Proof.
  intros Hl Hc Hb. unfold clean_Ic.
  rewrite !im_get_im_zip, Hb, Hl, Hc. simpl.
  repeat case_decide; naive_solver.
Qed.
(** An entry above 2 of the cleaned image is an entry of [Ic] at a pixel
    that carries the label of the centre and that the blob keeps. *)
Lemma clean_Ic_gt2 (Ilab Ic Iblob : image) (lc v : Z) (rc : Z * Z) :
  im_get (clean_Ic Ilab Ic Iblob lc) rc = Some v → (2 < v)%Z →
  im_get Ilab rc = Some lc ∧ im_get Ic rc = Some v
  ∧ im_get Iblob rc = Some 1%Z.
Proof.
  unfold clean_Ic. rewrite !im_get_im_zip. intros Hrc Hv.
  apply bind_Some in Hrc as (b & Hb & Hrc).
  apply bind_Some in Hrc as (c1 & Hc1 & Hrc).
  apply bind_Some in Hc1 as (lab & Hlab & Hc1).
  apply bind_Some in Hc1 as (c & Hc & Hc1).
  injection Hc1 as <-. injection Hrc as <-.
  destruct (decide (b ≠ 1%Z)) as [|Hb1]; [lia|].
  destruct (decide (lab ≠ lc ∧ (2 < c)%Z)) as [|Hl]; [lia|].
  assert (b = 1%Z) as -> by (destruct (decide (b = 1%Z)); tauto).
  assert (lab = lc) as -> by (destruct (decide (lab = lc)); tauto).
  done.
Qed.
End Window.

(** C4. Take any pixel [idx], the window that the loop of [is_bp] leaves
    around it, the blob the window is cropped to, and let the cropped and
    cleaned connectivity image have exactly one entry above 2, at [rc].
    Two facts about the helpers, which are not part of the sources, are
    taken as hypotheses: the window is centred on [idx], so that its
    connectivity image has an entry above 2 at the centre exactly when
    [idx] has at least three neighbours; and the pixels that carry the
    label of the centre are one component, so that the blob keeps all of
    them or none. Then [is_bp] answers 0 or 1, and it answers 1 if and
    only if [rc] is the centre of the window: [idx] is the one
    over-connected pixel. That the entry at the centre survives the
    cleaning is derived, not assumed. *)
Theorem is_bp_sole_candidate `{ImUtils, PySet} (fuel : nat) (idx : Z)
  (Iskel : image) (w : bp_window) (Iblob : image) (rc : Z * Z) (v : Z) :
  let Ic := clean_Ic (w_Ilab w) (w_Ic w) Iblob (w_cent w) in
  is_bp_window fuel idx Iskel (7, 7)%Z = Some w →
  crop_window w = Some Iblob →
  (3 ≤ length (get_neighbors idx Iskel)
   ↔ ∃ c, im_get (w_Ic w) (w_centidx w) = Some c ∧ (2 < c)%Z) →
  (∀ q q', im_get (w_Ilab w) q = Some (w_cent w) →
           im_get (w_Ilab w) q' = Some (w_cent w) →
           im_get Iblob q = Some 1%Z → im_get Iblob q' = Some 1%Z) →
  count_gt2 Ic = 1 →
  im_get Ic rc = Some v → (2 < v)%Z →
  (is_bp fuel idx Iskel = Some 0%Z ∨ is_bp fuel idx Iskel = Some 1%Z)
  ∧ (is_bp fuel idx Iskel = Some 1%Z ↔ rc = w_centidx w).
Proof.
  intros Ic Hw Hcrop Hconn Hblob Hone Hrc Hv.
  pose proof (is_bp_window_cent _ _ _ _ _ Hw) as Hlab.
  destruct (clean_Ic_gt2 _ _ _ _ _ _ Hrc Hv) as (Hrl & Hrv & Hrb).
  unfold is_bp.
  destruct (decide (length (get_neighbors idx Iskel) < 3)) as [Hlt|Hge].
  - (* fewer than three neighbours: the answer is 0, and the entry above 2
       is not at the centre *)
    split; [by left|]. split; [done|].
    intros ->. exfalso.
    assert (3 ≤ length (get_neighbors idx Iskel)); [|lia].
    apply Hconn. by exists v.
  - (* at least three neighbours: the answer is 1, and the centre has an
       entry above 2 in the cleaned image, the only one *)
    rewrite Hw. simpl. rewrite Hcrop. simpl.
    fold Ic. rewrite decide_True by done.
    split; [by right|]. split; [|done]. intros _.
    destruct (proj1 Hconn ltac:(lia)) as (c & Hc & Hgt).
    pose proof (Hblob _ _ Hrl Hlab Hrb) as Hcb.
    pose proof (clean_Ic_kept _ _ _ _ _ _ Hlab Hc Hcb) as Hcent.
    exact (count_gt2_one _ _ _ _ _ Hone Hrc Hv Hcent Hgt).
Qed.

(** In the window around the pixel 40 of [fork_raster] the centre is the
    only pixel that carries the label 2. *)
Lemma fork_Ilab_centre (q : Z * Z) :
  im_get fork_Ilab q = Some 2%Z → q = (3, 3)%Z.
Proof.
  destruct q as [r c]. intros (Hr & Hc & row & Hrow & Hv)%im_get_Some.
  simpl in Hr, Hc, Hrow, Hv.
  destruct (Z.to_nat r) as [|[|[|[|[|[|[|?]]]]]]] eqn:Er;
    simpl in Hrow; try done; injection Hrow as <-;
    destruct (Z.to_nat c) as [|[|[|[|[|[|[|?]]]]]]] eqn:Ec;
    simpl in Hv; try done.
  f_equal; lia.
Qed.

Lemma is_bp_sole_candidate_witness :
  let w := fork_window in
  let Ic := clean_Ic (w_Ilab w) (w_Ic w) fork_blob (w_cent w) in
  (is_bp_window 5 40 fork_raster (7, 7)%Z = Some w
   ∧ crop_window w = Some fork_blob
   ∧ length (get_neighbors 40 fork_raster) = 3
   ∧ im_get (w_Ic w) (w_centidx w) = Some 3%Z
   ∧ count_gt2 (w_Ic w) = 2
   ∧ count_gt2 Ic = 1
   ∧ im_get Ic (3, 3)%Z = Some 3%Z)
  ∧ (is_bp 5 40 fork_raster = Some 0%Z ∨ is_bp 5 40 fork_raster = Some 1%Z)
  ∧ (is_bp 5 40 fork_raster = Some 1%Z ↔ (3, 3)%Z = w_centidx w).
Proof.
  intros w Ic. split.
  - repeat (split; [by vm_compute|]). by vm_compute.
  - apply (is_bp_sole_candidate 5 40 fork_raster fork_window fork_blob
             (3, 3)%Z 3).
    + vm_compute. reflexivity.
    + vm_compute. reflexivity.
    + split.
      * intros _. exists 3%Z. split; [by vm_compute|lia].
      * intros _. vm_compute. lia.
    + intros q q' Hq Hq' Hb.
      apply fork_Ilab_centre in Hq as ->.
      by apply fork_Ilab_centre in Hq' as ->.
    + vm_compute. reflexivity.
    + vm_compute. reflexivity.
    + lia.
Defined.

(** ** The properties on the raster with one junction *)

Lemma delete_link_frame_witness :
  let linkid := 1%Z in
  let links := Y_links in
  let nodes := Y_nodes in
  let links' := mkLinks [0; 2]%Z [[16; 24; 32; 40]; [40; 50]]%Z [[0; 1]; [1]] in
  let nodes' := mkNodes [16; 40]%Z [[0]; [0; 2]]%Z in
  delete_link linkid links nodes = Some (links', nodes')
  ∧ ∃ lid pair,
    py_index linkid (l_id links) = Some lid
    ∧ l_conn links !! lid = Some pair
    ∧ l_id links' = delete lid (l_id links)
    ∧ l_idx links' = delete lid (l_idx links)
    ∧ l_conn links' = delete lid (l_conn links)
    ∧ (∀ other, other ≠ linkid →
         link_chain links' other = link_chain links other
         ∧ link_conn links' other = link_conn links other)
    ∧ n_idx nodes' = n_idx nodes
    ∧ length (n_conn nodes') = length (n_conn nodes)
    ∧ ∀ ni c, n_conn nodes !! ni = Some c →
        ∃ c', n_conn nodes' !! ni = Some c'
              ∧ filter (λ y, y ≠ linkid) c' = filter (λ y, y ≠ linkid) c
              ∧ occ linkid c' + occ ni pair = occ linkid c
              ∧ (ni ∉ pair → c' = c).
Proof.
  intros. split; [vm_compute; reflexivity|].
  apply (delete_link_frame linkid links nodes links' nodes').
  vm_compute. reflexivity.
Defined.

Lemma isbp_walk_for_bps_seeds_witness :
  let r : gset Z := {[24%Z]} in
  isbp_walk_for_bps 50 Y_Ic [24%Z] = Some r ∧ ∀ b, b ∈ [24%Z] → b ∈ r.
Proof.
  intros. split; [vm_compute; reflexivity|].
  apply (isbp_walk_for_bps_seeds 50 Y_Ic [24%Z] r).
  vm_compute. reflexivity.
Defined.

Lemma isbp_parsimonious_solo_witness :
  let bpsave : list (gset Z) :=
    [{[31%Z]}; {[23%Z]}; {[25%Z]}; {[17%Z]}; {[24%Z]}] in
  let v := BpNested [24%Z] in
  let bpsolo := solo_seeds bpsave in
  let nax := val_at (ravel plus_Ina) in
  let four := val_at (ravel plus_Inf) in
  (seed_walks 50 plus_Ic = Some bpsave
   ∧ isbp_parsimonious 50 plus_Ic (ravel plus_Ic) (ravel plus_Ina)
       (ravel plus_Inf) = Some v
   ∧ several (tops nax bpsolo) ∧ sole (tops four bpsolo) 24%Z)
  ∧ ∃ p, p ∈ bpsolo ∧
      ((v = BpNested [p] ∧ sole (tops nax bpsolo) p)
       ∨ (v = BpNested [p] ∧ several (tops nax bpsolo)
          ∧ sole (tops four bpsolo) p)
       ∨ (v = BpList [p] ∧ several (tops nax bpsolo)
          ∧ several (tops four bpsolo)
          ∧ layered_choice nax four bpsolo p)).
Proof.
  intros bpsave v bpsolo nax four. split.
  - split; [by vm_compute|]. split; [by vm_compute|].
    change bpsolo with [31; 23; 25; 17; 24]%Z.
    assert (∀ q, q ∈ [31; 23; 25; 17; 24]%Z →
                 q = 31%Z ∨ q = 23%Z ∨ q = 25%Z ∨ q = 17%Z ∨ q = 24%Z)
      as Hin.
    { intros q Hq. repeat (apply elem_of_cons in Hq as [->|Hq]); [tauto..|].
      by apply elem_of_nil in Hq. }
    assert (∀ q, q ∈ [31; 23; 25; 17; 24]%Z → (nax q ≤ 3)%Z) as Hnax.
    { intros q Hq.
      destruct (Hin q Hq) as [->|[->|[->|[->| ->]]]]; by vm_compute. }
    assert (∀ q, q ∈ [31; 23; 25; 17; 24]%Z → (four q ≤ 4)%Z) as Hfour.
    { intros q Hq.
      destruct (Hin q Hq) as [->|[->|[->|[->| ->]]]]; by vm_compute. }
    assert (24%Z ∈ [31; 23; 25; 17; 24]%Z) as H24
      by (apply (bool_decide_unpack _); by vm_compute).
    split.
    + exists 31%Z, 23%Z. split; [|split; [|done]].
      * split; [apply (bool_decide_unpack _); by vm_compute|exact Hnax].
      * split; [apply (bool_decide_unpack _); by vm_compute|exact Hnax].
    + split; [split; [done|exact Hfour]|].
      intros q [Hq Htop]. specialize (Htop 24%Z H24).
      destruct (Hin q Hq) as [->|[->|[->|[->| ->]]]];
        [vm_compute in Htop; by destruct Htop..|done].
  - apply (isbp_parsimonious_solo 50 plus_Ic (ravel plus_Ic)
             (ravel plus_Ina) (ravel plus_Inf) bpsave v).
    + vm_compute. reflexivity.
    + vm_compute. discriminate.
    + vm_compute. reflexivity.
Defined.

Lemma cant_walk_exact_witness :
  let walked : gset Z := list_to_set [24; 32; 39; 40; 50]%Z in
  let links := Y_links in
  let nodes := Y_nodes in
  let Iskel := Y_raster in
  ∃ chain origin bps nodeidx connlinks,
    l_idx links !! 1 = Some chain
    ∧ head chain = Some origin
    ∧ bp_cluster 5 5 [origin] Iskel = Some bps
    ∧ py_index origin (n_idx nodes) = Some nodeidx
    ∧ n_conn nodes !! nodeidx = Some connlinks
    ∧ ∀ x, x ∈ walked ↔
        x ∈ bps
        ∨ (∃ b wn, b ∈ bps ∧ walkable_neighbors [b] Iskel = Some wn ∧ x ∈ wn)
        ∨ (∃ cl ch, cl ∈ connlinks ∧ link_chain links cl = Some ch
             ∧ ((head ch = Some origin ∧ x ∈ but_last ch)
                ∨ (head ch ≠ Some origin ∧ x ∈ but_first ch))).
Proof.
  intros walked links nodes Iskel.
  apply (cant_walk_exact 5 5 links 1 nodes Iskel walked).
  vm_compute. reflexivity.
Defined.

Lemma handle_bp_known_node_witness :
  let linkid := 1%Z in
  let bpnode := 16%Z in
  let nodes := Y_nodes in
  let links := Y_links in
  let links2do : Pending := [1; 2]%Z in
  ∃ k i links2do',
    py_index bpnode (n_idx nodes) = Some k
    ∧ py_index linkid (l_id links) = Some i
    ∧ py_remove linkid links2do = Some links2do'
    ∧ handle_bp 5 5 linkid bpnode nodes links links2do Y_raster
      = Some (mkLinks (l_id links) (l_idx links)
                      (alter (λ c, c ++ [k]) i (l_conn links)),
              mkNodes (n_idx nodes)
                      (alter (λ c, if decide (linkid ∈ c) then c
                                   else c ++ [linkid]) k (n_conn nodes)),
              links2do')
    ∧ (∀ x, x ∈ links2do' → x ∈ links2do)
    ∧ (∀ c, n_conn nodes !! k = Some c →
         ∃ c', alter (λ c, if decide (linkid ∈ c) then c else c ++ [linkid])
                     k (n_conn nodes) !! k = Some c' ∧ linkid ∈ c')
    ∧ (∀ j, j ≠ k →
         alter (λ c, if decide (linkid ∈ c) then c else c ++ [linkid])
               k (n_conn nodes) !! j = n_conn nodes !! j)
    ∧ (∀ j, j ≠ i →
         alter (λ c, c ++ [k]) i (l_conn links) !! j = l_conn links !! j).
Proof.
  intros linkid bpnode nodes links links2do.
  apply (handle_bp_known_node 5 5 linkid bpnode nodes links links2do Y_raster).
  - apply (bool_decide_unpack _). vm_compute. exact I.
  - apply (bool_decide_unpack _). vm_compute. exact I.
  - apply (bool_decide_unpack _). vm_compute. exact I.
Defined.

Lemma handle_bp_four_first_witness :
  let links := Y_links0 in
  let links' := Y_links in
  let links2do : Pending := [0%Z] in
  let links2do' : Pending := [1; 2]%Z in
  let ncols := (shape Y_raster).2 in
  ∃ rest new4 newd,
    py_remove 0%Z links2do = Some rest
    ∧ links2do' = rest ++ new4 ++ newd
    ∧ (∀ a, a ∈ new4 →
         ¬ (a ∈ l_id links)
         ∧ ∃ b e, link_chain links' a = Some [b; e] ∧ four_step ncols b e)
    ∧ (∀ a, a ∈ newd →
         ¬ (a ∈ l_id links)
         ∧ ∃ b e, link_chain links' a = Some [b; e]
                  ∧ diag_step ncols b e ∧ ¬ four_step ncols b e).
Proof.
  intros links links' links2do links2do'.
  apply (handle_bp_four_first 5 5 0 40 Y_nodes0 links links2do Y_raster
           links' Y_nodes links2do').
  - vm_compute. reflexivity.
  - apply (bool_decide_unpack _). vm_compute. exact I.
  - reflexivity.
  - intros x Hx. exact Hx.
Defined.

(** ** The example rasters: what the pixels see *)

Section SimpleNeighbors.
Local Open Scope Z_scope.

(** The neighbours found in a window of 3 by 3 pixels cut out of [Im] at
    row [r0] and column [c0] are on-pixels of [Im]. *)
Lemma window3_neighbors_on (Im : image) (r0 c0 H W n : Z) :
  n ∈ simple_reglobalize
        (simple_neighbors_flat 4
           (ravel
              [[px Im (r0 + 0) (c0 + 0); px Im (r0 + 0) (c0 + 1);
                px Im (r0 + 0) (c0 + 2)];
               [px Im (r0 + 1) (c0 + 0); px Im (r0 + 1) (c0 + 1);
                px Im (r0 + 1) (c0 + 2)];
               [px Im (r0 + 2) (c0 + 0); px Im (r0 + 2) (c0 + 1);
                px Im (r0 + 2) (c0 + 2)]]) 3)
        (3, 3) r0 c0 (H, W) →
  ∃ r c, px Im r c ≠ 0 ∧ n = r * W + c.
Proof.
  remember (px Im (r0 + 0) (c0 + 0)) as p00 eqn:E00.
  remember (px Im (r0 + 0) (c0 + 1)) as p01 eqn:E01.
  remember (px Im (r0 + 0) (c0 + 2)) as p02 eqn:E02.
  remember (px Im (r0 + 1) (c0 + 0)) as p10 eqn:E10.
  remember (px Im (r0 + 1) (c0 + 1)) as p11 eqn:E11.
  remember (px Im (r0 + 1) (c0 + 2)) as p12 eqn:E12.
  remember (px Im (r0 + 2) (c0 + 0)) as p20 eqn:E20.
  remember (px Im (r0 + 2) (c0 + 1)) as p21 eqn:E21.
  remember (px Im (r0 + 2) (c0 + 2)) as p22 eqn:E22.
  unfold simple_reglobalize.
  intros (i & -> & Hi)%list_elem_of_fmap.
  apply list_elem_of_omap in Hi as (d & Hd & Hf).
  unfold steps8 in Hd.
  repeat (apply elem_of_cons in Hd as [->|Hd]);
    [..|by apply elem_of_nil in Hd].
  all: cbn beta zeta iota delta [fst snd] in Hf;
    case_decide as Hrange; [|done];
    destruct (_ !! Z.to_nat _) as [v|] eqn:Hv; [|done];
    case_decide as Hv0; [done|]; injection Hf as <-;
    vm_compute in Hv; injection Hv as ->.
  all: match goal with
       | E : ?p = px _ ?r ?c, Hp : ?p ≠ 0 |- _ =>
           exists r, c; split; [by rewrite <- E|]
       end.
  all: match goal with
       | |- (?a + ?r) * ?w + (?b + ?c) = ?rhs =>
           let a' := eval vm_compute in a in
           let b' := eval vm_compute in b in
           change ((a' + r) * w + (b' + c) = rhs)
       end; cbn [snd]; lia.
Qed.

(** With the example helpers, the neighbours of a pixel are on-pixels of
    the raster. *)
Lemma simple_get_neighbors_on (Im : image) (x n : Z) :
  n ∈ get_neighbors x Im →
  ∃ r c, px Im r c ≠ 0 ∧ n = r * (shape Im).2 + c.
Proof. apply window3_neighbors_on. Qed.
End SimpleNeighbors.

Lemma twin_forks_on (r c : Z) :
  px twin_forks r c ≠ 0%Z → (r * 7 + c)%Z ∈ twin_pixels.
Proof.
  unfold px, im_get. cbn [fst snd]. case_decide as Hrc; [|done].
  destruct Hrc as [Hr Hc].
  destruct (Z.to_nat r) as [|[|[|[|[|[|[|[|?]]]]]]]] eqn:Er;
    destruct (Z.to_nat c) as [|[|[|[|[|[|[|?]]]]]]] eqn:Ec;
    unfold twin_forks; cbn; intros Hp; try done.
  all: match goal with
       | Er : Z.to_nat ?r' = ?a, Ec : Z.to_nat ?c' = ?b
         |- (?r' * 7 + ?c')%Z ∈ _ =>
           replace r' with (Z.of_nat a) by lia;
           replace c' with (Z.of_nat b) by lia
       end; apply (bool_decide_unpack _); vm_compute; exact I.
Qed.

Lemma twin_forks_is_bp (x : Z) :
  x ∈ twin_pixels → is_Some (is_bp 60 x twin_forks).
Proof.
  unfold twin_pixels. intros Hx. apply elem_of_list_to_set in Hx.
  repeat (apply elem_of_cons in Hx as [->|Hx]);
    [..|by apply elem_of_nil in Hx].
  all: vm_compute; eexists; reflexivity.
Qed.

Lemma bp_cluster_closed_witness :
  (bp_cluster 60 11 [24%Z] twin_forks = Some [24; 31]%Z
   ∧ 31%Z ∈ get_neighbors 24 twin_forks
   ∧ is_bp 60 31 twin_forks = Some 1%Z)
  ∧ ∃ cl, bp_cluster 60 11 [24%Z] twin_forks = Some cl
      ∧ 24%Z ∈ cl
      ∧ ∀ x wn n, x ∈ cl → walkable_neighbors [x] twin_forks = Some wn →
          n ∈ wn → is_bp 60 n twin_forks = Some 1%Z → n ∈ cl.
Proof.
  split.
  - split; [by vm_compute|]. split; [|by vm_compute].
    apply (bool_decide_unpack _). by vm_compute.
  - apply (bp_cluster_closed 60 11 twin_forks twin_pixels 24).
    + intros x n Hn.
      apply simple_get_neighbors_on in Hn as (r & c & Hp & ->).
      by apply twin_forks_on.
    + exact twin_forks_is_bp.
    + vm_compute. lia.
Defined.

(** With the example helpers, what [neighbors_flat] names is an entry of
    the raveled raster that is not 0. *)
Lemma simple_neighbors_flat_on (idx : Z) (Ir : list Z) (ncols n : Z) :
  n ∈ simple_neighbors_flat idx Ir ncols →
  (0 ≤ n)%Z ∧ ∃ v, Ir !! Z.to_nat n = Some v ∧ v ≠ 0%Z.
Proof.
  unfold simple_neighbors_flat.
  intros (d & _ & Hf)%list_elem_of_omap.
  cbn beta zeta in Hf. case_decide as Hrange; [|done].
  destruct (Ir !! Z.to_nat _) as [v|] eqn:Hv; [|done].
  case_decide as Hv0; [done|]. injection Hf as <-.
  split; [nia|]. by exists v.
Qed.

(** The on-pixels of the window [Y_Ic], as flat indices. *)
Lemma Y_Ic_on (n v : Z) :
  (0 ≤ n)%Z → ravel Y_Ic !! Z.to_nat n = Some v → v ≠ 0%Z →
  n ∈ (list_to_set [18; 23; 24; 32]%Z : gset Z).
Proof.
  intros Hn Hv Hv0.
  assert (Z.to_nat n < 49) as Hlt by (by apply lookup_lt_Some in Hv).
  assert (∃ k, Z.to_nat n = k ∧ k < 49) as (k & Hk & Hk49) by eauto.
  rewrite Hk in Hv. replace n with (Z.of_nat k) by lia.
  clear Hn Hlt Hk n.
  do 49 (destruct k as [|k];
         [vm_compute in Hv; injection Hv as <-;
          first [done | by apply (bool_decide_unpack _)]|]).
  lia.
Qed.

(** The walk on the window [Y_Ic] from the junction returns: the
    hypotheses of [isbp_walk_for_bps_returns] hold there. *)
Lemma isbp_walk_for_bps_returns_Y :
  is_Some (isbp_walk_for_bps 50 Y_Ic [24%Z]).
Proof.
  apply (isbp_walk_for_bps_returns (list_to_set [18; 23; 24; 32]%Z)).
  - intros idx n Hn. apply elem_of_list_to_set in Hn.
    apply simple_neighbors_flat_on in Hn as (Hn & v & Hv & Hv0).
    by eapply Y_Ic_on.
  - intros b x Hb. apply list_elem_of_singleton in Hb as ->.
    change (four_conn 24%Z Y_Ic) with [23%Z].
    change (neighbors_flat 24%Z (ravel Y_Ic) (shape Y_Ic).2)
      with [18; 23; 32]%Z.
    set_solver.
  - vm_compute. lia.
Defined.

(** * Further properties *)

(** ** [idcs_no_turnaround]: every answer is forward *)

Section TurnMore.
Import Turn.
Local Open Scope Z_scope.

(** Finds, for each index of the answer, the step that reaches it. *)
Ltac forward_step e :=
  exists e; unfold is_dir, forward, offset; simpl;
  split_and!; first [lia | discriminate].

Ltac solve_forward :=
  split; [reflexivity|];
  intros n Hin; rewrite ?elem_of_cons, elem_of_nil in Hin;
  destruct Hin as [-> | [-> | [-> | []]]];
  first [ forward_step (-1,-1) | forward_step (-1,0) | forward_step (-1,1)
        | forward_step (0,-1) | forward_step (0,1)
        | forward_step (1,-1) | forward_step (1,0) | forward_step (1,1) ].

(** X1. In a raster of at least 3 columns and after any of the eight
    steps, the step to the left included, [idcs_no_turnaround] answers
    three indices, and each of them is a neighbour of the last pixel
    reached by a step that keeps a positive component along the last
    step: no answer turns back. *)
Theorem idcs_no_turnaround_forward (ncols p : Z) (d : step) :
  3 ≤ ncols → is_dir d →
  ∃ r, idcs_no_turnaround [p; p + offset ncols d] ncols = Some r
       ∧ length r = 3%nat
       ∧ ∀ n, n ∈ r →
           ∃ e, is_dir e ∧ forward d e ∧ n = (p + offset ncols d) + offset ncols e.
Proof.
  intros Hn Hd.
  destruct (dir_cases d Hd) as [-> | [-> | [-> | [-> | [-> | [-> | [-> | ->]]]]]]];
    unfold idcs_no_turnaround, walkdirs, offset; simpl;
    repeat (case_decide; try lia); simpl; eexists; (split; [reflexivity|]);
    solve_forward.
Qed.

Lemma idcs_no_turnaround_forward_witness :
  ∃ r, idcs_no_turnaround [56; 56 + offset 10 (0, -1)] 10 = Some r
       ∧ length r = 3%nat
       ∧ ∀ n, n ∈ r →
           ∃ e, is_dir e ∧ forward (0, -1) e
                ∧ n = (56 + offset 10 (0, -1)) + offset 10 e.
Proof.
  apply (idcs_no_turnaround_forward 10 56 (0, -1)).
  - lia.
  - unfold is_dir. simpl. split_and!; (lia || discriminate).
Defined.

(** X2. [idcs_no_turnaround] answers exactly when the list holds at
    least two indices and the first minus the second is one of the eight
    differences of neighbouring flat indices; otherwise it raises (an
    [IndexError], or [walkdirs] is unbound). *)
Theorem idcs_no_turnaround_answers (idcs : list Z) (ncols : Z) :
  is_Some (idcs_no_turnaround idcs ncols) ↔
  ∃ i0 i1, idcs !! 0%nat = Some i0 ∧ idcs !! 1%nat = Some i1
    ∧ (i0 - i1) ∈ [- ncols - 1; - ncols; - ncols + 1; -1; 1;
                   ncols - 1; ncols; ncols + 1].
Proof.
  unfold idcs_no_turnaround. split.
  - intros [r Hr].
    apply bind_Some in Hr as (i0 & Hi0 & Hr).
    apply bind_Some in Hr as (i1 & Hi1 & Hr).
    apply bind_Some in Hr as (il & Hil & Hr).
    apply bind_Some in Hr as (wds & Hw & _).
    exists i0, i1. split_and!; [done..|].
    unfold walkdirs in Hw. rewrite !elem_of_cons.
    repeat (case_decide; [tauto|]). done.
  - intros (i0 & i1 & Hi0 & Hi1 & Hin).
    rewrite Hi0, Hi1. simpl.
    destruct (last idcs) as [il|] eqn:Hl.
    2: { apply last_None in Hl. by subst. }
    simpl. unfold walkdirs. rewrite !elem_of_cons, elem_of_nil in Hin.
    repeat (case_decide; [by eexists|]). exfalso. tauto.
Qed.
End TurnMore.

(** ** [bp_cluster] and [find_emanators] *)

Section ClusterMore.
Context `{ImUtils, PySet}.
Variables (wfuel : nat) (Iskel : image).

(** What [bp_cluster] has appended to [L0] when it holds [L]: pixels
    that [is_bp] marks, each a neighbour of a pixel of [L], and none
    twice. *)
Definition grown_from (L0 L : list Z) : Prop :=
  (NoDup L0 → NoDup L)
  ∧ ∀ x, x ∈ L → x ∉ L0 →
      is_bp wfuel x Iskel = Some 1%Z
      ∧ ∃ y, y ∈ L ∧ x ∈ get_neighbors y Iskel.

Lemma grown_from_refl L : grown_from L L.
Proof. split; [done|]. intros x ? ?. done. Qed.

Lemma grown_from_trans L0 L1 L2 :
  L0 ⊆ L1 → L1 ⊆ L2 →
  grown_from L0 L1 → grown_from L1 L2 → grown_from L0 L2.
Proof.
  intros H01 H12 [Hnd1 Hg1] [Hnd2 Hg2]. split; [auto|].
  intros x Hx Hx0. destruct (decide (x ∈ L1)) as [Hx1|Hx1].
  - destruct (Hg1 x Hx1 Hx0) as (Hb & y & Hy & Hn).
    split; [done|]. exists y. split; [by apply H12|done].
  - by apply Hg2.
Qed.

Lemma cluster_grown fuel bp bp' :
  bp_cluster wfuel fuel bp Iskel = Some bp' → grown_from bp bp'.
Proof.
  revert bp bp'. induction fuel as [|fuel IH]; intros bp bp'; [done|].
  rewrite (bp_cluster_S wfuel Iskel). intros Hr.
  destruct (walkable_neighbors bp Iskel) as [wn|] eqn:Hwn; [|done].
  simpl in Hr. apply walkable_neighbors_Some in Hwn as (b & Hlast & ->).
  assert (b ∈ bp) as Hb.
  { apply last_Some in Hlast as [l' ->]. set_solver. }
  assert (∀ ns L L',
    (∀ n, n ∈ ns → ∃ y, y ∈ L ∧ n ∈ get_neighbors y Iskel) →
    foldlM (cluster_step wfuel Iskel fuel) L ns = Some L' →
    grown_from L L') as Hloop.
  { clear Hr bp' Hb Hlast. induction ns as [|n ns IHns]; intros L L' Hns Hf.
    - injection Hf as <-. apply grown_from_refl.
    - rewrite foldlM_cons in Hf.
      destruct (cluster_step wfuel Iskel fuel L n) as [L1|] eqn:Hs; [|done].
      simpl in Hf.
      assert (L `prefix_of` L1 ∧ grown_from L L1) as [Hp0 Hg0].
      { unfold cluster_step in Hs.
        destruct (is_bp wfuel n Iskel) as [v|] eqn:Hv; [|done]. simpl in Hs.
        case_decide as Hv1; [case_decide as HnL|].
        - injection Hs as <-. split; [done|apply grown_from_refl].
        - pose proof (cluster_sound _ _ _ _ _ Hs) as (Hpre & _).
          apply IH in Hs as [Hnd Hg].
          split; [etrans; [|done]; by apply prefix_app_r|].
          split.
          + intros HndL. apply Hnd. apply NoDup_app. split_and!; [done| |].
            * intros x Hx ->%list_elem_of_singleton. done.
            * apply NoDup_singleton.
          + intros x Hx HxL. destruct (decide (x = n)) as [->|Hne].
            * split; [by subst|].
              destruct (Hns n) as (y & Hy & Hyn); [left|].
              exists y. split; [|done].
              eapply prefix_subseteq; [done|]. set_solver.
            * apply Hg; [done|]. set_solver.
        - injection Hs as <-. split; [done|apply grown_from_refl]. }
      assert (L1 `prefix_of` L') as Hp1.
      { clear -Hf. revert L1 Hf. induction ns as [|m ns IHm]; intros L1 Hf.
        - by injection Hf as <-.
        - rewrite foldlM_cons in Hf.
          apply bind_Some in Hf as (L2 & Hs & Hf).
          etrans; [|by apply IHm]. unfold cluster_step in Hs.
          destruct (is_bp wfuel m Iskel) as [v|]; [|done]. simpl in Hs.
          repeat case_decide; try (by injection Hs as <-).
          apply cluster_sound in Hs as (Hpre & _).
          etrans; [|done]. by apply prefix_app_r. }
      eapply grown_from_trans;
        [by apply prefix_subseteq|by apply prefix_subseteq|done|].
      apply IHns; [|done].
      intros m Hm. destruct (Hns m) as (y & Hy & Hn); [by right|].
      exists y. split; [|done]. by eapply prefix_subseteq. }
  apply (Hloop _ _ _) in Hr; [done|].
  intros n Hn%elem_of_pop_order. exists b. split; [done|].
  apply elem_of_difference in Hn as [Hn _]. by apply elem_of_list_to_set in Hn.
Qed.

(** X3. The list that [bp_cluster] returns from a seed starts with the
    seed and names no pixel twice, and every other pixel of it is one
    that [is_bp] marks as a branchpoint and a neighbour of a pixel of
    the list: the cluster holds nothing but branchpoints next to one
    another. *)
Theorem bp_cluster_only_branchpoints (fuel : nat) (seed : Z) (cl : list Z) :
  bp_cluster wfuel fuel [seed] Iskel = Some cl →
  head cl = Some seed
  ∧ NoDup cl
  ∧ ∀ x, x ∈ cl → x ≠ seed →
      is_bp wfuel x Iskel = Some 1%Z
      ∧ ∃ y, y ∈ cl ∧ x ∈ get_neighbors y Iskel.
Proof.
  intros Hcl.
  pose proof (cluster_sound _ _ _ _ _ Hcl) as ([k ->] & _).
  apply cluster_grown in Hcl as [Hnd Hg].
  split_and!; [done|apply Hnd, NoDup_singleton|].
  intros x Hx Hne. apply Hg; [done|]. set_solver.
Qed.

Local Arguments bp_cluster : simpl never.

(** X4. [find_emanators] returns exactly the neighbours of the pixels of
    the cluster of [bpnode] that are not in the cluster themselves; in
    particular [bpnode] is never one of them. *)
Theorem find_emanators_outside (fuel : nat) (bpnode : Z) (em : gset Z) :
  find_emanators wfuel fuel bpnode Iskel = Some em →
  ∃ cl,
    bp_cluster wfuel fuel [bpnode] Iskel = Some cl
    ∧ ¬ (bpnode ∈ em)
    ∧ ∀ x, x ∈ em ↔
        ¬ (x ∈ cl) ∧ ∃ b, b ∈ cl ∧ x ∈ get_neighbors b Iskel.
Proof.
  unfold find_emanators. intros (cl & Hcl & Hr)%bind_Some.
  apply bind_Some in Hr as (acc & Hacc & [= <-]).
  pose proof (cluster_sound _ _ _ _ _ Hcl) as (Hpre%prefix_subseteq & _).
  assert (bpnode ∈ cl) as Hseed by (apply Hpre; set_solver).
  pose proof (add_emanators_spec _ _ _ _ Hacc) as Hspec.
  exists cl. split_and!; [done|set_solver|].
  intros x. rewrite elem_of_difference, Hspec, elem_of_list_to_set. split.
  - intros [[Hx|(b & wn & Hb & Hwn & Hx)] Hncl]; [set_solver|].
    split; [done|]. exists b. split; [done|].
    apply walkable_neighbors_Some in Hwn as (idx & [= <-] & ->).
    apply elem_of_difference in Hx as [Hx _].
    by apply elem_of_list_to_set in Hx.
  - intros [Hncl (b & Hb & Hx)]. split; [|done].
    right. exists b, (list_to_set (get_neighbors b Iskel) ∖ list_to_set (last_two [b])).
    split_and!; [done|done|].
    apply elem_of_difference. split; [by apply elem_of_list_to_set|].
    rewrite elem_of_list_to_set. intros Hl%last_two_subseteq.
    apply list_elem_of_singleton in Hl as ->. done.
Qed.
End ClusterMore.

(** ** [delete_link]: when it returns, what it keeps *)

(** The loop over the pair ends only when every node of the pair
    exists. *)
Lemma unlink_fold_nodes linkid pair nc nc' :
  foldlM (node_unlink linkid) nc pair = Some nc' →
  ∀ ni, ni ∈ pair → is_Some (nc !! ni).
Proof.
  revert nc. induction pair as [|n pair IH]; intros nc Hf ni Hni.
  - by apply elem_of_nil in Hni.
  - rewrite foldlM_cons in Hf. apply bind_Some in Hf as (nc1 & H1 & Hf).
    apply node_unlink_Some in H1 as (c & c' & Hc & _ & ->).
    apply elem_of_cons in Hni as [->|Hni]; [by eexists|].
    destruct (IH _ Hf ni Hni) as [x Hx].
    apply lookup_lt_is_Some. apply lookup_lt_Some in Hx.
    by rewrite length_insert in Hx.
Qed.

(** X5. [delete_link] returns exactly when [linkid] is the id of a link
    that has a pixel chain and a connection pair, and every node of the
    pair exists and lists [linkid] at least as often as it stands in the
    pair. Otherwise a [list.index], [list.pop] or [list.remove] raises:
    so it does for an unknown id, and for a link from a node to itself
    that the node lists once. *)
Theorem delete_link_returns (linkid : Z) (links : Links) (nodes : Nodes) :
  is_Some (delete_link linkid links nodes) ↔
  ∃ lid pair,
    py_index linkid (l_id links) = Some lid
    ∧ is_Some (l_idx links !! lid)
    ∧ l_conn links !! lid = Some pair
    ∧ ∀ ni, ni ∈ pair →
        ∃ c, n_conn nodes !! ni = Some c ∧ occ ni pair ≤ occ linkid c.
Proof.
  split.
  - intros [[L' N'] Hd].
    assert (∃ lid, py_index linkid (l_id links) = Some lid
                   ∧ is_Some (l_idx links !! lid)) as (lid & Hlid & Hch).
    { unfold delete_link, py_pop in Hd.
      apply bind_Some in Hd as (lid & Hlid & Hd).
      apply bind_Some in Hd as (p1 & Hp1 & _).
      apply bind_Some in Hp1 as (ch & Hch & _). eauto. }
    apply delete_link_Some in Hd
      as (lid' & pair & Hi & Hp & _ & _ & _ & _ & Hf).
    assert (lid' = lid) as -> by congruence.
    exists lid, pair. split_and!; [done..|].
    intros ni Hni.
    destruct (unlink_fold_nodes _ _ _ _ Hf ni Hni) as [c Hc].
    apply unlink_fold in Hf as [_ Hall].
    destruct (Hall ni c Hc) as (c' & _ & _ & Ho & _).
    exists c. split; [done|lia].
  - intros (lid & pair & Hlid & [ch Hch] & Hp & Hall).
    destruct (unlink_fold_is_Some linkid pair (n_conn nodes) Hall) as [nc' Hf].
    unfold delete_link, py_pop. rewrite Hlid. simpl. rewrite Hch, Hp. simpl.
    rewrite py_remove_index, Hlid. simpl. rewrite Hf. simpl. by eexists.
Qed.

(** X6. On a graph whose link ids are pairwise distinct, [delete_link]
    keeps the graph well formed: the ids stay distinct, the three lists
    of [links] stay parallel, every remaining link is still listed by the
    nodes of its pair, and the deleted id is gone, so that deleting it a
    second time raises. *)
Theorem delete_link_keeps_ok (linkid : Z) (links : Links) (nodes : Nodes)
  (links' : Links) (nodes' : Nodes) :
  NoDup (l_id links) → links_ok links nodes →
  delete_link linkid links nodes = Some (links', nodes') →
  NoDup (l_id links')
  ∧ links_ok links' nodes'
  ∧ ¬ (linkid ∈ l_id links')
  ∧ delete_link linkid links' nodes' = None.
Proof.
  intros Hnd (Hl1 & Hl2 & Hok) Hd.
  apply delete_link_Some in Hd
    as (lid & pair & Hi & Hp & Hid & Hidx & Hconn & Hn & Hf).
  pose proof (py_index_Some _ _ _ Hi) as [Hat _].
  pose proof (py_index_lt _ _ _ Hi) as Hlt.
  apply unlink_fold in Hf as [Hlen Hall].
  assert (¬ (linkid ∈ l_id links')) as Hgone.
  { rewrite Hid. intros Hin.
    apply (elem_of_delete_NoDup _ _ _ _ Hnd Hat) in Hin as [_ Hne]. done. }
  split_and!.
  - rewrite Hid. eapply sublist_NoDup; [done|apply sublist_delete].
  - split_and!.
    + rewrite Hid, Hidx, !length_delete by (apply lookup_lt_is_Some; lia). lia.
    + rewrite Hid, Hconn, !length_delete by (apply lookup_lt_is_Some; lia). lia.
    + intros i y pr ni Hy Hpr Hni. rewrite Hid in Hy. rewrite Hconn in Hpr.
      assert (∃ j, l_id links !! j = Some y ∧ l_conn links !! j = Some pr)
        as (j & Hyj & Hprj).
      { destruct (decide (i < lid)) as [Hlt'|Hge].
        - exists i. rewrite list_lookup_delete_lt in Hy by done.
          rewrite list_lookup_delete_lt in Hpr by done. done.
        - exists (S i). rewrite list_lookup_delete_ge in Hy by lia.
          rewrite list_lookup_delete_ge in Hpr by lia. done. }
      assert (y ≠ linkid) as Hne.
      { intros ->. apply Hgone. rewrite Hid. by eapply list_elem_of_lookup_2. }
      destruct (Hok j y pr ni Hyj Hprj Hni) as (c & Hc & Hle).
      destruct (Hall ni c Hc) as (c' & Hc' & Hfil & _).
      exists c'. split; [done|].
      rewrite <- (occ_filter_ne linkid y c'), Hfil, occ_filter_ne by done.
      done.
  - done.
  - unfold delete_link.
    destruct (py_index linkid (l_id links')) as [k|] eqn:Hk; [|done].
    apply py_index_elem_of in Hk. done.
Qed.

Lemma delete_link_keeps_ok_witness :
  let links' := mkLinks [0; 2]%Z [[16; 24; 32; 40]; [40; 50]]%Z [[0; 1]; [1]] in
  let nodes' := mkNodes [16; 40]%Z [[0]; [0; 2]]%Z in
  NoDup (l_id links')
  ∧ links_ok links' nodes'
  ∧ ¬ (1%Z ∈ l_id links')
  ∧ delete_link 1 links' nodes' = None.
Proof.
  intros links' nodes'.
  apply (delete_link_keeps_ok 1 Y_links Y_nodes links' nodes').
  - apply (bool_decide_unpack _). vm_compute. exact I.
  - split_and!; [reflexivity|reflexivity|].
    intros i lid pair ni Hi Hp Hni.
    destruct i as [|[|[|i]]]; simpl in Hi, Hp; try done;
      injection Hi as <-; injection Hp as <-;
      repeat (apply elem_of_cons in Hni as [->|Hni]);
      try (by apply elem_of_nil in Hni);
      eexists; (split; [reflexivity|vm_compute; lia]).
  - vm_compute. reflexivity.
Defined.

(** ** [isbp_walk_for_bps]: what the walk adds *)

Section WalkMore.
Context `{ImUtils, PySet}.
Implicit Types (st : walk_state) (Im : image).

(** The pixel [b] has at least two neighbours in [Im]. *)
Definition forks (Im : image) (b : Z) : Prop :=
  2 ≤ size (list_to_set (neighbors_flat b (ravel Im) (shape Im).2) : gset Z).

Lemma walk_chain_forks fuel Im idx st st' (S0 : gset Z) :
  walk_chain fuel Im idx st = Some st' →
  (∀ b, b ∈ ws_bpi st → b ∈ S0 ∨ forks Im b) →
  ∀ b, b ∈ ws_bpi st' → b ∈ S0 ∨ forks Im b.
Proof.
  revert idx st. induction fuel as [|fuel IH]; intros idx st; simpl; [done|].
  repeat case_decide.
  - by intros [= <-].
  - by intros [= <-].
  - intros Hc Hst. by apply (IH _ _ Hc).
  - intros Hc Hst. apply (IH _ _ Hc). simpl.
    intros b [Hb| ->%elem_of_singleton]%elem_of_union; [by apply Hst|].
    right. unfold forks.
    match goal with
    | Hz : size ?n ≠ 0, Ho : size ?n ≠ 1 |- _ =>
        assert (size n ≤ size (list_to_set
                  (neighbors_flat idx (ravel Im) (shape Im).2) : gset Z))
          by (apply subseteq_size; set_solver)
    end.
    lia.
Qed.

Local Arguments walk_chain : simpl never.

Lemma walk_loop_forks fuel Im st r (S0 : gset Z) :
  walk_loop fuel Im st = Some r →
  (∀ b, b ∈ ws_bpi st → b ∈ S0 ∨ forks Im b) →
  ∀ b, b ∈ r → b ∈ S0 ∨ forks Im b.
Proof.
  revert st. induction fuel as [|fuel IH]; intros st.
  - simpl. case_decide; [|done]. by intros [= <-].
  - rewrite walk_loop_S. case_decide; [by intros [= <-]|]. intros Hl Hst.
    destruct (walk_pick st) as [[idx st1]|] eqn:Hp; simpl in Hl; [|done].
    destruct (walk_chain _ _ _ _) as [st2|] eqn:Hc; simpl in Hl; [|done].
    apply (IH _ Hl). apply (walk_chain_forks _ _ _ _ _ _ Hc).
    apply walk_pick_bpi in Hp. rewrite Hp. done.
Qed.

(** X8. A pixel that the walk returns and that is not a seed has at
    least two neighbours in the image: the walk adds a branchpoint only
    where it finds two or more pixels to go on to. *)
Theorem isbp_walk_for_bps_forks fuel Im (bpi : list Z) (r : gset Z) :
  isbp_walk_for_bps fuel Im bpi = Some r →
  ∀ b, b ∈ r → b ∈ bpi ∨ forks Im b.
Proof.
  unfold isbp_walk_for_bps. intros Hl b Hb.
  destruct (walk_loop_forks _ _ _ _ (list_to_set bpi) Hl) with (b := b)
    as [Hs|Hf]; [|done| |by right].
  - simpl. intros b' Hb'. by left.
  - left. by apply elem_of_list_to_set in Hs.
Qed.

(** X9. Without a seed there is nothing to walk from: the walk returns
    the empty set at once, whatever the image. *)
Theorem isbp_walk_for_bps_no_seed fuel Im :
  isbp_walk_for_bps fuel Im [] = Some ∅.
Proof.
  unfold isbp_walk_for_bps, walk_init. simpl.
  assert (set_list (∅ : gset Z) = []) as ->.
  { apply Permutation_nil_r. rewrite set_list_perm. by rewrite elements_empty. }
  simpl. destruct fuel; simpl; by rewrite decide_True.
Qed.
End WalkMore.

(** ** [isbp_parsimonious] past the single seeds, [is_bp] *)

(** The positions of [keeps_of]: where the three images show the
    triple. *)
Lemma elem_of_keeps_of (Icr Inar Infr : list Z) (kv : Z * Z * Z) (p : Z) :
  p ∈ keeps_of Icr Inar Infr kv ↔
  ∃ i, p = Z.of_nat i ∧ Icr !! i = Some kv.1.1 ∧ Inar !! i = Some kv.1.2
       ∧ Infr !! i = Some kv.2.
Proof.
  unfold keeps_of. rewrite list_elem_of_omap. split.
  - intros ([i [a [b c]]] & Hin & Hf).
    apply elem_of_lookup_imap in Hin as (j & y & [= -> <-] & Hy).
    simpl in Hf. case_decide as Hkv; [|done]. injection Hf as <-.
    injection Hkv as -> -> ->.
    apply lookup_zip_with_Some in Hy as (a & bc & [= <- <-] & Ha & Hbc).
    apply lookup_zip_with_Some in Hbc as (b & c & [= <- <-] & Hb & Hc).
    exists j. done.
  - intros (i & -> & Ha & Hb & Hc).
    exists (i, (kv.1.1, (kv.1.2, kv.2))). split.
    + apply (elem_of_lookup_imap_2 (λ i x, (i, x))).
      apply lookup_zip_with_Some. eexists _, _. split_and!; [done|done|].
      apply lookup_zip_with_Some. eexists _, _. done.
    + simpl. by rewrite decide_True.
Qed.

Section Parsimonious.
Context `{ImUtils, PySet}.

(** [isbp_parsimonious] past the branch of the single seeds. *)
Lemma isbp_parsimonious_no_solo fuel Ic Icr Inar Infr bpsave :
  seed_walks fuel Ic = Some bpsave → solo_seeds bpsave = [] →
  isbp_parsimonious fuel Ic Icr Inar Infr
  = if decide (0 < length (must_pixels Icr Inar Infr)) then
      BpSet <$> isbp_walk_for_bps fuel (as_bool Ic) (must_pixels Icr Inar Infr)
    else
      match size <$> bpsave with
      | [] => None
      | c :: cs =>
        let mincount := foldl Nat.min c cs in
        let minidcs :=
          omap (λ ic : nat * nat,
                  if decide (ic.2 = mincount) then Some ic.1 else None)
               (imap (λ i c, (i, c)) (size <$> bpsave)) in
        match minidcs with
        | [i] => BpSet <$> bpsave !! i
        | _ =>
          let bp_init := stats_mode (concat (set_list <$> bpsave)) in
          BpSet <$> isbp_walk_for_bps fuel (as_bool Ic) bp_init
        end
      end.
Proof.
  intros Hw Hs. unfold isbp_parsimonious, must_pixels. rewrite Hw.
  cbn [mbind option_bind]. rewrite Hs.
  rewrite (decide_False (P := 0 < length [])) by (simpl; lia). done.
Qed.

(** X10. When no walk from a single seed ends with one branchpoint,
    every pixel whose connectivity, number of axes and four-connectivity
    are one of the six triples of [keepvals] is in the set that
    [isbp_parsimonious] returns. *)
Theorem isbp_parsimonious_patterns fuel Ic (Icr Inar Infr : list Z)
  (bpsave : list (gset Z)) (v : bps_value) (i : nat) (a b c : Z) :
  seed_walks fuel Ic = Some bpsave → solo_seeds bpsave = [] →
  isbp_parsimonious fuel Ic Icr Inar Infr = Some v →
  (a, b, c) ∈ keepvals →
  Icr !! i = Some a → Inar !! i = Some b → Infr !! i = Some c →
  ∃ s, v = BpSet s ∧ Z.of_nat i ∈ s.
Proof.
  intros Hw Hs Hv Hkv Ha Hb Hc.
  rewrite (isbp_parsimonious_no_solo _ _ _ _ _ _ Hw Hs) in Hv.
  assert (Z.of_nat i ∈ must_pixels Icr Inar Infr) as Hin.
  { assert (Z.of_nat i ∈ concat (keeps_of Icr Inar Infr <$> keepvals)) as Hc'.
    { apply list_elem_of_In, in_concat.
      exists (keeps_of Icr Inar Infr (a, b, c)).
      split; apply list_elem_of_In.
      - by apply list_elem_of_fmap_2.
      - apply elem_of_keeps_of. by exists i. }
    unfold must_pixels. destruct (decide (length _ = 2)); [|done].
    set_solver. }
  rewrite decide_True in Hv.
  2: { destruct (must_pixels Icr Inar Infr); [by apply elem_of_nil in Hin|].
       simpl. lia. }
  apply fmap_Some in Hv as (s & Hwalk & ->). exists s. split; [done|].
  unfold isbp_walk_for_bps in Hwalk. apply walk_loop_bpi in Hwalk.
  apply Hwalk. simpl. by apply elem_of_list_to_set.
Qed.

(** X11. With no pixel of connectivity above 2 off the border of the
    window and no pixel that shows a pattern, [isbp_parsimonious] raises:
    [min] is given the empty list of counts. *)
Theorem isbp_parsimonious_nothing fuel Ic (Icr Inar Infr : list Z) :
  bp_poss_i Ic = [] → must_pixels Icr Inar Infr = [] →
  isbp_parsimonious fuel Ic Icr Inar Infr = None.
Proof.
  intros Hposs Hmust.
  assert (seed_walks fuel Ic = Some []) as Hw.
  { unfold seed_walks. by rewrite Hposs. }
  rewrite (isbp_parsimonious_no_solo _ _ _ _ _ _ Hw eq_refl), Hmust. done.
Qed.
End Parsimonious.

Lemma foldl_min_nat (c : nat) (cs : list nat) :
  foldl Nat.min c cs ∈ c :: cs ∧ ∀ x, x ∈ c :: cs → foldl Nat.min c cs ≤ x.
Proof.
  revert c. induction cs as [|d cs IH]; intros c; simpl.
  - split; [left|]. intros x ->%list_elem_of_singleton. done.
  - destruct (IH (c `min` d)) as [Hin Hle]. split.
    + apply elem_of_cons in Hin as [->|Hin]; [|by do 2 right].
      destruct (Nat.min_spec c d) as [[_ ->]|[_ ->]]; [left|right; left].
    + intros x Hx. rewrite !elem_of_cons in Hx.
      destruct Hx as [->|[->|Hx]].
      * etrans; [apply Hle; left|]. lia.
      * etrans; [apply Hle; left|]. lia.
      * apply Hle. by right.
Qed.

(** The positions of the one entry [m] of a list. *)
Lemma positions_of_one {A} `{EqDecision A} (l : list A) (m : A) (i : nat)
  (g : nat → nat) :
  l !! i = Some m → (∀ j, j ≠ i → l !! j ≠ Some m) →
  omap (λ ic : nat * A, if decide (ic.2 = m) then Some ic.1 else None)
       (imap (λ j c, (g j, c)) l) = [g i].
Proof.
  revert i g. induction l as [|x l IH]; intros i g Hi Hne; [done|].
  rewrite imap_cons. simpl. destruct i as [|i]; simpl in Hi.
  - injection Hi as ->. rewrite decide_True by done. f_equal.
    clear IH. assert (∀ j, l !! j ≠ Some m) as Hno.
    { intros j. apply (Hne (S j)). done. }
    clear Hne. revert g. induction l as [|y l IHl]; intros g; [done|].
    rewrite imap_cons. simpl. rewrite decide_False.
    2: { intros ->. by apply (Hno 0). }
    apply (IHl (λ j, Hno (S j))).
  - rewrite decide_False.
    2: { intros ->. by apply (Hne 0). }
    apply (IH i (g ∘ S) Hi). intros j Hj. apply (Hne (S j)). lia.
Qed.

Section Fewest.
Context `{ImUtils, PySet}.

(** X12. When no walk from a single seed ends with one branchpoint and
    no pixel shows a pattern, and one of the walks has fewer branchpoints
    than every other walk, [isbp_parsimonious] returns the set of that
    walk. *)
Theorem isbp_parsimonious_fewest fuel Ic (Icr Inar Infr : list Z)
  (bpsave : list (gset Z)) (i : nat) (s : gset Z) :
  seed_walks fuel Ic = Some bpsave → solo_seeds bpsave = [] →
  must_pixels Icr Inar Infr = [] →
  bpsave !! i = Some s →
  (∀ j s', j ≠ i → bpsave !! j = Some s' → size s < size s') →
  isbp_parsimonious fuel Ic Icr Inar Infr = Some (BpSet s).
Proof.
  intros Hw Hs Hmust Hi Hmin.
  rewrite (isbp_parsimonious_no_solo _ _ _ _ _ _ Hw Hs), Hmust. simpl.
  assert ((size <$> bpsave) !! i = Some (size s)) as Hci.
  { by rewrite list_lookup_fmap, Hi. }
  destruct (size <$> bpsave) as [|c cs] eqn:Hcs; [done|].
  destruct (foldl_min_nat c cs) as [Hin Hle].
  assert (foldl Nat.min c cs = size s) as Hm.
  { apply list_elem_of_lookup_1 in Hin as [j Hj].
    destruct (decide (j = i)) as [->|Hne]; [congruence|].
    rewrite <- Hcs, list_lookup_fmap in Hj.
    apply fmap_Some in Hj as (s' & Hs' & Hsz).
    pose proof (Hmin j s' Hne Hs').
    pose proof (Hle (size s)
                  ltac:(by eapply list_elem_of_lookup_2)). lia. }
  cbv zeta. rewrite Hm.
  rewrite (positions_of_one (c :: cs) (size s) i id Hci).
  - simpl. by rewrite Hi.
  - intros j Hj Hcj. rewrite <- Hcs, list_lookup_fmap in Hcj.
    apply fmap_Some in Hcj as (s' & Hs' & Hsz).
    pose proof (Hmin j s' Hj Hs'). lia.
Qed.

(** X13. [is_bp] answers 0 or 1, and it answers 1 only for a pixel with
    at least three neighbours. *)
Theorem is_bp_answer (fuel : nat) (idx : Z) (Iskel : image) (v : Z) :
  is_bp fuel idx Iskel = Some v →
  (v = 0 ∨ v = 1)%Z ∧ (v = 1%Z → 3 ≤ length (get_neighbors idx Iskel)).
Proof.
  unfold is_bp. case_decide as Hn.
  - intros [= <-]. split; [by left|done].
  - intros Hv. split; [|lia].
    apply bind_Some in Hv as (w & _ & Hv).
    apply bind_Some in Hv as (Ib & _ & Hv).
    case_decide; [injection Hv as <-; by right|].
    apply bind_Some in Hv as (Ina & _ & Hv).
    apply bind_Some in Hv as (bps & _ & Hv).
    injection Hv as <-. case_decide; [by right|by left].
Qed.
End Fewest.

(** ** [naxes_connectivity] *)

Lemma either_on_Some (Ir : list Z) (a b : Z) :
  (- Z.of_nat (length Ir) ≤ a < Z.of_nat (length Ir))%Z →
  (- Z.of_nat (length Ir) ≤ b < Z.of_nat (length Ir))%Z →
  is_Some (either_on Ir a b).
Proof.
  assert (∀ k, (- Z.of_nat (length Ir) ≤ k < Z.of_nat (length Ir))%Z →
               is_Some (np_get Ir k)) as Hget.
  { intros k Hk. unfold np_get. repeat case_decide; try lia;
      apply lookup_lt_is_Some; lia. }
  intros Ha Hb. unfold either_on.
  destruct (Hget a Ha) as [x ->]. simpl. case_decide; [by eexists|].
  destruct (Hget b Hb) as [y ->]. by eexists.
Qed.

Lemma naxes_at_range (Ir : list Z) (ncols pix v : Z) :
  naxes_at Ir ncols pix = Some v → (0 ≤ v ≤ 4)%Z.
Proof.
  unfold naxes_at. intros Hv.
  apply bind_Some in Hv as (h & _ & Hv).
  apply bind_Some in Hv as (w & _ & Hv).
  apply bind_Some in Hv as (d1 & _ & Hv).
  apply bind_Some in Hv as (d2 & _ & [= <-]).
  destruct h, w, d1, d2; simpl; lia.
Qed.

Lemma naxes_at_Some (Ir : list Z) (ncols pix : Z) :
  (0 ≤ ncols)%Z → (0 ≤ pix)%Z →
  (pix + ncols + 1 < Z.of_nat (length Ir))%Z →
  is_Some (naxes_at Ir ncols pix).
Proof.
  intros Hn Hp Hlt. unfold naxes_at.
  destruct (either_on_Some Ir (pix + 1) (pix - 1)) as [h ->]; [lia..|].
  destruct (either_on_Some Ir (pix + ncols) (pix - ncols)) as [w ->]; [lia..|].
  destruct (either_on_Some Ir (pix + 1 + ncols) (pix - 1 - ncols))
    as [d1 ->]; [lia..|].
  destruct (either_on_Some Ir (pix - 1 + ncols) (pix + 1 - ncols))
    as [d2 ->]; [lia..|].
  by eexists.
Qed.

(** [a[idcs] = vals] keeps a property of the entries that the values
    have, and keeps the length. *)
Lemma np_put_Forall (P : Z → Prop) (a idcs vals : list Z) :
  Forall P a → Forall P vals → Forall P (np_put a idcs vals).
Proof.
  unfold np_put. intros Ha Hv.
  assert (Forall (λ iv : Z * Z, P iv.2) (zip idcs vals)) as Hz.
  { apply Forall_forall. intros [i v] Hin. simpl.
    apply elem_of_zip_r in Hin. by eapply (proj1 (Forall_forall _ _) Hv). }
  revert a Ha. induction Hz as [|iv ivs Hiv Hivs IH]; intros a Ha; [done|].
  simpl. apply IH. by apply Forall_insert.
Qed.

Lemma np_put_length (a idcs vals : list Z) :
  length (np_put a idcs vals) = length a.
Proof.
  unfold np_put. generalize (zip idcs vals). intros ivs. revert a.
  induction ivs as [|iv ivs IH]; intros a; [done|].
  simpl. by rewrite IH, length_insert.
Qed.

(** An entry whose position is not written stays as it was. *)
Lemma np_put_other (a idcs vals : list Z) (j : nat) :
  (∀ p, p ∈ idcs → Z.to_nat p ≠ j) →
  np_put a idcs vals !! j = a !! j.
Proof.
  unfold np_put. intros Hj.
  assert (∀ iv, iv ∈ zip idcs vals → Z.to_nat iv.1 ≠ j) as Hz.
  { intros [i v] Hin. apply Hj. by apply elem_of_zip_l in Hin. }
  clear Hj. revert a. induction (zip idcs vals) as [|iv ivs IH]; intros a; [done|].
  simpl. rewrite IH.
  - apply list_lookup_insert_ne. apply Hz. left.
  - intros iv' Hiv'. apply Hz. by right.
Qed.

(** With positions that are pairwise distinct, the entry at the [k]-th
    position is the [k]-th value. *)
Lemma np_put_at (a idcs vals : list Z) (k : nat) (p v : Z) :
  NoDup (Z.to_nat <$> idcs) →
  idcs !! k = Some p → vals !! k = Some v → Z.to_nat p < length a →
  np_put a idcs vals !! Z.to_nat p = Some v.
Proof.
  revert a vals k. induction idcs as [|i idcs IH]; intros a vals k Hnd Hp Hv Hlt;
    [done|].
  destruct vals as [|w vals]; [by rewrite lookup_nil in Hv|].
  rewrite fmap_cons in Hnd. apply NoDup_cons in Hnd as [Hi Hnd].
  change (np_put a (i :: idcs) (w :: vals))
    with (np_put (<[Z.to_nat i := w]> a) idcs vals).
  destruct k as [|k]; simpl in Hp, Hv.
  - injection Hp as ->. injection Hv as ->.
    rewrite np_put_other.
    + by apply list_lookup_insert_eq.
    + intros q Hq Heq. apply Hi. rewrite <- Heq. by apply list_elem_of_fmap_2.
  - apply (IH _ _ k); [done..|]. by rewrite length_insert.
Qed.

Lemma reshape_Forall (P : Z → Prop) (n c : nat) (a : list Z) :
  Forall P a → Forall (Forall P) (reshape n c a).
Proof.
  revert a. induction n as [|n IH]; intros a Ha; simpl; [done|].
  constructor; [by apply Forall_take|]. apply IH. by apply Forall_drop.
Qed.

Lemma concat_reshape (n c : nat) (a : list Z) :
  length a = n * c → concat (reshape n c a) = a.
Proof.
  revert a. induction n as [|n IH]; intros a Hlen; simpl.
  - destruct a; [done|simpl in Hlen; lia].
  - rewrite IH.
    + apply take_drop.
    + rewrite length_drop. lia.
Qed.

Lemma ravel_length (Im : image) :
  rectangular Im →
  length (ravel Im) = Z.to_nat (shape Im).1 * Z.to_nat (shape Im).2.
Proof.
  unfold rectangular, ravel, shape. simpl. rewrite !Nat2Z.id.
  generalize (length (default [] (head Im))). intros c Hrect.
  induction Im as [|row Im IH]; [done|].
  simpl. rewrite length_app, IH.
  - rewrite (Hrect row) by left. done.
  - intros r Hr. apply Hrect. by right.
Qed.

Section Naxes.
Context `{ImUtils, PySet}.

Lemma elem_of_naxes_pixels (Im : image) (p : Z) :
  p ∈ naxes_pixels Im ↔
  (∃ i, p = Z.of_nat i ∧ ravel Im !! i = Some 1%Z)
  ∧ ¬ (p ∈ edge_coords (shape Im)).
Proof.
  unfold naxes_pixels. rewrite elem_of_difference, elem_of_list_to_set,
    list_elem_of_omap.
  split; intros [Hon Hedge]; (split; [|done]).
  - destruct Hon as ([i v] & Hin & Hf).
    apply elem_of_lookup_imap in Hin as (j & y & [= -> <-] & Hy).
    simpl in Hf. case_decide as Hv; [|done]. injection Hf as <-.
    subst. by exists j.
  - destruct Hon as (i & -> & Hi). exists (i, 1%Z). split.
    + by apply (elem_of_lookup_imap_2 (λ i v, (i, v))).
    + done.
Qed.

Lemma naxes_connectivity_Some (Im : image) (Inax : image) :
  naxes_connectivity Im = Some Inax →
  ∃ naxes,
    mapM (naxes_at (ravel Im) (shape Im).2) (pop_order (naxes_pixels Im))
      = Some naxes
    ∧ Inax = reshape (Z.to_nat (shape Im).1) (Z.to_nat (shape Im).2)
               (np_put (replicate (length (ravel Im)) 0%Z)
                       (set_list (naxes_pixels Im)) naxes).
Proof.
  unfold naxes_connectivity. fold (naxes_pixels Im).
  intros (naxes & Hn & [= <-])%bind_Some. by exists naxes.
Qed.

(** X14. Every entry of the image that [naxes_connectivity] returns
    lies between 0 and 4; and in a raster whose rows have one length,
    the entry of a pixel that is off, or on the border, is 0. *)
Theorem naxes_connectivity_range (Im Inax : image) :
  naxes_connectivity Im = Some Inax →
  (∀ row v, row ∈ Inax → v ∈ row → (0 ≤ v ≤ 4)%Z)
  ∧ (rectangular Im →
     ∀ i, i < length (ravel Im) →
          ¬ (Z.of_nat i ∈ naxes_pixels Im) → ravel Inax !! i = Some 0%Z).
Proof.
  intros (naxes & Hn & ->)%naxes_connectivity_Some. split.
  - assert (Forall (λ v, 0 ≤ v ≤ 4)%Z naxes) as Hvals.
    { apply Forall_forall. intros v Hv.
      apply list_elem_of_lookup_1 in Hv as [k Hk].
      apply mapM_Some_1 in Hn.
      destruct (Forall2_lookup_r _ _ _ k v Hn Hk) as (p & _ & Hp).
      by eapply naxes_at_range. }
    intros row v Hrow Hv.
    pose proof (reshape_Forall (λ v, 0 ≤ v ≤ 4)%Z
                  (Z.to_nat (shape Im).1) (Z.to_nat (shape Im).2)
                  (np_put (replicate (length (ravel Im)) 0%Z)
                          (set_list (naxes_pixels Im)) naxes)) as Hall.
    assert (Forall (λ v, 0 ≤ v ≤ 4)%Z
              (np_put (replicate (length (ravel Im)) 0%Z)
                      (set_list (naxes_pixels Im)) naxes)) as Hput.
    { apply np_put_Forall; [|done]. apply Forall_replicate. lia. }
    specialize (Hall Hput).
    apply (proj1 (Forall_forall _ _) Hall) in Hrow.
    by apply (proj1 (Forall_forall _ _) Hrow).
  - intros Hrect i Hi Hout. unfold ravel at 1.
    rewrite concat_reshape.
    2: { rewrite np_put_length, length_replicate. by apply ravel_length. }
    rewrite np_put_other.
    + apply lookup_replicate_2. done.
    + intros p Hp Heq. apply Hout.
      apply elem_of_set_list in Hp.
      pose proof Hp as Hp'.
      apply elem_of_naxes_pixels in Hp' as [(j & -> & _) _].
      rewrite Nat2Z.id in Heq. by subst.
Qed.

(** X15. [naxes_connectivity] returns when the raveled raster reaches
    more than a row and a pixel beyond every on-pixel that is not on the
    border. (A read before the start of the array does not raise: a
    negative index counts from its end.) *)
Theorem naxes_connectivity_returns (Im : image) :
  (∀ p, p ∈ naxes_pixels Im →
        (p + (shape Im).2 + 1 < Z.of_nat (length (ravel Im)))%Z) →
  is_Some (naxes_connectivity Im).
Proof.
  intros Hin. unfold naxes_connectivity. fold (naxes_pixels Im).
  destruct (mapM (naxes_at (ravel Im) (shape Im).2)
              (pop_order (naxes_pixels Im))) as [naxes|] eqn:Hn;
    [by eexists|].
  exfalso. assert (is_Some (mapM (naxes_at (ravel Im) (shape Im).2)
                             (pop_order (naxes_pixels Im)))) as [? Hs];
    [|congruence].
  apply mapM_is_Some, Forall_forall. intros p Hp%elem_of_pop_order.
  pose proof (Hin p Hp) as Hlt.
  apply elem_of_naxes_pixels in Hp as [(i & -> & _) _].
  apply naxes_at_Some; [|lia|done].
  unfold shape. simpl. lia.
Qed.

(** X16. When Python lists the set of the pixels in the order in which
    [pop] empties it, the image that [naxes_connectivity] returns for a
    raster whose rows have one length holds, at every on-pixel that is
    not on the border, the count of axes of that pixel. *)
Theorem naxes_connectivity_counts (Im Inax : image) (p : Z) :
  set_list (naxes_pixels Im) = pop_order (naxes_pixels Im) →
  rectangular Im →
  naxes_connectivity Im = Some Inax →
  p ∈ naxes_pixels Im →
  ∃ v, naxes_at (ravel Im) (shape Im).2 p = Some v
       ∧ ravel Inax !! Z.to_nat p = Some v.
Proof.
  intros Hord Hrect (naxes & Hn & ->)%naxes_connectivity_Some Hp.
  assert (p ∈ set_list (naxes_pixels Im)) as Hps by (by apply elem_of_set_list).
  apply list_elem_of_lookup_1 in Hps as [k Hk].
  apply mapM_Some_1 in Hn.
  assert (pop_order (naxes_pixels Im) !! k = Some p) as Hk' by (by rewrite <- Hord).
  destruct (Forall2_lookup_l _ _ _ k p Hn Hk') as (v & Hv & Hat).
  exists v. split; [done|].
  unfold ravel at 2. rewrite concat_reshape.
  2: { rewrite np_put_length, length_replicate. by apply ravel_length. }
  apply (np_put_at _ _ _ k); [|done|done|].
  - apply NoDup_fmap_2_strong; [|apply NoDup_set_list].
    intros x y Hx%elem_of_set_list Hy%elem_of_set_list Heq.
    apply elem_of_naxes_pixels in Hx as [(i & -> & _) _].
    apply elem_of_naxes_pixels in Hy as [(j & -> & _) _].
    rewrite !Nat2Z.id in Heq. by subst.
  - rewrite length_replicate.
    apply elem_of_naxes_pixels in Hp as [(i & -> & Hi) _].
    rewrite Nat2Z.id. by eapply lookup_lt_Some.
Qed.
End Naxes.

(** ** [handle_bp]: what it keeps *)

(** A call of [link_updater] without pixels changes no pixel chain. *)
Lemma link_updater_conn_chains links linkid k x :
  linkid ∈ l_id links →
  link_chain (link_updater links linkid None k) x = link_chain links x
  ∧ l_id (link_updater links linkid None k) = l_id links
  ∧ l_idx (link_updater links linkid None k) = l_idx links.
Proof.
  intros Hin. destruct (py_index_is_Some _ _ Hin) as [i Hi].
  rewrite (link_updater_conn _ _ _ _ Hi). done.
Qed.

(** The loop over [bp_pairs] changes no pixel chain of a link that
    exists. *)
Lemma join_pair_loop_chains (bs : list (list Z)) links nodes links' nodes' :
  foldlM join_pair (links, nodes) bs = Some (links', nodes') →
  length (l_idx links) = length (l_id links) →
  ∀ x, x ∈ l_id links → link_chain links' x = link_chain links x.
Proof.
  revert links nodes. induction bs as [|b bs IH]; intros links nodes.
  - by intros [= <- <-] Hlen.
  - rewrite foldlM_cons. intros Hb Hlen x Hx.
    apply bind_Some in Hb as ([links1 nodes1] & Hs & Hr).
    unfold join_pair in Hs.
    apply bind_Some in Hs as (top & Htop & Hs).
    apply bind_Some in Hs as (b0 & _ & Hs).
    apply bind_Some in Hs as (b1 & _ & Hs).
    apply bind_Some in Hs as (k0 & _ & Hs).
    apply bind_Some in Hs as (k1 & _ & Hs). injection Hs as <- <-.
    pose proof (top_plus_one_fresh _ _ Htop) as Hfresh.
    destruct (link_updater_ids links (top + 1)%Z (Some b) k0 Hlen)
      as (Hlen1 & Hids1 & Hch1).
    destruct (link_updater_ids _ (top + 1)%Z None k1 Hlen1)
      as (Hlen2 & Hids2 & Hch2).
    assert (x ≠ (top + 1)%Z) as Hne by (intros ->; done).
    rewrite (IH _ _ Hr Hlen2) by auto.
    rewrite Hch2 by auto. by apply Hch1.
Qed.

(** X17. [handle_bp] takes [linkid] out of the pending set and loses
    nothing else: every link that existed is still there with the pixel
    chain it had, every pending id is still the id of a link, and the
    lists of ids and of chains are still parallel. *)
Theorem handle_bp_keeps `{ImUtils, PySet} (wfuel fuel : nat)
  (linkid bpnode : Z) nodes links (links2do : Pending) Iskel
  links' nodes' (links2do' : Pending) :
  handle_bp wfuel fuel linkid bpnode nodes links links2do Iskel
  = Some (links', nodes', links2do') →
  pending_ok links links2do → NoDup links2do →
  pending_ok links' links2do'
  ∧ ¬ (linkid ∈ links2do')
  ∧ (∀ x, x ∈ links2do → x ≠ linkid → x ∈ links2do')
  ∧ ∀ x, x ∈ l_id links →
      x ∈ l_id links' ∧ link_chain links' x = link_chain links x.
Proof.
  intros Hh [Hlen Hpend] Hnd. unfold handle_bp in Hh.
  apply bind_Some in Hh as (rest & Hrest & Hh).
  apply bind_Some in Hh as (linkidx & Hidx & Hh).
  apply bind_Some in Hh as (k & Hk & Hh).
  pose proof (py_index_elem_of _ _ _ Hidx) as Hlink.
  assert (∀ x, x ∈ rest ↔ x ∈ links2do ∧ x ≠ linkid) as Hrest'.
  { rewrite py_remove_index in Hrest.
    destruct (py_index linkid links2do) as [j|] eqn:Hj; [|done].
    injection Hrest as <-. intros x.
    apply py_index_Some in Hj as [Hj _].
    by apply elem_of_delete_NoDup. }
  set (links0 := link_updater links linkid None k) in *.
  destruct (link_updater_conn_chains links linkid k linkid Hlink)
    as (_ & Hid0 & Hidx0).
  assert (∀ x, link_chain links0 x = link_chain links x) as Hch0.
  { intros x. by destruct (link_updater_conn_chains links linkid k x Hlink). }
  assert (pending_ok links0 rest) as Hok0.
  { split; [unfold links0; by rewrite Hid0, Hidx0|].
    intros x Hx%Hrest'. unfold links0. rewrite Hid0. apply Hpend, Hx. }
  destruct (bool_decide (bpnode ∈ n_idx nodes)).
  { injection Hh as <- <- <-. split_and!; [done| | |].
    - intros Hin%Hrest'. tauto.
    - intros x Hx Hne. by apply Hrest'.
    - intros x Hx. split; [unfold links0; by rewrite Hid0|apply Hch0]. }
  apply bind_Some in Hh as (bp & _ & Hh).
  apply bind_Some in Hh as (em & _ & Hh).
  apply bind_Some in Hh as (chain & _ & Hh).
  apply bind_Some in Hh as (bp_pairs & _ & Hh).
  apply bind_Some in Hh as ([links1 nodes1] & Hjoin & Hh).
  apply bind_Some in Hh as ([[links2 nodes2] pend2] & Hfour & Hdiag).
  destruct Hok0 as [Hlen0 Hpend0].
  destruct (join_pair_loop _ _ _ _ _ Hjoin Hlen0) as [Hlen1 Hids1].
  pose proof (join_pair_loop_chains _ _ _ _ _ Hjoin Hlen0) as Hch1.
  assert (pending_ok links1 rest) as Hok1.
  { split; [done|]. intros x Hx. by apply Hids1, Hpend0. }
  simpl in Hfour.
  destruct (issue_link_loop _ _ _ _ _ _ _ Hfour Hok1)
    as (Hok2 & Hids2 & Hch2 & new4 & -> & Hnew4).
  destruct (issue_link_loop _ _ _ _ _ _ _ Hdiag Hok2)
    as (Hok3 & Hids3 & Hch3 & newd & -> & Hnewd).
  assert (∀ x, x ∈ l_id links → x ∈ l_id links1) as Hin1.
  { intros x Hx. apply Hids1. unfold links0. by rewrite Hid0. }
  split_and!; [done| | |].
  - rewrite !elem_of_app. intros [[Hin%Hrest'|Hin]|Hin]; [tauto| |].
    + destruct (Hnew4 _ Hin) as [Hfresh _]. apply Hfresh. by apply Hin1.
    + destruct (Hnewd _ Hin) as [Hfresh _]. apply Hfresh.
      by apply Hids2, Hin1.
  - intros x Hx Hne. rewrite !elem_of_app. left. left. by apply Hrest'.
  - intros x Hx. split; [by apply Hids3, Hids2, Hin1|].
    rewrite Hch3 by (by apply Hids2, Hin1).
    rewrite Hch2 by (by apply Hin1).
    rewrite Hch1 by (unfold links0; by rewrite Hid0). apply Hch0.
Qed.

(** X18. [handle_bp] raises when [linkid] is not pending
    ([links2do.remove]) and when it is not the id of a link
    ([links['id'].index]). *)
Theorem handle_bp_raises `{ImUtils, PySet} (wfuel fuel : nat)
  (linkid bpnode : Z) nodes links (links2do : Pending) Iskel :
  ¬ (linkid ∈ links2do) ∨ ¬ (linkid ∈ l_id links) →
  handle_bp wfuel fuel linkid bpnode nodes links links2do Iskel = None.
Proof.
  intros Hno. unfold handle_bp.
  destruct (py_remove linkid links2do) as [rest|] eqn:Hrest; [|done].
  simpl. destruct (py_index linkid (l_id links)) as [i|] eqn:Hi; [|done].
  exfalso. destruct Hno as [Hno|Hno]; apply Hno.
  - rewrite py_remove_index in Hrest.
    destruct (py_index linkid links2do) as [j|] eqn:Hj; [|done].
    by eapply py_index_elem_of.
  - by eapply py_index_elem_of.
Qed.

(** ** [check_dup_links] a second time *)

(** Every link has a connection pair, and no node lists a link more
    often than the node stands in the pair of the link. *)
Definition listed_by_pairs (links : Links) (nodes : Nodes) : Prop :=
  length (l_conn links) = length (l_id links)
  ∧ ∀ n c x pr, n_conn nodes !! n = Some c → link_conn links x = Some pr →
                occ x c ≤ occ n pr.

Section DupTwice.
Variable link : list Z.

(** The loop reads the pixel chain of every candidate. *)
Lemma check_dup_loop_chains (cand : list Z) L N (P : Pending) st' :
  foldlM (check_dup_step link) (L, N, P) cand = Some st' →
  NoDup cand →
  ∀ x, x ∈ cand → is_Some (link_chain L x).
Proof.
  revert L N P. induction cand as [|lid rest IH]; intros L N P Hf Hnd x Hx.
  - by apply elem_of_nil in Hx.
  - rewrite foldlM_cons in Hf.
    apply bind_Some in Hf as ([[L1 N1] P1] & Hs & Hr).
    apply NoDup_cons in Hnd as [Hlid Hnd].
    apply elem_of_cons in Hx as [->|Hx].
    + unfold check_dup_step in Hs. apply bind_Some in Hs as (ch & Hch & _).
      by eexists.
    + pose proof (IH _ _ _ Hr Hnd x Hx) as Hsome.
      apply check_dup_step_Some in Hs
        as [(_ & Hdel & _)|(_ & -> & _ & _)]; [|done].
      destruct (delete_link_other _ _ _ _ _ x Hdel) as [<- _]; [|done].
      intros ->. done.
Qed.

(** With no candidate that passes the test, the loop changes nothing. *)
Lemma check_dup_loop_none (cand : list Z) L N (P : Pending) :
  (∀ x, x ∈ cand →
        ∃ ch, link_chain L x = Some ch
              ∧ ¬ same_pixels (last_two link) (first_two ch)) →
  foldlM (check_dup_step link) (L, N, P) cand = Some (L, N, P).
Proof.
  induction cand as [|lid rest IH]; intros Hall; [done|].
  rewrite foldlM_cons. destruct (Hall lid) as (ch & Hch & Hno); [left|].
  unfold check_dup_step at 2. rewrite Hch. simpl.
  rewrite decide_False by done. simpl. apply IH.
  intros x Hx. apply Hall. by right.
Qed.
End DupTwice.

Lemma link_chain_conn_index (links : Links) (lid : Z) (ch : list Z)
  (pr : list nat) :
  link_chain links lid = Some ch → link_conn links lid = Some pr →
  ∃ i, py_index lid (l_id links) = Some i
       ∧ l_idx links !! i = Some ch ∧ l_conn links !! i = Some pr.
Proof.
  unfold link_chain, link_conn.
  intros (i & Hi & Hch)%bind_Some (j & Hj & Hpr)%bind_Some.
  assert (j = i) as -> by congruence. by exists i.
Qed.

(** X19. On a graph with distinct link ids where no node lists a link
    more often than the node stands in the pair of the link,
    [check_dup_links] run a second time on what it returned returns it
    unchanged: the duplicates are gone after one run. *)
Theorem check_dup_links_twice (linkid : Z) (links : Links) (nodes : Nodes)
  (links2do : Pending) L' N' (P' : Pending) :
  NoDup (l_id links) → listed_by_pairs links nodes →
  check_dup_links linkid links nodes links2do = Some (L', N', P') →
  check_dup_links linkid L' N' P' = Some (L', N', P').
Proof.
  intros Hnd [Hlen Hmost] Hc. unfold check_dup_links in Hc.
  apply bind_Some in Hc as (i & Hi & Hc).
  apply bind_Some in Hc as (link & Hlink & Hc).
  apply bind_Some in Hc as (pair & Hpair & Hc).
  apply bind_Some in Hc as (e & He & Hc).
  apply bind_Some in Hc as (cl & Hcl & Hc).
  case_decide as Hin; [|done].
  set (cand := elements (list_to_set cl ∖ {[linkid]} : gset Z)) in *.
  assert (∀ x, x ∈ cand ↔ x ∈ cl ∧ x ≠ linkid) as Hcand.
  { intros x. unfold cand. rewrite elem_of_elements. set_solver. }
  assert (NoDup cand) as Hndc by apply NoDup_elements.
  pose proof (check_dup_loop_chains _ _ _ _ _ _ Hc Hndc) as Hread.
  apply check_dup_loop in Hc; [|done..].
  destruct Hc as (Hids & Hch & HP & Hsub & Hnidx & Hconn).
  assert (¬ (linkid ∈ cand ∧ dup_of link links linkid)) as Hkeep.
  { intros [Hl%Hcand _]. tauto. }
  destruct (Hch linkid Hkeep) as [Hchain Hpr].
  assert (link_chain links linkid = Some link) as Hchain0.
  { unfold link_chain. by rewrite Hi. }
  assert (link_conn links linkid = Some pair) as Hpr0.
  { unfold link_conn. by rewrite Hi. }
  rewrite Hchain0 in Hchain. rewrite Hpr0 in Hpr.
  destruct (link_chain_conn_index _ _ _ _ Hchain Hpr) as (i' & Hi' & Hl' & Hp').
  destruct (Hconn e cl Hcl) as (c' & Hc' & Hsubc & Hsame & Hlose).
  assert (linkid ∈ c') as Hin'.
  { apply occ_pos. rewrite (Hsame linkid Hkeep). apply occ_pos.
    by apply elem_of_list_to_set in Hin. }
  unfold check_dup_links. rewrite Hi'. simpl. rewrite Hl', Hp'. simpl.
  rewrite He. simpl. rewrite Hc'. simpl.
  rewrite decide_True by (by apply elem_of_list_to_set).
  apply check_dup_loop_none. intros x Hx.
  apply elem_of_elements in Hx.
  assert (x ∈ c' ∧ x ≠ linkid) as [Hxc' Hne] by set_solver.
  assert (x ∈ cl) as Hxcl.
  { eapply sublist_subseteq; [|done]. done. }
  assert (x ∈ cand) as Hxcand by (by apply Hcand).
  assert (¬ (x ∈ cand ∧ dup_of link links x)) as Hnodel.
  { intros Hdel. destruct (Hread x Hxcand) as [ch Hchx].
    assert (∃ pr, link_conn links x = Some pr) as [pr Hprx].
    { unfold link_chain in Hchx. apply bind_Some in Hchx as (j & Hj & _).
      unfold link_conn. rewrite Hj. simpl.
      apply lookup_lt_is_Some. rewrite Hlen. by eapply py_index_lt. }
    pose proof (Hlose x pr Hdel Hprx) as Hocc.
    pose proof (Hmost e cl x pr Hcl Hprx) as Hle.
    apply occ_pos in Hxc'. lia. }
  destruct (Hread x Hxcand) as [ch Hchx].
  destruct (Hch x Hnodel) as [Hchx' _]. exists ch. split; [congruence|].
  intros Hsp. apply Hnodel. split; [done|]. by exists ch.
Qed.

Lemma check_dup_links_twice_witness :
  let L' := mkLinks [0%Z] [[16; 24; 32; 40]%Z] [[0; 1]] in
  let N' := mkNodes [16; 40]%Z [[0%Z]; [0%Z]] in
  check_dup_links 0 L' N' [] = Some (L', N', []).
Proof.
  intros L' N'.
  apply (check_dup_links_twice 0 twin_links twin_nodes [1%Z] L' N' []).
  - apply (bool_decide_unpack _). vm_compute. exact I.
  - split; [reflexivity|].
    intros n c x pr Hc Hpr.
    destruct n as [|[|n]]; simpl in Hc; try done; injection Hc as <-;
      unfold link_conn in Hpr; simpl in Hpr;
      repeat (case_decide; simpl in Hpr; [injection Hpr as <-; subst;
                                          vm_compute; lia|]);
      try done.
    all: unfold occ; simpl;
      rewrite !filter_cons_False by done; simpl; lia.
  - vm_compute. reflexivity.
Defined.

(** ** [cant_walk]: the origin *)

Section CantWalkMore.
Context `{ImUtils, PySet}.
Local Arguments bp_cluster : simpl never.

(** X20. The set that [cant_walk] returns holds the pixel that the link
    starts at, which is a node, and every neighbour of that pixel: no
    step can lead back to the origin or next to it. *)
Theorem cant_walk_origin (wfuel fuel : nat) (links : Links) (linkidx : nat)
  (nodes : Nodes) (Iskel : image) (walked : gset Z) :
  cant_walk wfuel fuel links linkidx nodes Iskel = Some walked →
  ∃ chain origin,
    l_idx links !! linkidx = Some chain
    ∧ head chain = Some origin
    ∧ origin ∈ n_idx nodes
    ∧ origin ∈ walked
    ∧ ∀ n, n ∈ get_neighbors origin Iskel → n ∈ walked.
Proof.
  unfold cant_walk. intros (chain & Hchain & Hc)%bind_Some.
  apply bind_Some in Hc as (origin & Horigin & Hc).
  apply bind_Some in Hc as (bps & Hbps & Hc).
  apply bind_Some in Hc as (w & Hw & Hc).
  apply bind_Some in Hc as (nodeidx & Hnodeidx & Hc).
  apply bind_Some in Hc as (connlinks & Hconn & Hc).
  exists chain, origin. split_and!; [done|done|by eapply py_index_elem_of| |].
  - apply (cant_walk_loop_spec _ _ _ _ _ Hc). left.
    apply (add_emanators_spec _ _ _ _ Hw). left.
    apply elem_of_list_to_set.
    apply cluster_sound in Hbps as (Hpre%prefix_subseteq & _).
    apply Hpre. set_solver.
  - intros n Hn. apply (cant_walk_loop_spec _ _ _ _ _ Hc). left.
    apply (add_emanators_spec _ _ _ _ Hw).
    apply cluster_sound in Hbps as (Hpre%prefix_subseteq & _).
    assert (origin ∈ bps) as Ho by (apply Hpre; set_solver).
    destruct (decide (n = origin)) as [->|Hne].
    + left. by apply elem_of_list_to_set.
    + right.
      exists origin, (list_to_set (get_neighbors origin Iskel)
                        ∖ list_to_set (last_two [origin])).
      split_and!; [done|done|].
      apply elem_of_difference. split; [by apply elem_of_list_to_set|].
      rewrite elem_of_list_to_set. intros Hl%last_two_subseteq.
      by apply list_elem_of_singleton in Hl.
Qed.
End CantWalkMore.

(** ** The further properties on the example rasters *)

Lemma bp_cluster_only_branchpoints_witness :
  let cl := [24; 31]%Z in
  head cl = Some 24%Z
  ∧ NoDup cl
  ∧ ∀ x, x ∈ cl → x ≠ 24%Z →
      is_bp 60 x twin_forks = Some 1%Z
      ∧ ∃ y, y ∈ cl ∧ x ∈ get_neighbors y twin_forks.
Proof.
  intros cl. apply (bp_cluster_only_branchpoints 60 twin_forks 5 24 cl).
  vm_compute. reflexivity.
Defined.

Lemma find_emanators_outside_witness :
  let em : gset Z := list_to_set [16; 18; 37; 39]%Z in
  ∃ cl,
    bp_cluster 60 5 [24%Z] twin_forks = Some cl
    ∧ ¬ (24%Z ∈ em)
    ∧ ∀ x, x ∈ em ↔
        ¬ (x ∈ cl) ∧ ∃ b, b ∈ cl ∧ x ∈ get_neighbors b twin_forks.
Proof.
  intros em. apply (find_emanators_outside 60 twin_forks 5 24 em).
  vm_compute. reflexivity.
Defined.

Lemma isbp_walk_for_bps_forks_witness :
  let r : gset Z := list_to_set [43; 47]%Z in
  isbp_walk_for_bps 50 two_forks [43%Z] = Some r
  ∧ ∀ b, b ∈ r → b ∈ [43%Z] ∨ forks two_forks b.
Proof.
  intros r. split; [vm_compute; reflexivity|].
  apply (isbp_walk_for_bps_forks 50 two_forks [43%Z] r).
  vm_compute. reflexivity.
Defined.

Lemma isbp_parsimonious_patterns_witness :
  ∃ s, BpSet (list_to_set [43; 47]%Z) = BpSet s ∧ Z.of_nat 43 ∈ s.
Proof.
  apply (isbp_parsimonious_patterns 50 two_forks_Ic (ravel two_forks_Ic)
           (ravel two_forks_Ina) (ravel two_forks_Inf)
           [list_to_set [43; 47]%Z; list_to_set [43; 47]%Z]
           (BpSet (list_to_set [43; 47]%Z)) 43 3 3 1).
  - vm_compute. reflexivity.
  - vm_compute. reflexivity.
  - vm_compute. reflexivity.
  - unfold keepvals. set_solver.
  - reflexivity.
  - reflexivity.
  - reflexivity.
Defined.

Lemma isbp_parsimonious_nothing_witness :
  isbp_parsimonious 50 [[0; 0; 0]; [0; 1; 0]; [0; 0; 0]]%Z
    [0; 0; 0; 0; 1; 0; 0; 0; 0]%Z (replicate 9 0%Z) (replicate 9 0%Z) = None.
Proof.
  apply isbp_parsimonious_nothing.
  - vm_compute. reflexivity.
  - vm_compute. reflexivity.
Defined.

Lemma isbp_parsimonious_fewest_witness :
  let bpsave : list (gset Z) :=
    list_to_set <$>
      [[55; 59; 61]; [59; 61; 56]; [61; 56]; [61; 73; 56]; [61; 49; 56];
       [61; 62; 56]; [59; 61; 54]; [61; 60; 56]; [59; 61; 68];
       [59; 61; 56]]%Z in
  (im_connectivity bar_forks = bar_forks_Ic
   ∧ naxes_connectivity bar_forks = Some bar_forks_Ina
   ∧ nfour_connectivity bar_forks = bar_forks_Inf
   ∧ seed_walks 50 bar_forks_Ic = Some bpsave
   ∧ size <$> bpsave = [3; 3; 2; 3; 3; 3; 3; 3; 3; 3])
  ∧ isbp_parsimonious 50 bar_forks_Ic (ravel bar_forks_Ic)
      (ravel bar_forks_Ina) (ravel bar_forks_Inf)
    = Some (BpSet (list_to_set [61; 56]%Z)).
Proof.
  intros bpsave. split.
  - repeat (split; [by vm_compute|]). by vm_compute.
  - apply (isbp_parsimonious_fewest 50 bar_forks_Ic (ravel bar_forks_Ic)
             (ravel bar_forks_Ina) (ravel bar_forks_Inf) bpsave 2
             (list_to_set [61; 56]%Z)).
    + vm_compute. reflexivity.
    + vm_compute. reflexivity.
    + vm_compute. reflexivity.
    + reflexivity.
    + intros j s' Hj Hs'.
      do 10 (destruct j as [|j];
             [first [done | injection Hs' as <-; by vm_compute]|]).
      done.
Defined.

Lemma is_bp_answer_witness :
  (1 = 0 ∨ 1 = 1)%Z
  ∧ (1%Z = 1%Z → 3 ≤ length (get_neighbors 40 Y_raster)).
Proof.
  apply (is_bp_answer 5 40 Y_raster 1). vm_compute. reflexivity.
Defined.

Lemma two_forks_rectangular : rectangular two_forks.
Proof.
  intros row Hrow. unfold two_forks in Hrow.
  repeat (apply elem_of_cons in Hrow as [->|Hrow]); [done..|].
  by apply elem_of_nil in Hrow.
Qed.

Lemma two_forks_naxes_pixels :
  naxes_pixels two_forks
  = list_to_set [15; 23; 29; 35; 43; 44; 45; 46; 47; 55; 61; 67; 75]%Z.
Proof. vm_compute. reflexivity. Qed.

Lemma naxes_connectivity_range_witness :
  (∀ row v, row ∈ two_forks_Ina → v ∈ row → (0 ≤ v ≤ 4)%Z)
  ∧ (rectangular two_forks →
     ∀ i, i < length (ravel two_forks) →
          ¬ (Z.of_nat i ∈ naxes_pixels two_forks) →
          ravel two_forks_Ina !! i = Some 0%Z).
Proof.
  apply (naxes_connectivity_range two_forks two_forks_Ina).
  vm_compute. reflexivity.
Defined.

Lemma naxes_connectivity_returns_witness :
  is_Some (naxes_connectivity two_forks).
Proof.
  apply naxes_connectivity_returns. intros p Hp.
  rewrite two_forks_naxes_pixels in Hp. apply elem_of_list_to_set in Hp.
  repeat (apply elem_of_cons in Hp as [->|Hp]); [vm_compute; done..|].
  by apply elem_of_nil in Hp.
Defined.

Lemma naxes_connectivity_counts_witness :
  ∃ v, naxes_at (ravel two_forks) (shape two_forks).2 43 = Some v
       ∧ ravel two_forks_Ina !! Z.to_nat 43 = Some v.
Proof.
  apply (naxes_connectivity_counts two_forks two_forks_Ina 43).
  - vm_compute. reflexivity.
  - exact two_forks_rectangular.
  - vm_compute. reflexivity.
  - rewrite two_forks_naxes_pixels. set_solver.
Defined.

Lemma handle_bp_keeps_witness :
  let links := Y_links0 in
  let links2do : Pending := [0%Z] in
  let links' := Y_links in
  let links2do' : Pending := [1; 2]%Z in
  pending_ok links' links2do'
  ∧ ¬ (0%Z ∈ links2do')
  ∧ (∀ x, x ∈ links2do → x ≠ 0%Z → x ∈ links2do')
  ∧ ∀ x, x ∈ l_id links →
      x ∈ l_id links' ∧ link_chain links' x = link_chain links x.
Proof.
  intros links links2do links' links2do'.
  apply (handle_bp_keeps 5 5 0 40 Y_nodes0 links links2do Y_raster
           links' Y_nodes links2do').
  - vm_compute. reflexivity.
  - split; [reflexivity|]. intros x Hx. exact Hx.
  - apply NoDup_singleton.
Defined.

Lemma handle_bp_raises_witness :
  handle_bp 5 5 7 40 Y_nodes0 Y_links0 [0%Z] Y_raster = None.
Proof.
  apply handle_bp_raises. left. set_solver.
Defined.

Lemma cant_walk_origin_witness :
  let walked : gset Z := list_to_set [24; 32; 39; 40; 50]%Z in
  ∃ chain origin,
    l_idx Y_links !! 1 = Some chain
    ∧ head chain = Some origin
    ∧ origin ∈ n_idx Y_nodes
    ∧ origin ∈ walked
    ∧ ∀ n, n ∈ get_neighbors origin Y_raster → n ∈ walked.
Proof.
  intros walked. apply (cant_walk_origin 5 5 Y_links 1 Y_nodes Y_raster walked).
  vm_compute. reflexivity.
Defined.
